(** * Number_Neural_Network: a shallow embedding of the Go perceptron

    The repository is a single-hidden-layer perceptron written against
    gonum's [mat.Dense].  This development embeds

    - [float64] as IEEE-754 binary64, through the executable
      specification of the kernel's floats ([SpecFloat], 53 bits of
      precision, exponent bound 1024);
    - Go's [int] as [Z] with the 64-bit wrap-around written out;
    - [*mat.Dense] as a pointer into a heap of [Dense] cells, so that the
      difference between value receivers ([Predict], [Train]) and pointer
      receivers ([save], [load]) is visible;
    - the two weight files as byte strings in a small file system;
    - panics and Go [error] values as two different things: a panic aborts
      the computation ([Panic]), an [error] is an ordinary return value.

    [math.Exp] is the one library function with no executable
    specification; it is a parameter of the network code, constrained where
    needed by the facts the Go documentation states ([ExpContract]). *)

From Stdlib Require Import ZArith List Lia String Strings.Byte Bool.
From Stdlib Require Import Floats.SpecFloat.
From stdpp Require Import base list gmap strings.

Local Open Scope Z_scope.

(* ================================================================= *)
(** ** Go's [float64] *)

Module F64.

Definition prec : Z := 53.
Definition emax : Z := 1024.

Definition float64 : Type := spec_float.

Definition valid (x : float64) : bool := valid_binary prec emax x.

Definition add : float64 -> float64 -> float64 := SFadd prec emax.
Definition sub : float64 -> float64 -> float64 := SFsub prec emax.
Definition mul : float64 -> float64 -> float64 := SFmul prec emax.
Definition div : float64 -> float64 -> float64 := SFdiv prec emax.
Definition sqrt : float64 -> float64 := SFsqrt prec emax.

Definition ltb : float64 -> float64 -> bool := SFltb.
Definition leb : float64 -> float64 -> bool := SFleb.
Definition eqb : float64 -> float64 -> bool := SFeqb.

(** [float64(n)] for an [int] [n]: rounding to nearest, ties to even. *)
Definition of_int (n : Z) : float64 := binary_normalize prec emax n 0 false.

Definition zero : float64 := S754_zero false.
Definition one : float64 := Eval vm_compute in of_int 1.
Definition neg_one : float64 := Eval vm_compute in of_int (-1).
Definition pos_inf : float64 := S754_infinity false.

(** The decimal literals of the driver.  A literal is the binary64 nearest
    to the decimal it spells, which is what the correctly rounded quotient
    of the two integers computes. *)
Definition c0_99 : float64 := Eval vm_compute in div (of_int 99) (of_int 100).
Definition c0_01 : float64 := Eval vm_compute in div (of_int 1) (of_int 100).
Definition c255 : float64 := Eval vm_compute in of_int 255.

Definition is_nan (x : float64) : bool :=
  match x with S754_nan => true | _ => false end.

Definition is_finite (x : float64) : bool :=
  match x with S754_zero _ | S754_finite _ _ _ => true | _ => false end.

(** The sign bit; [NaN] counts as unsigned. *)
Definition signbit (x : float64) : bool :=
  match x with
  | S754_zero s | S754_infinity s | S754_finite s _ _ => s
  | S754_nan => false
  end.

(** *** [math.Float64bits] and [math.Float64frombits]

    The interchange encoding: one sign bit, eleven exponent bits, fifty-two
    fraction bits.  [spec_float] has a single NaN, encoded as Go's
    [math.NaN()]; the payload of other NaNs is not represented. *)

Definition sign_bits (s : bool) : Z := if s then 2 ^ 63 else 0.

Definition Float64bits (x : float64) : Z :=
  match x with
  | S754_zero s => sign_bits s
  | S754_infinity s => sign_bits s + 2047 * 2 ^ 52
  | S754_nan => 2047 * 2 ^ 52 + 2 ^ 51 + 1
  | S754_finite s m e =>
      if Z.pos m <? 2 ^ 52
      then sign_bits s + Z.pos m
      else sign_bits s + (e + 1075) * 2 ^ 52 + (Z.pos m - 2 ^ 52)
  end.

Definition Float64frombits (b : Z) : float64 :=
  let s := 2 ^ 63 <=? b in
  let ex := (b / 2 ^ 52) mod 2 ^ 11 in
  let frac := b mod 2 ^ 52 in
  if ex =? 0 then
    if frac =? 0 then S754_zero s else S754_finite s (Z.to_pos frac) (-1074)
  else if ex =? 2047 then
    if frac =? 0 then S754_infinity s else S754_nan
  else S754_finite s (Z.to_pos (frac + 2 ^ 52)) (ex - 1075).

End F64.

Abbreviation float64 := F64.float64.

(* ================================================================= *)
(** ** Go's [int] *)

(** The value a 64-bit two's complement register holds for [z]. *)
Definition wrap64 (z : Z) : Z := (z + 2 ^ 63) mod 2 ^ 64 - 2 ^ 63.

Definition int_mul (a b : Z) : Z := wrap64 (a * b).

(** [len(s)] of a slice. *)
Definition len {A : Type} (s : list A) : Z := Z.of_nat (length s).

(* ================================================================= *)
(** ** Panics and errors *)

(** A computation either returns or panics; the message is the panic's. *)
Inductive Res (A : Type) : Type :=
| Ok (a : A)
| Panic (msg : string).
Arguments Ok {A} a.
Arguments Panic {A} msg.

#[global] Instance Res_ret : MRet Res := fun A a => Ok a.
#[global] Instance Res_bind : MBind Res := fun A B f m =>
  match m with
  | Ok a => f a
  | Panic msg => Panic msg
  end.
#[global] Instance Res_fmap : FMap Res := fun A B f m =>
  match m with
  | Ok a => Ok (f a)
  | Panic msg => Panic msg
  end.

(** The [error] values the persistence code can return: the two of
    [os.Open]/[os.Create], and those of gonum's binary decoder. *)
Inductive error : Type :=
| ErrNotExist
| ErrPermission
| ErrUnexpectedEOF
| ErrVersion (v : Z)
| ErrWrongType
| ErrBadSize
| ErrZeroLength
| ErrTooBig.

(** The errors that say "these bytes are not a weight matrix", as opposed
    to "the file could not be opened". *)
Definition is_format_error (e : error) : bool :=
  match e with
  | ErrNotExist | ErrPermission => false
  | _ => true
  end.

(* ================================================================= *)
(** ** gonum's [mat.Dense] *)

(** A [Dense] is a [blas64.General] (rows, columns, stride, data slice)
    with the capacity the backing array was made for.  The data slice is
    a window on a backing array: [Data] are its [len] first cells and
    [slack] the cells between [len] and [cap], which [Reset] leaves in
    place and a later reuse takes back without clearing them. *)
Record Dense : Type := mkDense {
  Rows : Z;
  Cols : Z;
  Stride : Z;
  Data : list float64;
  slack : list float64;
  capRows : Z;
  capCols : Z
}.

(** [mat.Matrix] as this program uses it: a [*Dense], or the [Transpose]
    view that [T()] wraps around one. *)
Inductive Matrix : Type :=
| MDense (d : Dense)
| MTranspose (d : Dense).

Module mat.

(** [make([]float64, n)]: the runtime panics on a negative length. *)
Definition make (n : Z) : Res (list float64) :=
  if n <? 0 then Panic "makeslice: len out of range"
  else Ok (replicate (Z.to_nat n) F64.zero).

Definition NewDense (r c : Z) (data : option (list float64)) : Res Dense :=
  if (r <=? 0) || (c <=? 0) then
    if (r =? 0) || (c =? 0) then Panic "mat: zero length in matrix dimension"
    else Panic "mat: negative dimension"
  else
    match data with
    | Some d =>
        if negb (int_mul r c =? len d) then Panic "mat: dimension mismatch"
        else Ok (mkDense r c c d [] r c)
    | None =>
        d ← make (int_mul r c);
        Ok (mkDense r c c d [] r c)
    end.

Definition Dims (m : Matrix) : Z * Z :=
  match m with
  | MDense d => (Rows d, Cols d)
  | MTranspose d => (Cols d, Rows d)
  end.

Definition T (m : Matrix) : Matrix :=
  match m with
  | MDense d => MTranspose d
  | MTranspose d => MDense d
  end.

(** The unchecked accessor [m.at(i, j)]: the cell [i*Stride + j] of the
    data slice.  Reads are guarded by [in_bounds] below, under which the
    index exists; the default is never returned there. *)
Definition at_ (d : Dense) (i j : Z) : float64 :=
  default F64.zero (Data d !! Z.to_nat (i * Stride d + j)).

Definition At (m : Matrix) (i j : Z) : float64 :=
  match m with
  | MDense d => at_ d i j
  | MTranspose d => at_ d j i
  end.

(** The exported accessor [m.At(i, j)], which checks both indices against
    the dimensions before it reads; on a transpose it is the accessor of
    the matrix underneath with the indices exchanged. *)
Definition At_checked (m : Matrix) (i j : Z) : Res float64 :=
  match m with
  | MDense d =>
      if (i <? 0) || (Rows d <=? i) then Panic "mat: row index out of range"
      else if (j <? 0) || (Cols d <=? j) then Panic "mat: column index out of range"
      else Ok (at_ d i j)
  | MTranspose d =>
      if (j <? 0) || (Rows d <=? j) then Panic "mat: row index out of range"
      else if (i <? 0) || (Cols d <=? i) then Panic "mat: column index out of range"
      else Ok (at_ d j i)
  end.

(** Every cell of the [Rows x Cols] window lies inside the data slice (and
    rows do not overlap); a kernel run on a matrix without this indexes
    past the slice and panics. *)
Definition in_bounds (d : Dense) : bool :=
  (0 <? Rows d) && (0 <? Cols d) && (Cols d <=? Stride d)
  && ((Rows d - 1) * Stride d + Cols d <=? len (Data d)).

Definition raw (m : Matrix) : Dense :=
  match m with MDense d | MTranspose d => d end.

Definition IsEmpty (d : Dense) : bool := Stride d =? 0.

(** [Reset]: the receiver becomes the empty matrix and keeps its backing
    array. *)
Definition Reset (d : Dense) : Dense :=
  mkDense 0 0 0 [] (Data d ++ slack d) 0 0.

(** [use(f, l)]: the first [l] cells of the backing array when it has that
    many, a new zeroed array otherwise. *)
Definition use (d : Dense) (l : Z) : Res (list float64 * list float64) :=
  let backing := Data d ++ slack d in
  if l <? 0 then Panic "slice bounds out of range"
  else if l <=? len backing
  then Ok (take (Z.to_nat l) backing, drop (Z.to_nat l) backing)
  else Ok (replicate (Z.to_nat l) F64.zero, []).

Definition reuseAsNonZeroed (d : Dense) (r c : Z) : Res Dense :=
  if (capRows d <? Rows d) || (capCols d <? Cols d) then Panic "mat: bad capacity"
  else if (r =? 0) || (c =? 0) then Panic "mat: zero length in matrix dimension"
  else if IsEmpty d then
    '(data, rest) ← use d (int_mul r c);
    Ok (mkDense r c c data rest r c)
  else if negb (r =? Rows d) || negb (c =? Cols d) then Panic "mat: dimension mismatch"
  else Ok d.

(** The cells [f i j] of an [r x c] matrix in row-major order. *)
Definition tabulate (r c : Z) (f : Z -> Z -> float64) : list float64 :=
  i ← seqZ 0 r; (fun j => f i j) <$> seqZ 0 c.

(** The receiver after a kernel has written [f i j] to each of its cells.
    Receivers here come from [NewDense] or from a reuse of an empty matrix,
    whose stride is the column count, so the cells are the whole slice. *)
Definition fill (o : Dense) (f : Z -> Z -> float64) : Res Dense :=
  if negb (in_bounds o) || negb (Stride o =? Cols o)
  then Panic "index out of range"
  else Ok (mkDense (Rows o) (Cols o) (Stride o)
             (tabulate (Rows o) (Cols o) f) (slack o) (capRows o) (capCols o)).

Definition same_dims (a b : Matrix) : bool :=
  (fst (Dims a) =? fst (Dims b)) && (snd (Dims a) =? snd (Dims b)).

(** Elementwise kernels: [o.Op(a, b)] panics unless [a] and [b] have the
    same dimensions, takes their shape and writes [op a_ij b_ij]. *)
Definition elementwise (op : float64 -> float64 -> float64)
    (o : Dense) (a b : Matrix) : Res Dense :=
  if negb (same_dims a b) then Panic "mat: dimension mismatch"
  else
    o' ← reuseAsNonZeroed o (fst (Dims a)) (snd (Dims a));
    if negb (in_bounds (raw a)) || negb (in_bounds (raw b))
    then Panic "index out of range"
    else fill o' (fun i j => op (At a i j) (At b i j)).

Definition Add := elementwise F64.add.
Definition Sub := elementwise F64.sub.
Definition MulElem := elementwise F64.mul.

Definition Scale (o : Dense) (s : float64) (a : Matrix) : Res Dense :=
  o' ← reuseAsNonZeroed o (fst (Dims a)) (snd (Dims a));
  if negb (in_bounds (raw a)) then Panic "index out of range"
  else fill o' (fun i j => F64.mul s (At a i j)).

Definition Apply (o : Dense) (fn : Z -> Z -> float64 -> float64) (a : Matrix)
  : Res Dense :=
  o' ← reuseAsNonZeroed o (fst (Dims a)) (snd (Dims a));
  if negb (in_bounds (raw a)) then Panic "index out of range"
  else fill o' (fun i j => fn i j (At a i j)).

(** The inner product the matrix kernel accumulates for one cell: from
    zero, the terms in ascending order of [k]. *)
Definition inner (n : Z) (term : Z -> float64) : float64 :=
  foldl (fun acc k => F64.add acc (term k)) F64.zero (seqZ 0 n).

(** [o.Product(a, b)] with two factors is [o.Mul(a, b)]. *)
Definition Product (o : Dense) (a b : Matrix) : Res Dense :=
  let '(ar, ac) := Dims a in
  let '(br, bc) := Dims b in
  if negb (ac =? br) then Panic "mat: dimension mismatch"
  else
    o' ← reuseAsNonZeroed o ar bc;
    if negb (in_bounds (raw a)) || negb (in_bounds (raw b))
    then Panic "blas: insufficient length"
    else fill o' (fun i j => inner ac (fun k => F64.mul (At a i k) (At b k j))).

End mat.

(* ================================================================= *)
(** ** [encoding/binary] and gonum's matrix codec *)

Module binary.

Definition byte_of_Z (z : Z) : byte :=
  default x00 (Byte.of_N (Z.to_N (z mod 256))).

Definition Z_of_byte (b : byte) : Z := Z.of_N (Byte.to_N b).

(** [n] bytes of [v], least significant first. *)
Fixpoint put_le (n : nat) (v : Z) : list byte :=
  match n with
  | O => []
  | S n' => byte_of_Z v :: put_le n' (v / 256)
  end.

Fixpoint get_le (bs : list byte) : Z :=
  match bs with
  | [] => 0
  | b :: bs' => Z_of_byte b + 256 * get_le bs'
  end.

(** [binary.LittleEndian.PutUint64] of [uint64(v)], and [Uint64]. *)
Definition PutUint64 (v : Z) : list byte := put_le 8 (v mod 2 ^ 64).
Definition Uint64 (bs : list byte) : Z := get_le (take 8 bs).
Definition PutUint32 (v : Z) : list byte := put_le 4 (v mod 2 ^ 32).
Definition Uint32 (bs : list byte) : Z := get_le (take 4 bs).

End binary.

Module codec.

(** The header gonum writes before the cells: forty bytes. *)
Record storage : Type := mkStorage {
  Version : Z;
  Form : byte;
  Packing : byte;
  Uplo : byte;
  Unit : bool;
  SRows : Z;
  SCols : Z;
  KU : Z;
  KL : Z
}.

Definition version : Z := 1.
Definition headerSize : Z := 40.

(** ['G'], ['F'], ['A']: a general matrix, stored in full. *)
Definition form_general : byte := x47.
Definition packing_full : byte := x46.
Definition uplo_all : byte := x41.

Definition marshal_header (s : storage) : list byte :=
  binary.PutUint32 (Version s)
  ++ [Form s; Packing s; Uplo s; if Unit s then x01 else x00]
  ++ binary.PutUint64 (SRows s) ++ binary.PutUint64 (SCols s)
  ++ binary.PutUint64 (KU s) ++ binary.PutUint64 (KL s).

(** [storage.unmarshalBinary]: the version is checked first; the integer
    fields are read back as [int64]. *)
Definition unmarshal_header (buf : list byte) : storage + error :=
  let v := binary.Uint32 buf in
  if negb (v =? version) then inr (ErrVersion v)
  else
    let byte_at i := default x00 (buf !! i) in
    inl (mkStorage v (byte_at 4%nat) (byte_at 5%nat) (byte_at 6%nat)
           (negb (binary.Z_of_byte (byte_at 7%nat) =? 0))
           (wrap64 (binary.Uint64 (drop 8 buf)))
           (wrap64 (binary.Uint64 (drop 16 buf)))
           (wrap64 (binary.Uint64 (drop 24 buf)))
           (wrap64 (binary.Uint64 (drop 32 buf)))).

(** The cells of [d], row by row, eight bytes each. *)
Definition marshal_cells (d : Dense) : list byte :=
  i ← seqZ 0 (Rows d); j ← seqZ 0 (Cols d);
  binary.PutUint64 (F64.Float64bits (mat.at_ d i j)).

(** [Dense.MarshalBinaryTo] on a writer that accepts every byte: the bytes
    written.  An empty matrix writes its header only; otherwise the loop
    reads every cell of the window. *)
Definition MarshalBinaryTo (d : Dense) : Res (list byte) :=
  if negb ((Rows d <=? 0) || (Cols d <=? 0) || mat.in_bounds d)
  then Panic "index out of range"
  else Ok (marshal_header
             (mkStorage version form_general packing_full uplo_all false
                (Rows d) (Cols d) 0 0)
           ++ marshal_cells d).

(** The decoding loop [for i := range m.mat.Data]: each cell is replaced
    by the next eight bytes; when the stream ends early the loop stops
    with [io.ErrUnexpectedEOF] and the cells not reached keep what the
    slice held. *)
Fixpoint read_cells (data : list float64) (r : list byte)
  : list float64 * option error :=
  match data with
  | [] => ([], None)
  | old :: rest =>
      if len r <? 8 then (old :: rest, Some ErrUnexpectedEOF)
      else
        let '(rest', e) := read_cells rest (drop 8 r) in
        (F64.Float64frombits (binary.Uint64 r) :: rest', e)
  end.

Definition set_Data (d : Dense) (data : list float64) : Dense :=
  mkDense (Rows d) (Cols d) (Stride d) data (slack d) (capRows d) (capCols d).

(** [Dense.UnmarshalBinaryFrom] reading the stream [r]: the receiver
    afterwards and the error returned ([None] is [nil]).  It panics on a
    receiver that is not empty.  Nothing in it compares the stored
    dimensions with anything: an empty receiver takes the stored shape. *)
Definition UnmarshalBinaryFrom (m : Dense) (r : list byte)
  : Res (Dense * option error) :=
  if negb (mat.IsEmpty m) then Panic "mat: unmarshal into non-empty matrix"
  else if len r <? headerSize then Ok (m, Some ErrUnexpectedEOF)
  else
    match unmarshal_header (take (Z.to_nat headerSize) r) with
    | inr e => Ok (m, Some e)
    | inl h =>
        let rows := SRows h in
        let cols := SCols h in
        if negb (Byte.eqb (Form h) form_general && Byte.eqb (Packing h) packing_full
                 && Byte.eqb (Uplo h) uplo_all && negb (Unit h)
                 && (KU h =? 0) && (KL h =? 0))
        then Ok (m, Some ErrWrongType)
        else if (rows <? 0) || (cols <? 0) then Ok (m, Some ErrBadSize)
        else
          let size := int_mul rows cols in
          if size =? 0 then Ok (m, Some ErrZeroLength)
          else if size <? 0 then Ok (m, Some ErrTooBig)
          else
            m' ← mat.reuseAsNonZeroed m rows cols;
            let '(data, e) := read_cells (Data m') (drop (Z.to_nat headerSize) r) in
            Ok (set_Data m' data, e)
    end.

End codec.

(* ================================================================= *)
(** ** The world the program runs in *)

(** The heap of [Dense] cells a [*mat.Dense] points into, the files, the
    paths that cannot be created, and the process-wide random source: the
    sequence of numbers [rand.Float64] will return and how many were
    drawn. *)
Record World : Type := mkWorld {
  heap : list Dense;
  files : gmap string (list byte);
  unwritable : gset string;
  rand_src : nat -> float64;
  rand_pos : nat
}.

(** A statement of the program: it reads and changes the world, and
    returns or panics. *)
Definition M (A : Type) : Type := World -> Res (A * World).

#[global] Instance M_ret : MRet M := fun A a w => Ok (a, w).
#[global] Instance M_bind : MBind M := fun A B f m w =>
  match m w with
  | Ok (a, w') => f a w'
  | Panic msg => Panic msg
  end.

Definition lift {A : Type} (r : Res A) : M A := fun w =>
  match r with
  | Ok a => Ok (a, w)
  | Panic msg => Panic msg
  end.

Definition set_heap (w : World) (h : list Dense) : World :=
  mkWorld h (files w) (unwritable w) (rand_src w) (rand_pos w).

Definition set_files (w : World) (fs : gmap string (list byte)) : World :=
  mkWorld (heap w) fs (unwritable w) (rand_src w) (rand_pos w).

(** Reading through a [*mat.Dense]. *)
Definition deref (p : nat) : M Dense := fun w =>
  match heap w !! p with
  | Some d => Ok (d, w)
  | None => Panic "invalid memory address or nil pointer dereference"
  end.

(** Writing through a [*mat.Dense]: the cell changes for every holder of
    the pointer. *)
Definition assign (p : nat) (d : Dense) : M unit := fun w =>
  match heap w !! p with
  | Some _ => Ok (tt, set_heap w (<[p := d]> (heap w)))
  | None => Panic "invalid memory address or nil pointer dereference"
  end.

(** A new [Dense] on the heap and the pointer to it. *)
Definition alloc (d : Dense) : M nat := fun w =>
  Ok (length (heap w), set_heap w (heap w ++ [d])).

Module os.

(** [os.Create]: the file exists and is empty afterwards, or an error. *)
Definition Create (path : string) : M (option error) := fun w =>
  if decide (path ∈ unwritable w) then Ok (Some ErrPermission, w)
  else Ok (None, set_files w (<[path := []]> (files w))).

(** Writing to the file created at [path]: the bytes are appended. *)
Definition append (path : string) (bs : list byte) : M unit := fun w =>
  Ok (tt, set_files w (<[path := default [] (files w !! path) ++ bs]> (files w))).

(** [os.Open]: the content to read from, or an error. *)
Definition Open (path : string) : M (list byte + error) := fun w =>
  match files w !! path with
  | Some content => Ok (inl content, w)
  | None => Ok (inr ErrNotExist, w)
  end.

End os.

Module rand.

(** [rand.Float64()] on the process-wide source. *)
Definition Float64 : M float64 := fun w =>
  Ok (rand_src w (rand_pos w),
      mkWorld (heap w) (files w) (unwritable w) (rand_src w) (S (rand_pos w))).

End rand.

(* ================================================================= *)
(** ** The network *)

Record Network : Type := mkNetwork {
  inputs : Z;
  hiddens : Z;
  outputs : Z;
  hiddenWeights : nat;
  outputWeights : nat;
  learningRate : float64
}.

Definition set_hiddenWeights (net : Network) (p : nat) : Network :=
  mkNetwork (inputs net) (hiddens net) (outputs net) p (outputWeights net)
    (learningRate net).

Definition set_outputWeights (net : Network) (p : nat) : Network :=
  mkNetwork (inputs net) (hiddens net) (outputs net) (hiddenWeights net) p
    (learningRate net).

(** *** Helper functions over gonum *)

Definition dot (m n : Matrix) : Res Matrix :=
  let r := fst (mat.Dims m) in
  let c := snd (mat.Dims n) in
  o ← mat.NewDense r c None;
  MDense <$> mat.Product o m n.

Definition apply (fn : Z -> Z -> float64 -> float64) (m : Matrix) : Res Matrix :=
  let '(r, c) := mat.Dims m in
  o ← mat.NewDense r c None;
  MDense <$> mat.Apply o fn m.

Definition scale (s : float64) (m : Matrix) : Res Matrix :=
  let '(r, c) := mat.Dims m in
  o ← mat.NewDense r c None;
  MDense <$> mat.Scale o s m.

Definition multiply (m n : Matrix) : Res Matrix :=
  let '(r, c) := mat.Dims m in
  o ← mat.NewDense r c None;
  MDense <$> mat.MulElem o m n.

Definition add (m n : Matrix) : Res Matrix :=
  let '(r, c) := mat.Dims m in
  o ← mat.NewDense r c None;
  MDense <$> mat.Add o m n.

Definition subtract (m n : Matrix) : Res Matrix :=
  let '(r, c) := mat.Dims m in
  o ← mat.NewDense r c None;
  MDense <$> mat.Sub o m n.

(** [addScalar]: a matrix of the shape of [m] with [i] in every cell is
    built and added to [m]. *)
Definition addScalar (i : float64) (m : Matrix) : Res Matrix :=
  let '(r, c) := mat.Dims m in
  a ← mat.make (int_mul r c);
  n ← mat.NewDense r c (Some ((fun _ => i) <$> a));
  add m (MDense n).

(** The type assertion to a [*mat.Dense] that follows [add]. *)
Definition as_Dense (m : Matrix) : Res Dense :=
  match m with
  | MDense d => Ok d
  | MTranspose _ => Panic "interface conversion: mat.Matrix is mat.Transpose, not *mat.Dense"
  end.

(** [distuv.Uniform{Min, Max}.Rand()] with no source of its own. *)
Definition Uniform_Rand (Min Max : float64) : M float64 :=
  rnd ← rand.Float64;
  mret (F64.add (F64.mul rnd (F64.sub Max Min)) Min).

(** The loop [for i := 0; i < size; i++ { data[i] = dist.Rand() }]. *)
Fixpoint draw (Min Max : float64) (n : nat) : M (list float64) :=
  match n with
  | O => mret []
  | S n' =>
      x ← Uniform_Rand Min Max;
      xs ← draw Min Max n';
      mret (x :: xs)
  end.

Definition randomArray (size : Z) (v : float64) : M (list float64) :=
  let Min := F64.div F64.neg_one (F64.sqrt v) in
  let Max := F64.div F64.one (F64.sqrt v) in
  _ ← lift (mat.make size);
  draw Min Max (Z.to_nat size).

Definition NewNetwork (inputs hiddens outputs : Z) (rate : float64) : M Network :=
  hdata ← randomArray (int_mul inputs hiddens) (F64.of_int inputs);
  hw ← lift (mat.NewDense hiddens inputs (Some hdata));
  hp ← alloc hw;
  odata ← randomArray (int_mul outputs hiddens) (F64.of_int hiddens);
  ow ← lift (mat.NewDense outputs hiddens (Some odata));
  op ← alloc ow;
  mret (mkNetwork inputs hiddens outputs hp op rate).

Section Net.

(** [math.Exp]. *)
Variable Exp : float64 -> float64.

Definition sigmoid (r c : Z) (z : float64) : float64 :=
  F64.div F64.one (F64.add F64.one (Exp (F64.mul F64.neg_one z))).

Definition sigmoidPrime (m : Matrix) : Res Matrix :=
  let rows := fst (mat.Dims m) in
  o ← mat.make rows;
  ones ← mat.NewDense rows 1 (Some ((fun _ => F64.one) <$> o));
  d ← subtract (MDense ones) m;
  multiply m d.

(** [func (net Network) Predict]: a value receiver, so [net] is a copy of
    the caller's struct; the two [*mat.Dense] in it still point to the
    caller's matrices. *)
Definition Predict (net : Network) (inputData : list float64) : M Matrix :=
  inputs ← lift (mat.NewDense (len inputData) 1 (Some inputData));
  hw ← deref (hiddenWeights net);
  hiddenInputs ← lift (dot (MDense hw) (MDense inputs));
  hiddenOutputs ← lift (apply sigmoid hiddenInputs);
  ow ← deref (outputWeights net);
  finalInputs ← lift (dot (MDense ow) hiddenOutputs);
  finalOutputs ← lift (apply sigmoid finalInputs);
  mret finalOutputs.

(** The body of [func (net Network) Train], returning the receiver as it
    stands when the body ends.  Each assignment to [net.outputWeights] or
    [net.hiddenWeights] stores a pointer to the new matrix in the
    receiver; the matrices the old pointers lead to are not written. *)
Definition Train_body (net : Network) (inputData targetData : list float64)
  : M Network :=
  input ← lift (mat.NewDense (len inputData) 1 (Some inputData));
  hw ← deref (hiddenWeights net);
  hiddenInputs ← lift (dot (MDense hw) (MDense input));
  hiddenOutputs ← lift (apply sigmoid hiddenInputs);
  ow ← deref (outputWeights net);
  finalInputs ← lift (dot (MDense ow) hiddenOutputs);
  finalOutputs ← lift (apply sigmoid finalInputs);
  target ← lift (mat.NewDense (len targetData) 1 (Some targetData));
  outputErrors ← lift (subtract (MDense target) finalOutputs);
  hiddenErrors ← lift (dot (mat.T (MDense ow)) outputErrors);
  new_ow ← lift (
    sp ← sigmoidPrime finalOutputs;
    g ← multiply outputErrors sp;
    p ← dot g (mat.T hiddenOutputs);
    s ← scale (learningRate net) p;
    r ← add (MDense ow) s;
    as_Dense r);
  po ← alloc new_ow;
  let net := set_outputWeights net po in
  hw ← deref (hiddenWeights net);
  new_hw ← lift (
    sp ← sigmoidPrime hiddenOutputs;
    g ← multiply hiddenErrors sp;
    p ← dot g (mat.T (MDense input));
    s ← scale (learningRate net) p;
    r ← add (MDense hw) s;
    as_Dense r);
  ph ← alloc new_hw;
  mret (set_hiddenWeights net ph).

(** The call [net.Train(input, target)] as the caller sees it: the
    receiver is a value, so the struct [Train_body] ends with is dropped
    when the call returns. *)
Definition Train (net : Network) (inputData targetData : list float64) : M unit :=
  _ ← Train_body net inputData targetData;
  mret tt.

End Net.

(** *** Persistence *)

Definition hidden_path : string := "data/hweights.model".
Definition output_path : string := "data/outputs.model".

(** [func (net *Network) save]. *)
Definition save (net : Network) : M (option error) :=
  err ← os.Create hidden_path;
  match err with
  | Some e => mret (Some e)
  | None =>
      hw ← deref (hiddenWeights net);
      bs ← lift (codec.MarshalBinaryTo hw);
      _ ← os.append hidden_path bs;
      err ← os.Create output_path;
      match err with
      | Some e => mret (Some e)
      | None =>
          ow ← deref (outputWeights net);
          bs ← lift (codec.MarshalBinaryTo ow);
          _ ← os.append output_path bs;
          mret None
      end
  end.

(** One [Reset] followed by [UnmarshalBinaryFrom] through the pointer [p]:
    the matrix [p] points to is changed in place. *)
Definition reset_and_read (p : nat) (r : list byte) : M (option error) :=
  d ← deref p;
  _ ← assign p (mat.Reset d);
  d ← deref p;
  '(d', err) ← lift (codec.UnmarshalBinaryFrom d r);
  _ ← assign p d';
  mret err.

(** [func (net *Network) load]. *)
Definition load (net : Network) : M (option error) :=
  hidden ← os.Open hidden_path;
  match hidden with
  | inr e => mret (Some e)
  | inl r =>
      err ← reset_and_read (hiddenWeights net) r;
      match err with
      | Some e => mret (Some e)
      | None =>
          output ← os.Open output_path;
          match output with
          | inr e => mret (Some e)
          | inl r =>
              err ← reset_and_read (outputWeights net) r;
              match err with
              | Some e => mret (Some e)
              | None => mret None
              end
          end
      end
  end.

(** *** The driver's conversion of a record

    A record is a line of the data set; each field is taken as the number
    [strconv] parses from it. *)

(** [(x / 0.99 * 255.0) + 0.01]. *)
Definition scale_pixel (x : float64) : float64 :=
  F64.add (F64.mul (F64.div x F64.c0_99) F64.c255) F64.c0_01.

(** The loop over [inputs]: cell [i] comes from field [i] of the record. *)
Definition record_inputs (net : Network) (record : list Z) : Res (list float64) :=
  cells ← mat.make (inputs net);
  foldl (fun acc i =>
           data ← acc;
           match record !! i with
           | Some x => Ok (<[i := scale_pixel (F64.of_int x)]> data)
           | None => Panic "index out of range"
           end)
        (Ok cells) (seq 0 (length cells)).

(** The target vector: [0.01] everywhere, then [0.99] at the index the
    first field names. *)
Definition record_targets (net : Network) (record : list Z) : Res (list float64) :=
  cells ← mat.make (outputs net);
  let targets := (fun _ => F64.c0_01) <$> cells in
  match record !! 0%nat with
  | None => Panic "index out of range"
  | Some x =>
      if (x <? 0) || (len targets <=? x) then Panic "index out of range"
      else Ok (<[Z.to_nat x := F64.c0_99]> targets)
  end.

Definition train_record (Exp : float64 -> float64) (net : Network) (record : list Z)
  : M unit :=
  ins ← lift (record_inputs net record);
  tgt ← lift (record_targets net record);
  Train Exp net ins tgt.

(** The loop of [mnistPredict] over the outputs: [best] and [highest]
    start at [0] and [0.0]; an output strictly above [highest] takes both
    over. *)
Definition best_step (outs : Matrix) (acc : Res (Z * float64)) (i : Z)
  : Res (Z * float64) :=
  st ← acc;
  v ← mat.At_checked outs i 0;
  if F64.ltb (snd st) v
  then (v' ← mat.At_checked outs i 0; Ok (i, v'))
  else Ok st.

Definition best_output (outs : Matrix) (n : Z) : Res Z :=
  fst <$> foldl (best_step outs) (Ok (0, F64.zero)) (seqZ 0 n).

(** What [mnistPredict] does with one record: whether the score goes up. *)
Definition predict_record (Exp : float64 -> float64) (net : Network) (record : list Z)
  : M bool :=
  ins ← lift (record_inputs net record);
  outs ← Predict Exp net ins;
  best ← lift (best_output outs (outputs net));
  match record !! 0%nat with
  | None => lift (Panic "index out of range")
  | Some target => mret (best =? target)
  end.

(** The loop of [mnistTrain] over the records: [records] are the
    records the reader returns before the end of the file (over the five
    readings, one after the other), each trained on in turn. *)
Fixpoint train_records (Exp : float64 -> float64) (net : Network)
    (records : list (list Z)) : M unit :=
  match records with
  | [] => mret tt
  | record :: rest =>
      _ ← train_record Exp net record;
      train_records Exp net rest
  end.

(* ================================================================= *)
(** ** What the specification speaks of *)

(** The result of a statement, the world it ends in left out. *)
Definition result_of {A : Type} (r : Res (A * World)) : Res A := fst <$> r.

(** A matrix as the constructor builds one: positive dimensions, rows
    stored one after the other, and a slice a Go program can hold. *)
Definition well_formed (d : Dense) : Prop :=
  0 < Rows d /\ 0 < Cols d /\ Stride d = Cols d
  /\ len (Data d) = Rows d * Cols d /\ Rows d * Cols d < 2 ^ 63.

(** Every cell is a binary64 number ([spec_float] also has terms that
    denote none). *)
Definition valid_cells (d : Dense) : Prop :=
  Forall (fun x => F64.valid x = true) (Data d).

(** What a reader of a matrix can see of it: not the spare capacity. *)
Definition window (d : Dense) : Z * Z * Z * list float64 :=
  (Rows d, Cols d, Stride d, Data d).


(** The network is as [NewNetwork] leaves one: two distinct matrices,
    well formed, of the configured shapes. *)
Definition network_ok (net : Network) (w : World) : Prop :=
  hiddenWeights net <> outputWeights net
  /\ exists hw ow,
    heap w !! hiddenWeights net = Some hw
    /\ heap w !! outputWeights net = Some ow
    /\ well_formed hw /\ well_formed ow
    /\ mat.Dims (MDense hw) = (hiddens net, inputs net)
    /\ mat.Dims (MDense ow) = (outputs net, hiddens net).

Module Spec.

(** Linear algebra as the specification writes it, on a matrix given by
    its rows. *)

(** The [r] rows of [c] cells that a row-major list holds. *)
Fixpoint rows (r c : nat) (data : list float64) : list (list float64) :=
  match r with
  | O => []
  | S r' => take c data :: rows r' c (drop c data)
  end.

Definition rows_of (d : Dense) : list (list float64) :=
  rows (Z.to_nat (Rows d)) (Z.to_nat (Cols d)) (Data d).

(** The sum of the products of the cells of two vectors, position by
    position. *)
Definition dotp (u v : list float64) : float64 :=
  foldl F64.add F64.zero (zip_with F64.mul u v).

(** [A . x] *)
Definition matvec (A : list (list float64)) (x : list float64) : list float64 :=
  (fun row => dotp row x) <$> A.

(** [At . x]: cell [j] sums, over the rows [i], [A_ij * x_i]. *)
Definition tmatvec (cols : nat) (A : list (list float64)) (x : list float64)
  : list float64 :=
  (fun j => dotp ((fun row => default F64.zero (row !! j)) <$> A) x) <$> seq 0 cols.

(** [u . vt], the matrix of the products [u_i * v_j], each the one-term
    sum a matrix product makes of it. *)
Definition outer (u v : list float64) : list (list float64) :=
  (fun a => (fun b => dotp [a] [b]) <$> v) <$> u.

Section WithExp.

Variable Exp : float64 -> float64.

(** [sigmoid(z) = 1 / (1 + e^-z)] *)
Definition logistic (z : float64) : float64 :=
  F64.div F64.one (F64.add F64.one (Exp (F64.mul F64.neg_one z))).

(** [a (.) (1 - a)] *)
Definition logistic_prime (a : float64) : float64 :=
  F64.mul a (F64.sub F64.one a).

Definition hidden_of (hw : Dense) (x : list float64) : list float64 :=
  logistic <$> matvec (rows_of hw) x.

(** [output = sigmoid(outputWeights . sigmoid(hiddenWeights . input))] *)
Definition forward (hw ow : Dense) (x : list float64) : list float64 :=
  logistic <$> matvec (rows_of ow) (hidden_of hw x).

(** [W + rate * (g . at)], cell by cell. *)
Definition updated (rate : float64) (W : list (list float64))
    (g a : list float64) : list (list float64) :=
  zip_with (zip_with (fun wij gij => F64.add wij (F64.mul rate gij))) W (outer g a).

(** The two weight matrices the specification's training step ends with:
    the errors are [target - output] and [outputWeightst . outputError],
    both from the weights before the step. *)
Definition trained (rate : float64) (hw ow : Dense) (x t : list float64)
  : list (list float64) * list (list float64) :=
  let h := hidden_of hw x in
  let o := forward hw ow x in
  let oe := zip_with F64.sub t o in
  let he := tmatvec (Z.to_nat (Cols ow)) (rows_of ow) oe in
  (updated rate (rows_of hw) (zip_with F64.mul he (logistic_prime <$> h)) x,
   updated rate (rows_of ow) (zip_with F64.mul oe (logistic_prime <$> o)) h).

End WithExp.

End Spec.

(** ** What is known of [math.Exp]

    The facts the Go documentation and source state and that the results
    below use: [Exp] of a zero is one, arguments above the overflow
    threshold give [+Inf], and a result is a binary64 number that is never
    negative. *)

(** [709.782712893384], the threshold above which [Exp] overflows. *)
Definition exp_overflow : float64 := S754_finite false 6243314768165359 (-43).

Record ExpContract (Exp : float64 -> float64) : Prop := mkExpContract {
  Exp_zero : forall s, Exp (S754_zero s) = F64.one;
  Exp_overflow : forall x, F64.ltb exp_overflow x = true -> Exp x = F64.pos_inf;
  Exp_valid : forall x, F64.valid (Exp x) = true;
  Exp_sign : forall x, F64.signbit (Exp x) = false
}.

(** An exponential with the contract and the crudest possible body: a
    power of two in the middle range.  It stands in for [math.Exp] where a
    statement is run on concrete numbers. *)
Definition exp_crude (x : float64) : float64 :=
  match x with
  | S754_nan => S754_nan
  | S754_infinity s => if s then F64.zero else F64.pos_inf
  | S754_zero _ => F64.one
  | S754_finite s m e =>
      if F64.ltb exp_overflow x then F64.pos_inf
      else if s then S754_finite false 4503599627370496 (-53)
      else S754_finite false 4503599627370496 (-51)
  end.

(** The matrix [NewDense(r, c, data)] returns. *)
Definition dense_of (r c : Z) (data : list float64) : Dense :=
  mkDense r c c data [] r c.

(** A vector as the program holds one: a matrix of one column. *)
Definition column (xs : list float64) : Dense := dense_of (len xs) 1 xs.

(** ** A small network to run statements on

    Two inputs, two hidden units, one output; the hidden weights are
    [[1 0] [0 -1]], the output weights [[1 1]], the rate is one. *)
Definition ex_hidden : Dense :=
  dense_of 2 2 [F64.one; F64.zero; F64.zero; F64.neg_one].
Definition ex_output : Dense := dense_of 1 2 [F64.one; F64.one].
Definition ex_world : World :=
  mkWorld [ex_hidden; ex_output] ∅ ∅ (fun _ => F64.zero) 0.
Definition ex_net : Network := mkNetwork 2 2 1 0 1 F64.one.
Definition ex_input : list float64 := [F64.one; F64.zero].

(** ** Stored matrices *)

(** The bytes [save] writes for a matrix. *)
Definition encoding (d : Dense) : list byte :=
  codec.marshal_header
    (codec.mkStorage codec.version codec.form_general codec.packing_full
       codec.uplo_all false (Rows d) (Cols d) 0 0)
  ++ codec.marshal_cells d.

(** The row and column counts a stored matrix announces. *)
Definition stored_dims (bs : list byte) : option (Z * Z) :=
  if len bs <? codec.headerSize then None
  else
    match codec.unmarshal_header (take (Z.to_nat codec.headerSize) bs) with
    | inl h => Some (codec.SRows h, codec.SCols h)
    | inr _ => None
    end.

(** ** Worlds to run [save] and [load] in *)

(** A matrix of one row and three columns: not a shape of [ex_net]. *)
Definition ex_wide : Dense := dense_of 1 3 [F64.one; F64.zero; F64.neg_one].

(** The hidden-weights file holds a 1 x 3 matrix where [ex_net] is
    configured for 2 x 2. *)
Definition mismatch_world : World :=
  mkWorld [ex_hidden; ex_output]
    (<[hidden_path := encoding ex_wide]> (<[output_path := encoding ex_output]> ∅))
    ∅ (fun _ => F64.zero) 0.


(** ** Initial weights *)

(** The two ends of the interval [randomArray] draws from, for the [v] it
    is given, and the cell [distuv.Uniform] makes of a number [u] of the
    random source. *)
Definition low (v : float64) : float64 := F64.div F64.neg_one (F64.sqrt v).
Definition high (v : float64) : float64 := F64.div F64.one (F64.sqrt v).
Definition uniform (Min Max u : float64) : float64 :=
  F64.add (F64.mul u (F64.sub Max Min)) Min.

(** The world after [n] more numbers were drawn. *)
Definition advance (w : World) (n : nat) : World :=
  mkWorld (heap w) (files w) (unwritable w) (rand_src w) (rand_pos w + n).

(** The [n] cells [randomArray] fills for a layer of [fanIn] inputs. *)
Definition init_cells (fanIn : Z) (w : World) (n : nat) : list float64 :=
  (fun k => uniform (low (F64.of_int fanIn)) (high (F64.of_int fanIn))
              (rand_src w (rand_pos w + k)%nat)) <$> seq 0 n.

(** The world after [ex_net.Train(ex_input, [1])] with [exp_crude]. *)
Definition ex_target : list float64 := [F64.one].
Definition ex_trained_world : World :=
  match Train exp_crude ex_net ex_input ex_target ex_world with
  | Ok (_, w') => w'
  | Panic _ => ex_world
  end.

(** ** Pixels *)

(** The scaling with the two constants of [scale_pixel] exchanged,
    [(x / 255.0 * 0.99) + 0.01]: not what the driver computes; it is here
    to be compared with it. *)
Definition scale_pixel_exchanged (x : float64) : float64 :=
  F64.add (F64.mul (F64.div x F64.c255) F64.c0_99) F64.c0_01.

(** [0.01 <= x <= 1.0] *)
Definition in_pixel_range (x : float64) : bool :=
  F64.leb F64.c0_01 x && F64.leb x F64.one.

(** The cell [i] of a vector; zero past its end. *)
Definition cell (xs : list float64) (i : Z) : float64 :=
  default F64.zero (xs !! Z.to_nat i).

(** ** Numbers, for the bounds on rounding *)

(** The last step of every rounding: the mantissa [m], already rounded to
    the exponent [e], is normalised once more (a mantissa that rounding
    carried to [2^53] loses a digit) and stored, as an infinity when the
    exponent is out of range. *)
Definition pack (s : bool) (m e : Z) : float64 :=
  let '(mrs, e') := shr_fexp F64.prec F64.emax m e loc_Exact in
  match shr_m mrs with
  | Z0 => S754_zero s
  | Zpos p => if e' <=? F64.emax - F64.prec then S754_finite s p e' else S754_infinity s
  | Zneg _ => S754_nan
  end.

(** A finite number counted in units of [2^-1074], the least positive
    binary64; zeros count nothing. *)
Definition ulps (x : float64) : Z :=
  match x with
  | S754_finite s m e => cond_Zopp s (Z.pos m * 2 ^ (e + 1074))
  | _ => 0
  end.

(** The count no finite binary64 reaches. *)
Definition top : Z := 2 ^ 2098.

(** A binary64 number that is zero or finite. *)
Definition finite_valid (x : float64) : Prop :=
  F64.valid x = true /\ F64.is_finite x = true.

(** A shift record from which nothing has been cut off so far. *)
Definition exact_record (mrs : shr_record) : Prop :=
  shr_r mrs = false /\ shr_s mrs = false.

(** A mantissa as rounding leaves it, possibly carried to [2^53], with its
    exponent: above the least exponent only with 53 digits or more. *)
Definition storable (m e : Z) : Prop :=
  0 <= m <= 2 ^ 53 /\ -1074 <= e /\ (m < 2 ^ 52 -> e = -1074).

(** ** The range of an activation *)

(** [0 <= x <= 1] *)
Definition in_unit_interval (x : float64) : Prop :=
  F64.leb F64.zero x = true /\ F64.leb x F64.one = true.

(** [0 < x < 1] *)
Definition strictly_inside (x : float64) : Prop :=
  F64.ltb F64.zero x = true /\ F64.ltb x F64.one = true.

(** A network of one cell a layer whose output weight is [-4000]: the
    hidden activation of the input [0] is a half, the output layer's sum
    [-2000]. *)
Definition sat_hidden : Dense := dense_of 1 1 [F64.zero].
Definition minus_4000 : float64 := Eval vm_compute in F64.of_int (-4000).
Definition sat_output : Dense := dense_of 1 1 [minus_4000].
Definition sat_world : World :=
  mkWorld [sat_hidden; sat_output] ∅ ∅ (fun _ => F64.zero) 0.
Definition sat_net : Network := mkNetwork 1 1 1 0 1 F64.one.
Definition sat_input : list float64 := [F64.zero].

(** ** The initial weights *)



(** ** Worlds for the file operations *)

(** The output-weights file cannot be created. *)
Definition locked_world : World :=
  mkWorld [ex_hidden; ex_output] ∅ {[output_path]} (fun _ => F64.zero) 0.

(** The hidden-weights file holds three bytes. *)
Definition short_world : World :=
  mkWorld [ex_hidden; ex_output]
    (<[hidden_path := [x01; x00; x00]]> ∅) ∅ (fun _ => F64.zero) 0.

(** ** The choice of the best output *)

(** One round of the loop over the outputs, on the cells of the output
    column. *)
Definition pick (out : list float64) (st : Z * float64) (i : Z) : Z * float64 :=
  if F64.ltb (snd st) (cell out i) then (i, cell out i) else st.

(** A number a comparison can place: NaN, which compares false with
    everything, or a zero or finite binary64. *)
Definition placed (x : float64) : Prop := F64.is_nan x = true \/ finite_valid x.

(** What the loop holds after the cells below [k]: nothing was above 0
    and it still has its initial values, or [best] is the first index
    whose cell nothing below [k] exceeds. *)
Definition best_so_far (out : list float64) (k : Z) (st : Z * float64) : Prop :=
  (fst st = 0 /\ snd st = F64.zero
   /\ forall j, 0 <= j < k -> F64.ltb F64.zero (cell out j) = false)
  \/ (0 <= fst st < k /\ snd st = cell out (fst st)
      /\ F64.ltb F64.zero (snd st) = true
      /\ (forall j, 0 <= j < k -> F64.ltb (snd st) (cell out j) = false)
      /\ (forall j, 0 <= j < fst st ->
            F64.ltb (cell out j) (snd st) = true \/ F64.is_nan (cell out j) = true)).

(** ** Records *)

(** A record the training loop gets through: a label first, at least
    [inputs] fields in all, and the label an index of the targets. *)
Definition usable_record (net : Network) (record : list Z) : Prop :=
  exists label fields,
    record = label :: fields
    /\ inputs net <= len record
    /\ 0 <= label < outputs net.
(* ================================================================= *)
(** * Properties *)

(** ** Reasoning about statements *)

Lemma bind_Ok {A B : Type} (m : M A) (f : A -> M B) (w w' : World) (b : B) :
  (m ≫= f) w = Ok (b, w') ->
  exists a w1, m w = Ok (a, w1) /\ f a w1 = Ok (b, w').
Proof.
  unfold mbind, M_bind. destruct (m w) as [[a w1]|msg]; [|discriminate].
  intros H. exists a, w1. split; [reflexivity|exact H].
Qed.

Lemma bind_eq {A B : Type} (m : M A) (f : A -> M B) (w w1 : World) (a : A) :
  m w = Ok (a, w1) -> (m ≫= f) w = f a w1.
Proof. unfold mbind, M_bind. intros ->. reflexivity. Qed.

Lemma lift_Ok {A : Type} (r : Res A) (w w' : World) (a : A) :
  lift r w = Ok (a, w') -> r = Ok a /\ w' = w.
Proof. destruct r; simpl; intros H; inversion H; auto. Qed.

Lemma lift_eq {A : Type} (r : Res A) (a : A) (w : World) :
  r = Ok a -> lift r w = Ok (a, w).
Proof. intros ->. reflexivity. Qed.

Lemma ret_Ok {A : Type} (a b : A) (w w' : World) :
  (mret a : M A) w = Ok (b, w') -> b = a /\ w' = w.
Proof. unfold mret, M_ret. intros H; inversion H; auto. Qed.

Lemma deref_Ok (p : nat) (w w' : World) (d : Dense) :
  deref p w = Ok (d, w') -> heap w !! p = Some d /\ w' = w.
Proof.
  unfold deref. destruct (heap w !! p); intros H; inversion H; auto.
Qed.

Lemma deref_eq (p : nat) (w : World) (d : Dense) :
  heap w !! p = Some d -> deref p w = Ok (d, w).
Proof. unfold deref. intros ->. reflexivity. Qed.

Lemma alloc_Ok (d : Dense) (w w' : World) (p : nat) :
  alloc d w = Ok (p, w') ->
  p = length (heap w) /\ w' = set_heap w (heap w ++ [d]).
Proof. unfold alloc. intros H; inversion H; auto. Qed.

Lemma Res_bind_Ok {A B : Type} (r : Res A) (f : A -> Res B) (b : B) :
  r ≫= f = Ok b -> exists a, r = Ok a /\ f a = Ok b.
Proof. destruct r as [a|]; simpl; [eauto|discriminate]. Qed.

Lemma Res_fmap_Ok {A B : Type} (r : Res A) (f : A -> B) (b : B) :
  f <$> r = Ok b -> exists a, r = Ok a /\ b = f a.
Proof.
  destruct r as [a|]; simpl; [|discriminate].
  intros H; inversion H; eauto.
Qed.

(** Splits a successful run into the runs of its statements. *)
Ltac run_inv H :=
  repeat match type of H with
  | (_ ≫= _) _ = Ok _ =>
      let a := fresh "a" in let w := fresh "w" in
      let H1 := fresh "Hrun" in
      apply bind_Ok in H; destruct H as (a & w & H1 & H);
      first [ apply lift_Ok in H1; destruct H1 as [H1 ->]
            | apply deref_Ok in H1; destruct H1 as [H1 ->]
            | apply alloc_Ok in H1; destruct H1 as [-> ->]
            | idtac ]
  | mret _ _ = Ok _ => apply ret_Ok in H; destruct H as [-> ->]
  end.

(** ** The training step and the caller's network *)

Section TrainFacts.

Variable Exp : float64 -> float64.

(** A run of the body of [Train] only adds two matrices to the heap and
    leaves the receiver pointing at them. *)
Lemma Train_body_heap (net net' : Network) (input target : list float64)
    (w w' : World) :
  Train_body Exp net input target w = Ok (net', w') ->
  exists new_ow new_hw,
    w' = set_heap w (heap w ++ [new_ow; new_hw])
    /\ outputWeights net' = length (heap w)
    /\ hiddenWeights net' = S (length (heap w)).
Proof.
  intros H. unfold Train_body in H. run_inv H.
  do 2 eexists. split; [|split].
  - unfold set_heap; simpl. rewrite <- app_assoc. reflexivity.
  - reflexivity.
  - simpl. rewrite length_app. simpl. lia.
Qed.

End TrainFacts.

(** A run of the body went through both pointers of the receiver. *)
Lemma Train_body_reads (Exp : float64 -> float64) (net net' : Network)
    (input target : list float64) (w w' : World) :
  Train_body Exp net input target w = Ok (net', w') ->
  is_Some (heap w !! hiddenWeights net) /\ is_Some (heap w !! outputWeights net).
Proof.
  intros H. unfold Train_body in H. run_inv H. split; eauto.
Qed.

(** What a caller holding [net] sees after [net.Train(input, target)]
    returns: the matrices its two pointers lead to are the ones they led
    to before the call, cell for cell. *)
Lemma Train_frame (Exp : float64 -> float64) (net : Network)
    (input target : list float64) (w w' : World) (u : unit) :
  Train Exp net input target w = Ok (u, w') ->
  heap w' !! hiddenWeights net = heap w !! hiddenWeights net
  /\ heap w' !! outputWeights net = heap w !! outputWeights net
  /\ files w' = files w.
Proof.
  intros H. unfold Train in H.
  apply bind_Ok in H. destruct H as (net' & w1 & Hbody & Hret).
  apply ret_Ok in Hret. destruct Hret as [_ ->].
  destruct (Train_body_reads _ _ _ _ _ _ _ Hbody) as [[hw Hhw] [ow How]].
  apply Train_body_heap in Hbody. destruct Hbody as (no & nh & -> & _ & _).
  simpl. split; [|split]; try reflexivity.
  - apply lookup_app_l. eapply lookup_lt_Some; eassumption.
  - apply lookup_app_l. eapply lookup_lt_Some; eassumption.
Qed.

(** ** Integers in range *)

Lemma wrap64_small (z : Z) : - 2 ^ 63 <= z < 2 ^ 63 -> wrap64 z = z.
Proof.
  intros H. unfold wrap64.
  rewrite Z.mod_small; lia.
Qed.

Lemma int_mul_small (a b : Z) : - 2 ^ 63 <= a * b < 2 ^ 63 -> int_mul a b = a * b.
Proof. apply wrap64_small. Qed.

Lemma len_nonneg {A : Type} (l : list A) : 0 <= len l.
Proof. unfold len. lia. Qed.

Lemma len_replicate {A : Type} (n : Z) (x : A) :
  0 <= n -> len (replicate (Z.to_nat n) x) = n.
Proof. intros H. unfold len. rewrite length_replicate. lia. Qed.

Lemma len_fmap {A B : Type} (f : A -> B) (l : list A) : len (f <$> l) = len l.
Proof. unfold len. rewrite length_fmap. reflexivity. Qed.

(** ** Row-major tables *)

Lemma list_bind_cons {A B : Type} (f : A -> list B) (x : A) (l : list A) :
  (x :: l) ≫= f = f x ++ (l ≫= f).
Proof. reflexivity. Qed.

Lemma seqZ_S (m : Z) (n : nat) :
  seqZ m (Z.of_nat (S n)) = m :: seqZ (Z.succ m) (Z.of_nat n).
Proof.
  rewrite seqZ_cons by lia. f_equal. f_equal. lia.
Qed.

Lemma length_table (n : nat) (m c : Z) (f : Z -> Z -> float64) :
  0 <= c ->
  length (seqZ m (Z.of_nat n) ≫= fun i => f i <$> seqZ 0 c) = (n * Z.to_nat c)%nat.
Proof.
  intros Hc. revert m. induction n as [|n IH]; intros m.
  - reflexivity.
  - rewrite seqZ_S, list_bind_cons, length_app, length_fmap, length_seqZ.
    rewrite IH. lia.
Qed.

Lemma length_tabulate (r c : Z) (f : Z -> Z -> float64) :
  0 <= r -> 0 <= c ->
  len (mat.tabulate r c f) = r * c.
Proof.
  intros Hr Hc. unfold mat.tabulate, len.
  rewrite <- (Z2Nat.id r) at 1 by lia.
  rewrite length_table by lia. nia.
Qed.

(** Cutting a table into rows gives the rows it was made of. *)
Lemma rows_bind (n : nat) (c : Z) (m : Z) (f : Z -> Z -> float64) :
  0 <= c ->
  Spec.rows n (Z.to_nat c) (seqZ m (Z.of_nat n) ≫= fun i => f i <$> seqZ 0 c)
  = (fun i => f i <$> seqZ 0 c) <$> seqZ m (Z.of_nat n).
Proof.
  intros Hc. revert m. induction n as [|n IH]; intros m.
  - reflexivity.
  - rewrite seqZ_S, list_bind_cons, fmap_cons.
    cbn [Spec.rows]. f_equal.
    + rewrite take_app_length'; [reflexivity|].
      rewrite length_fmap, length_seqZ. reflexivity.
    + rewrite drop_app_length'; [apply IH|].
      rewrite length_fmap, length_seqZ. reflexivity.
Qed.

Lemma rows_tabulate (r c : Z) (f : Z -> Z -> float64) :
  0 <= r -> 0 <= c ->
  Spec.rows (Z.to_nat r) (Z.to_nat c) (mat.tabulate r c f)
  = (fun i => f i <$> seqZ 0 c) <$> seqZ 0 r.
Proof.
  intros Hr Hc. unfold mat.tabulate.
  rewrite <- (Z2Nat.id r) at 2 3 by lia. apply rows_bind. exact Hc.
Qed.

Lemma tabulate_column (r : Z) (f : Z -> Z -> float64) :
  mat.tabulate r 1 f = (fun i => f i 0) <$> seqZ 0 r.
Proof.
  unfold mat.tabulate. induction (seqZ 0 r) as [|i l IH]; [reflexivity|].
  rewrite list_bind_cons, IH. reflexivity.
Qed.

(** The cells [i*c + j], for [j] below [c], of a list are its [i]-th run of
    [c] cells. *)
Lemma row_cells (data : list float64) (c : Z) (i : Z) :
  0 <= i -> 0 <= c -> (i + 1) * c <= len data ->
  (fun j => default F64.zero (data !! Z.to_nat (i * c + j))) <$> seqZ 0 c
  = take (Z.to_nat c) (drop (Z.to_nat (i * c)) data).
Proof.
  intros Hi Hc Hlen. unfold len in Hlen.
  apply list_eq. intros k.
  rewrite list_lookup_fmap.
  destruct (decide (k < Z.to_nat c)%nat) as [Hk|Hk].
  - rewrite lookup_seqZ_lt by lia. simpl.
    rewrite lookup_take_lt by lia. rewrite lookup_drop.
    replace (Z.to_nat (i * c + (0 + Z.of_nat k))) with (Z.to_nat (i * c) + k)%nat by lia.
    destruct (data !! (Z.to_nat (i * c) + k)%nat) eqn:E; [reflexivity|].
    apply lookup_ge_None in E. nia.
  - rewrite lookup_seqZ_ge by lia. simpl.
    symmetry. apply lookup_ge_None. rewrite length_take. lia.
Qed.

Lemma table_cells (n : nat) (m c : Z) (data : list float64) :
  0 <= m -> 0 <= c -> (m + Z.of_nat n) * c <= len data ->
  (seqZ m (Z.of_nat n) ≫= fun i =>
     (fun j => default F64.zero (data !! Z.to_nat (i * c + j))) <$> seqZ 0 c)
  = take (Z.to_nat (Z.of_nat n * c)) (drop (Z.to_nat (m * c)) data).
Proof.
  intros Hm Hc. revert m Hm. induction n as [|n IH]; intros m Hm Hlen.
  - reflexivity.
  - rewrite seqZ_S, list_bind_cons.
    rewrite row_cells by nia. rewrite IH by nia.
    replace (Z.to_nat (Z.succ m * c)) with (Z.to_nat (m * c) + Z.to_nat c)%nat by nia.
    rewrite <- drop_drop.
    replace (Z.to_nat (Z.of_nat (S n) * c)) with (Z.to_nat c + Z.to_nat (Z.of_nat n * c))%nat by nia.
    apply take_take_drop.
Qed.

(** Reading every cell of a well-formed matrix, row by row, reads its
    data slice. *)
Lemma tabulate_at (d : Dense) :
  well_formed d -> mat.tabulate (Rows d) (Cols d) (mat.at_ d) = Data d.
Proof.
  intros (Hr & Hc & Hs & Hlen & _). unfold mat.tabulate, mat.at_.
  rewrite Hs. rewrite <- (Z2Nat.id (Rows d)) at 1 by lia.
  rewrite table_cells by lia.
  rewrite drop_0. apply take_ge. unfold len in Hlen. nia.
Qed.

Lemma rows_of_at (d : Dense) :
  well_formed d ->
  Spec.rows_of d = (fun i => mat.at_ d i <$> seqZ 0 (Cols d)) <$> seqZ 0 (Rows d).
Proof.
  intros Hwf. unfold Spec.rows_of.
  rewrite <- (tabulate_at d Hwf) at 1.
  destruct Hwf as (Hr & Hc & _). apply rows_tabulate; lia.
Qed.

(** ** The helper functions on matrices in range *)

Lemma NewDense_Some (r c : Z) (data : list float64) :
  0 < r -> 0 < c -> r * c = len data -> r * c < 2 ^ 63 ->
  mat.NewDense r c (Some data) = Ok (dense_of r c data).
Proof.
  intros Hr Hc Hlen Hmax. unfold mat.NewDense.
  destruct (r <=? 0) eqn:E1; [lia|]. destruct (c <=? 0) eqn:E2; [lia|]. simpl.
  rewrite int_mul_small by nia.
  destruct (r * c =? len data) eqn:E3; [reflexivity|lia].
Qed.

Lemma NewDense_None (r c : Z) :
  0 < r -> 0 < c -> r * c < 2 ^ 63 ->
  mat.NewDense r c None
  = Ok (dense_of r c (replicate (Z.to_nat (r * c)) F64.zero)).
Proof.
  intros Hr Hc Hmax. unfold mat.NewDense, mat.make.
  destruct (r <=? 0) eqn:E1; [lia|]. destruct (c <=? 0) eqn:E2; [lia|]. simpl.
  rewrite int_mul_small by nia.
  destruct (r * c <? 0) eqn:E3; [nia|]. reflexivity.
Qed.

Lemma NewDense_column (xs : list float64) :
  0 < len xs < 2 ^ 63 ->
  mat.NewDense (len xs) 1 (Some xs) = Ok (column xs).
Proof. intros H. apply NewDense_Some; lia. Qed.

Lemma in_bounds_dense_of (r c : Z) (data : list float64) :
  0 < r -> 0 < c -> len data = r * c ->
  mat.in_bounds (dense_of r c data) = true.
Proof.
  intros Hr Hc Hlen. unfold mat.in_bounds. simpl. rewrite Hlen.
  repeat (apply andb_true_intro; split); lia.
Qed.

Lemma in_bounds_well_formed (d : Dense) :
  well_formed d -> mat.in_bounds d = true.
Proof.
  intros (Hr & Hc & Hs & Hlen & _). unfold mat.in_bounds. rewrite Hs, Hlen.
  repeat (apply andb_true_intro; split); lia.
Qed.

Lemma well_formed_dense_of (r c : Z) (data : list float64) :
  0 < r -> 0 < c -> len data = r * c -> r * c < 2 ^ 63 ->
  well_formed (dense_of r c data).
Proof. intros. repeat split; simpl; lia. Qed.

(** A kernel run on the receiver the helpers make for it. *)
Lemma kernel_fresh (r c : Z) (f : Z -> Z -> float64) :
  0 < r -> 0 < c -> r * c < 2 ^ 63 ->
  mat.reuseAsNonZeroed (dense_of r c (replicate (Z.to_nat (r * c)) F64.zero)) r c
    ≫= (fun o' => mat.fill o' f)
  = Ok (dense_of r c (mat.tabulate r c f)).
Proof.
  intros Hr Hc Hmax. unfold mat.reuseAsNonZeroed, mat.IsEmpty. simpl.
  destruct (r <? r) eqn:E1; [lia|]. destruct (c <? c) eqn:E2; [lia|].
  destruct (r =? 0) eqn:E3; [lia|]. destruct (c =? 0) eqn:E4; [lia|].
  rewrite !Z.eqb_refl. simpl.
  unfold mat.fill. rewrite in_bounds_dense_of by (try rewrite len_replicate; nia).
  simpl. rewrite Z.eqb_refl. reflexivity.
Qed.

Lemma apply_ok (fn : Z -> Z -> float64 -> float64) (m : Matrix) (r c : Z) :
  mat.Dims m = (r, c) -> 0 < r -> 0 < c -> r * c < 2 ^ 63 ->
  mat.in_bounds (mat.raw m) = true ->
  apply fn m
  = Ok (MDense (dense_of r c (mat.tabulate r c (fun i j => fn i j (mat.At m i j))))).
Proof.
  intros Hd Hr Hc Hmax Hb. unfold apply. rewrite Hd.
  rewrite NewDense_None by assumption. simpl.
  unfold mat.Apply. rewrite Hd. simpl. rewrite Hb. simpl.
  pose proof (kernel_fresh r c (fun i j => fn i j (mat.At m i j)) Hr Hc Hmax) as K.
  destruct (mat.reuseAsNonZeroed _ r c) as [o'|]; simpl in K |- *; [|discriminate].
  rewrite K. reflexivity.
Qed.

Lemma scale_ok (s : float64) (m : Matrix) (r c : Z) :
  mat.Dims m = (r, c) -> 0 < r -> 0 < c -> r * c < 2 ^ 63 ->
  mat.in_bounds (mat.raw m) = true ->
  scale s m
  = Ok (MDense (dense_of r c (mat.tabulate r c (fun i j => F64.mul s (mat.At m i j))))).
Proof.
  intros Hd Hr Hc Hmax Hb. unfold scale. rewrite Hd.
  rewrite NewDense_None by assumption. simpl.
  unfold mat.Scale. rewrite Hd. simpl. rewrite Hb. simpl.
  pose proof (kernel_fresh r c (fun i j => F64.mul s (mat.At m i j)) Hr Hc Hmax) as K.
  destruct (mat.reuseAsNonZeroed _ r c) as [o'|]; simpl in K |- *; [|discriminate].
  rewrite K. reflexivity.
Qed.

Lemma elementwise_ok (op : float64 -> float64 -> float64) (a b : Matrix) (r c : Z) :
  mat.Dims a = (r, c) -> mat.Dims b = (r, c) ->
  0 < r -> 0 < c -> r * c < 2 ^ 63 ->
  mat.in_bounds (mat.raw a) = true -> mat.in_bounds (mat.raw b) = true ->
  mat.elementwise op (dense_of r c (replicate (Z.to_nat (r * c)) F64.zero)) a b
  = Ok (dense_of r c (mat.tabulate r c (fun i j => op (mat.At a i j) (mat.At b i j)))).
Proof.
  intros Ha Hb Hr Hc Hmax Hba Hbb. unfold mat.elementwise, mat.same_dims.
  rewrite Ha, Hb. simpl. rewrite !Z.eqb_refl. simpl.
  pose proof (kernel_fresh r c (fun i j => op (mat.At a i j) (mat.At b i j)) Hr Hc Hmax) as K.
  destruct (mat.reuseAsNonZeroed _ r c) as [o'|]; simpl in K |- *; [|discriminate].
  rewrite Hba, Hbb. simpl. exact K.
Qed.

Lemma add_ok (a b : Matrix) (r c : Z) :
  mat.Dims a = (r, c) -> mat.Dims b = (r, c) ->
  0 < r -> 0 < c -> r * c < 2 ^ 63 ->
  mat.in_bounds (mat.raw a) = true -> mat.in_bounds (mat.raw b) = true ->
  add a b
  = Ok (MDense (dense_of r c
          (mat.tabulate r c (fun i j => F64.add (mat.At a i j) (mat.At b i j))))).
Proof.
  intros Ha Hb Hr Hc Hmax Hba Hbb. unfold add. rewrite Ha.
  rewrite NewDense_None by assumption. simpl.
  unfold mat.Add. rewrite (elementwise_ok F64.add a b r c) by assumption.
  reflexivity.
Qed.

Lemma subtract_ok (a b : Matrix) (r c : Z) :
  mat.Dims a = (r, c) -> mat.Dims b = (r, c) ->
  0 < r -> 0 < c -> r * c < 2 ^ 63 ->
  mat.in_bounds (mat.raw a) = true -> mat.in_bounds (mat.raw b) = true ->
  subtract a b
  = Ok (MDense (dense_of r c
          (mat.tabulate r c (fun i j => F64.sub (mat.At a i j) (mat.At b i j))))).
Proof.
  intros Ha Hb Hr Hc Hmax Hba Hbb. unfold subtract. rewrite Ha.
  rewrite NewDense_None by assumption. simpl.
  unfold mat.Sub. rewrite (elementwise_ok F64.sub a b r c) by assumption.
  reflexivity.
Qed.

Lemma multiply_ok (a b : Matrix) (r c : Z) :
  mat.Dims a = (r, c) -> mat.Dims b = (r, c) ->
  0 < r -> 0 < c -> r * c < 2 ^ 63 ->
  mat.in_bounds (mat.raw a) = true -> mat.in_bounds (mat.raw b) = true ->
  multiply a b
  = Ok (MDense (dense_of r c
          (mat.tabulate r c (fun i j => F64.mul (mat.At a i j) (mat.At b i j))))).
Proof.
  intros Ha Hb Hr Hc Hmax Hba Hbb. unfold multiply. rewrite Ha.
  rewrite NewDense_None by assumption. simpl.
  unfold mat.MulElem. rewrite (elementwise_ok F64.mul a b r c) by assumption.
  reflexivity.
Qed.

Lemma dot_ok (a b : Matrix) (r k c : Z) :
  mat.Dims a = (r, k) -> mat.Dims b = (k, c) ->
  0 < r -> 0 < c -> r * c < 2 ^ 63 ->
  mat.in_bounds (mat.raw a) = true -> mat.in_bounds (mat.raw b) = true ->
  dot a b
  = Ok (MDense (dense_of r c
          (mat.tabulate r c (fun i j =>
             mat.inner k (fun l => F64.mul (mat.At a i l) (mat.At b l j)))))).
Proof.
  intros Ha Hb Hr Hc Hmax Hba Hbb. unfold dot. rewrite Ha, Hb. simpl.
  rewrite NewDense_None by assumption. simpl.
  unfold mat.Product. rewrite Ha, Hb. rewrite Z.eqb_refl. simpl.
  pose proof (kernel_fresh r c (fun i j =>
             mat.inner k (fun l => F64.mul (mat.At a i l) (mat.At b l j))) Hr Hc Hmax) as K.
  destruct (mat.reuseAsNonZeroed _ r c) as [o'|]; simpl in K |- *; [|discriminate].
  rewrite Hba, Hbb. simpl. rewrite K. reflexivity.
Qed.

(** ** Vectors *)

Lemma column_cells (xs : list float64) :
  (fun k => mat.at_ (column xs) k 0) <$> seqZ 0 (len xs) = xs.
Proof.
  unfold mat.at_, column, dense_of. simpl.
  apply list_eq. intros k. rewrite list_lookup_fmap.
  destruct (decide (k < length xs)%nat) as [Hk|Hk].
  - rewrite lookup_seqZ_lt by (unfold len; lia). simpl.
    replace (Z.to_nat ((0 + Z.of_nat k) * 1 + 0)) with k by lia.
    destruct (xs !! k) eqn:E; [reflexivity|].
    apply lookup_ge_None in E. lia.
  - rewrite lookup_seqZ_ge by (unfold len; lia). simpl.
    symmetry. apply lookup_ge_None. lia.
Qed.

Lemma column_tabulate (r : Z) (f : Z -> Z -> float64) :
  0 <= r ->
  dense_of r 1 (mat.tabulate r 1 f) = column ((fun i => f i 0) <$> seqZ 0 r).
Proof.
  intros Hr. unfold column. rewrite tabulate_column.
  rewrite len_fmap. unfold len. rewrite length_seqZ.
  rewrite Z2Nat.id by lia. reflexivity.
Qed.

Lemma in_bounds_column (xs : list float64) :
  0 < len xs -> mat.in_bounds (column xs) = true.
Proof. intros H. apply in_bounds_dense_of; lia. Qed.

Lemma inner_sum (n : Z) (term : Z -> float64) :
  mat.inner n term = foldl F64.add F64.zero (term <$> seqZ 0 n).
Proof. unfold mat.inner. rewrite foldl_fmap. reflexivity. Qed.

Lemma zip_with_fmap_same {A B C D : Type} (f : B -> C -> D) (g : A -> B)
    (h : A -> C) (l : list A) :
  zip_with f (g <$> l) (h <$> l) = (fun x => f (g x) (h x)) <$> l.
Proof.
  induction l as [|x l IH]; [reflexivity|].
  rewrite !fmap_cons. cbn [zip_with]. f_equal. exact IH.
Qed.

(** The matrix kernel on a well-formed matrix and a vector computes the
    specification's product. *)
Lemma dot_column (A : Dense) (xs : list float64) :
  well_formed A -> len xs = Cols A ->
  dot (MDense A) (MDense (column xs))
  = Ok (MDense (column (Spec.matvec (Spec.rows_of A) xs))).
Proof.
  intros Hwf Hlen. pose proof Hwf as (Hr & Hc & Hs & HD & Hmax).
  rewrite (dot_ok _ _ (Rows A) (Cols A) 1).
  - rewrite column_tabulate by lia. do 3 f_equal.
    unfold Spec.matvec. rewrite rows_of_at by assumption.
    rewrite <- list_fmap_compose. apply list_fmap_ext. intros _ i _. simpl.
    rewrite inner_sum. unfold Spec.dotp. f_equal.
    etransitivity;
      [|apply (f_equal (zip_with F64.mul _)), (column_cells xs)].
    rewrite Hlen, zip_with_fmap_same. reflexivity.
  - reflexivity.
  - simpl. rewrite Hlen. reflexivity.
  - lia.
  - lia.
  - nia.
  - apply in_bounds_well_formed. assumption.
  - apply in_bounds_column. lia.
Qed.

Section Forward.

Variable Exp : float64 -> float64.

Lemma sigmoid_logistic (r c : Z) (z : float64) :
  sigmoid Exp r c z = Spec.logistic Exp z.
Proof. reflexivity. Qed.

Lemma apply_column (xs : list float64) :
  0 < len xs < 2 ^ 63 ->
  apply (sigmoid Exp) (MDense (column xs))
  = Ok (MDense (column (Spec.logistic Exp <$> xs))).
Proof.
  intros H. rewrite (apply_ok _ _ (len xs) 1) by
    (try reflexivity; try lia; apply in_bounds_column; lia).
  rewrite column_tabulate by lia. do 3 f_equal.
  etransitivity; [|apply (f_equal (fmap _)), (column_cells xs)].
  rewrite <- list_fmap_compose. reflexivity.
Qed.

Lemma len_matvec (A : Dense) (xs : list float64) :
  0 <= Rows A -> len (Spec.matvec (Spec.rows_of A) xs) = Rows A.
Proof.
  intros H. unfold Spec.matvec, Spec.rows_of. rewrite len_fmap. unfold len.
  assert (forall r c l, length (Spec.rows r c l) = r) as E.
  { induction r as [|r IH]; intros c l; simpl; [reflexivity|]. rewrite IH. reflexivity. }
  rewrite E. lia.
Qed.

(** The forward pass, from the weights as the network finds them. *)
Lemma Predict_forward (net : Network) (input : list float64) (w : World)
    (hw ow : Dense) :
  heap w !! hiddenWeights net = Some hw ->
  heap w !! outputWeights net = Some ow ->
  well_formed hw -> well_formed ow ->
  Cols ow = Rows hw -> len input = Cols hw ->
  Predict Exp net input w
  = Ok (MDense (column (Spec.forward Exp hw ow input)), w).
Proof.
  intros Hhw How Wh Wo Hmid Hin.
  pose proof Wh as (Hr & Hc & _ & _ & Hmax).
  pose proof Wo as (Hr' & Hc' & _ & _ & Hmax').
  assert (Cols hw <= Rows hw * Cols hw /\ Rows hw <= Rows hw * Cols hw) as [B1 B2] by nia.
  assert (Rows ow <= Rows ow * Cols ow) as B3 by nia.
  unfold Predict.
  assert (mat.NewDense (len input) 1 (Some input) = Ok (column input)) as E0.
  { apply NewDense_column. lia. }
  rewrite (bind_eq _ _ w w _ (lift_eq _ _ w E0)).
  rewrite (bind_eq _ _ w w hw) by (apply deref_eq; assumption).
  rewrite (bind_eq _ _ w w _ (lift_eq _ _ w (dot_column hw input Wh Hin))).
  assert (len (Spec.matvec (Spec.rows_of hw) input) = Rows hw) as L1
    by (apply len_matvec; lia).
  rewrite (bind_eq _ _ w w _
             (lift_eq _ _ w (apply_column (Spec.matvec (Spec.rows_of hw) input)
                               ltac:(lia)))).
  rewrite (bind_eq _ _ w w ow) by (apply deref_eq; assumption).
  assert (len (Spec.logistic Exp <$> Spec.matvec (Spec.rows_of hw) input) = Cols ow) as L2
    by (rewrite len_fmap; lia).
  rewrite (bind_eq _ _ w w _ (lift_eq _ _ w (dot_column ow _ Wo L2))).
  assert (len (Spec.matvec (Spec.rows_of ow)
                 (Spec.logistic Exp <$> Spec.matvec (Spec.rows_of hw) input)) = Rows ow) as L3
    by (apply len_matvec; lia).
  erewrite (bind_eq _ _ w w _); [|apply lift_eq, apply_column; rewrite L3; lia].
  reflexivity.
Qed.

End Forward.

(** ** Forward inference *)

Lemma network_ok_ex : network_ok ex_net ex_world.
Proof.
  split; [discriminate|]. exists ex_hidden, ex_output.
  repeat split; try reflexivity; simpl; lia.
Defined.



(** [Predict] changes nothing. *)
Lemma Predict_pure (Exp : float64 -> float64) (net : Network)
    (input : list float64) (w w' : World) (m : Matrix) :
  Predict Exp net input w = Ok (m, w') -> w' = w.
Proof. intros H. unfold Predict in H. run_inv H. reflexivity. Qed.

Lemma result_lift {A B : Type} (r : Res A) (f : A -> M B) (w : World) :
  result_of ((lift r ≫= f) w)
  = match r with Ok a => result_of (f a w) | Panic msg => Panic msg end.
Proof. destruct r; reflexivity. Qed.

Lemma result_deref {B : Type} (p : nat) (f : Dense -> M B) (w : World) :
  result_of ((deref p ≫= f) w)
  = match heap w !! p with
    | Some d => result_of (f d w)
    | None => Panic "invalid memory address or nil pointer dereference"
    end.
Proof. unfold mbind, M_bind, deref. destruct (heap w !! p); reflexivity. Qed.

(** The matrix product reads a [Dense] through its window only. *)
Lemma dot_window (a a' : Dense) (n : Matrix) :
  window a = window a' -> dot (MDense a) n = dot (MDense a') n.
Proof.
  destruct a, a'. unfold window. simpl. intros H. inversion H; subst.
  reflexivity.
Qed.

(** What [Predict] returns is decided by the windows of the two weight
    matrices and the input. *)
Lemma Predict_window (Exp : float64 -> float64) (net1 net2 : Network)
    (input : list float64) (w1 w2 : World) :
  window <$> heap w1 !! hiddenWeights net1 = window <$> heap w2 !! hiddenWeights net2 ->
  window <$> heap w1 !! outputWeights net1 = window <$> heap w2 !! outputWeights net2 ->
  result_of (Predict Exp net1 input w1) = result_of (Predict Exp net2 input w2).
Proof.
  intros Hh Ho. unfold Predict.
  rewrite !result_lift. destruct (mat.NewDense _ _ _) as [x|]; [|reflexivity].
  rewrite !result_deref.
  destruct (heap w1 !! hiddenWeights net1) as [h1|],
           (heap w2 !! hiddenWeights net2) as [h2|]; try discriminate; [|reflexivity].
  assert (window h1 = window h2) as Hh' by (simpl in Hh; congruence).
  rewrite (dot_window h1 h2 _ Hh').
  rewrite !result_lift. destruct (dot _ _); [|reflexivity].
  rewrite !result_lift. destruct (apply _ _) as [hout|]; [|reflexivity].
  rewrite !result_deref.
  destruct (heap w1 !! outputWeights net1) as [o1|],
           (heap w2 !! outputWeights net2) as [o2|]; try discriminate; [|reflexivity].
  assert (window o1 = window o2) as Ho' by (simpl in Ho; congruence).
  rewrite (dot_window o1 o2 _ Ho').
  rewrite !result_lift. destruct (dot _ _); [|reflexivity].
  rewrite !result_lift. destruct (apply _ _); reflexivity.
Qed.

(** C5. Two calls of [Predict] that find identical weights and are given
    the same input return the same matrix, bit for bit (or panic alike),
    whatever else differs between the two worlds and the two receivers;
    and a call leaves the world as it found it, so the second of two calls
    in a row returns what the first did. *)
Theorem Predict_deterministic (Exp : float64 -> float64) (net1 net2 : Network)
    (input : list float64) (w1 w2 : World) :
  heap w1 !! hiddenWeights net1 = heap w2 !! hiddenWeights net2 ->
  heap w1 !! outputWeights net1 = heap w2 !! outputWeights net2 ->
  result_of (Predict Exp net1 input w1) = result_of (Predict Exp net2 input w2)
  /\ (forall m w', Predict Exp net1 input w1 = Ok (m, w') ->
        w' = w1 /\ Predict Exp net1 input w' = Ok (m, w')).
Proof.
  intros Hh Ho. split.
  - apply Predict_window; congruence.
  - intros m w' H. pose proof (Predict_pure _ _ _ _ _ _ H) as ->. auto.
Qed.

Lemma Predict_deterministic_witness :
  result_of (Predict exp_crude ex_net ex_input ex_world)
  = result_of (Predict exp_crude (mkNetwork 7 7 7 0 1 F64.zero) ex_input
                 (mkWorld [ex_hidden; ex_output; ex_hidden] ∅ ∅ (fun _ => F64.one) 3))
  /\ (forall m w', Predict exp_crude ex_net ex_input ex_world = Ok (m, w') ->
        w' = ex_world /\ Predict exp_crude ex_net ex_input w' = Ok (m, w')).
Proof.
  apply (Predict_deterministic exp_crude ex_net (mkNetwork 7 7 7 0 1 F64.zero) ex_input
           ex_world (mkWorld [ex_hidden; ex_output; ex_hidden] ∅ ∅ (fun _ => F64.one) 3));
    reflexivity.
Defined.

(** ** Bytes *)

Lemma Z_of_byte_of_Z (z : Z) : binary.Z_of_byte (binary.byte_of_Z z) = z mod 256.
Proof.
  unfold binary.Z_of_byte, binary.byte_of_Z.
  assert (0 <= z mod 256 < 256) as Hz by (apply Z.mod_pos_bound; lia).
  destruct (Byte.of_N (Z.to_N (z mod 256))) as [b|] eqn:E.
  - simpl. apply Byte.to_of_N in E. rewrite E. lia.
  - apply Byte.of_N_None_iff in E. lia.
Qed.

Lemma length_put_le (n : nat) (v : Z) : length (binary.put_le n v) = n.
Proof. revert v. induction n as [|n IH]; intros v; simpl; [|rewrite IH]; reflexivity. Qed.

Lemma get_put_le (n : nat) (v : Z) :
  binary.get_le (binary.put_le n v) = v mod 256 ^ Z.of_nat n.
Proof.
  revert v. induction n as [|n IH]; intros v.
  - simpl. rewrite Z.mod_1_r. reflexivity.
  - cbn [binary.put_le binary.get_le]. rewrite Z_of_byte_of_Z, IH.
    rewrite Nat2Z.inj_succ, Z.pow_succ_r by lia.
    rewrite Z.rem_mul_r by lia. reflexivity.
Qed.

Lemma Uint64_PutUint64 (v : Z) (rest : list byte) :
  binary.Uint64 (binary.PutUint64 v ++ rest) = v mod 2 ^ 64.
Proof.
  unfold binary.Uint64, binary.PutUint64.
  rewrite take_app_length' by (symmetry; apply length_put_le).
  rewrite get_put_le. change (256 ^ Z.of_nat 8) with (2 ^ 64).
  apply Z.mod_mod. lia.
Qed.

Lemma length_PutUint64 (v : Z) : length (binary.PutUint64 v) = 8%nat.
Proof. apply length_put_le. Qed.

Lemma wrap64_mod (z : Z) : 0 <= z < 2 ^ 63 -> wrap64 (z mod 2 ^ 64) = z.
Proof.
  intros H. rewrite Z.mod_small by lia. apply wrap64_small. lia.
Qed.

(** ** The bits of a [float64] *)

Lemma digits2_pos_bounds (m : positive) :
  2 ^ (Z.pos (digits2_pos m) - 1) <= Z.pos m < 2 ^ Z.pos (digits2_pos m).
Proof.
  induction m as [m IH|m IH|]; cbn [digits2_pos].
  - rewrite Pos2Z.inj_succ.
    replace (Z.succ (Z.pos (digits2_pos m)) - 1) with (Z.succ (Z.pos (digits2_pos m) - 1)) by lia.
    rewrite !Z.pow_succ_r by lia. lia.
  - rewrite Pos2Z.inj_succ.
    replace (Z.succ (Z.pos (digits2_pos m)) - 1) with (Z.succ (Z.pos (digits2_pos m) - 1)) by lia.
    rewrite !Z.pow_succ_r by lia. lia.
  - simpl. lia.
Qed.

(** The mantissa and exponent of a finite binary64 number. *)
Lemma bounded_range (m : positive) (e : Z) :
  bounded F64.prec F64.emax m e = true ->
  Z.pos m < 2 ^ 53 /\ -1074 <= e <= 971
  /\ (Z.pos m < 2 ^ 52 -> e = -1074).
Proof.
  unfold bounded, canonical_mantissa, fexp, emin, F64.prec, F64.emax.
  intros H. apply andb_true_iff in H. destruct H as [H1 H2].
  apply Z.eqb_eq in H1. apply Z.leb_le in H2.
  pose proof (digits2_pos_bounds m) as [Hlo Hhi].
  set (d := Z.pos (digits2_pos m)) in *.
  assert (d <= 53) as Hd by lia.
  split; [|split].
  - assert (2 ^ d <= 2 ^ 53) by (apply Z.pow_le_mono_r; lia). lia.
  - lia.
  - intros Hm.
    destruct (decide (d = 53)) as [->|Hne]; [|lia].
    change (2 ^ (53 - 1)) with (2 ^ 52) in Hlo. lia.
Qed.

Lemma Float64bits_range (x : float64) :
  F64.valid x = true -> 0 <= F64.Float64bits x < 2 ^ 64.
Proof.
  destruct x as [s|s| |s m e]; simpl; intros H.
  - destruct s; simpl; lia.
  - destruct s; simpl; lia.
  - lia.
  - apply bounded_range in H. destruct H as (Hm & He & _).
    destruct (Z.pos m <? 2 ^ 52) eqn:E; destruct s; simpl; lia.
Qed.

Lemma Float64frombits_bits (x : float64) :
  F64.valid x = true -> F64.Float64frombits (F64.Float64bits x) = x.
Proof.
  destruct x as [s|s| |s m e]; intros H.
  - destruct s; reflexivity.
  - destruct s; reflexivity.
  - reflexivity.
  - simpl in H. apply bounded_range in H. destruct H as (Hm & He & Hsub).
    unfold F64.Float64bits.
    destruct (Z.pos m <? 2 ^ 52) eqn:E.
    + apply Z.ltb_lt in E. specialize (Hsub E). subst e.
      unfold F64.Float64frombits.
      assert ((F64.sign_bits s + Z.pos m) / 2 ^ 52 mod 2 ^ 11 = 0) as ->.
      { destruct s; simpl F64.sign_bits.
        - replace (2 ^ 63 + Z.pos m) with (Z.pos m + 2 ^ 11 * 2 ^ 52) by lia.
          rewrite Z.div_add by lia. rewrite Z.div_small by lia. reflexivity.
        - simpl. rewrite Z.div_small by lia. reflexivity. }
      assert ((F64.sign_bits s + Z.pos m) mod 2 ^ 52 = Z.pos m) as ->.
      { destruct s; simpl F64.sign_bits.
        - replace (2 ^ 63 + Z.pos m) with (Z.pos m + 2 ^ 11 * 2 ^ 52) by lia.
          rewrite Z.mod_add by lia. apply Z.mod_small. lia.
        - apply Z.mod_small. lia. }
      assert ((2 ^ 63 <=? F64.sign_bits s + Z.pos m) = s) as ->.
      { destruct s; simpl F64.sign_bits; [apply Z.leb_le|apply Z.leb_gt]; lia. }
      rewrite Z.eqb_refl. simpl. reflexivity.
    + apply Z.ltb_ge in E.
      unfold F64.Float64frombits.
      assert ((F64.sign_bits s + (e + 1075) * 2 ^ 52 + (Z.pos m - 2 ^ 52)) / 2 ^ 52 mod 2 ^ 11
              = e + 1075) as ->.
      { destruct s; simpl F64.sign_bits.
        - replace (2 ^ 63 + (e + 1075) * 2 ^ 52 + (Z.pos m - 2 ^ 52))
            with ((Z.pos m - 2 ^ 52) + (2 ^ 11 + (e + 1075)) * 2 ^ 52) by lia.
          rewrite Z.div_add by lia. rewrite Z.div_small by lia.
          replace (0 + (2 ^ 11 + (e + 1075))) with ((e + 1075) + 1 * 2 ^ 11) by lia.
          rewrite Z.mod_add by lia. apply Z.mod_small. lia.
        - replace (0 + (e + 1075) * 2 ^ 52 + (Z.pos m - 2 ^ 52))
            with ((Z.pos m - 2 ^ 52) + (e + 1075) * 2 ^ 52) by lia.
          rewrite Z.div_add by lia. rewrite Z.div_small by lia.
          apply Z.mod_small. lia. }
      assert ((F64.sign_bits s + (e + 1075) * 2 ^ 52 + (Z.pos m - 2 ^ 52)) mod 2 ^ 52
              = Z.pos m - 2 ^ 52) as ->.
      { replace (F64.sign_bits s + (e + 1075) * 2 ^ 52 + (Z.pos m - 2 ^ 52))
          with ((Z.pos m - 2 ^ 52) + ((if s then 2 ^ 11 else 0) + (e + 1075)) * 2 ^ 52)
          by (destruct s; simpl F64.sign_bits; lia).
        rewrite Z.mod_add by lia. apply Z.mod_small. lia. }
      assert ((2 ^ 63 <=? F64.sign_bits s + (e + 1075) * 2 ^ 52 + (Z.pos m - 2 ^ 52)) = s) as ->.
      { destruct s; simpl F64.sign_bits; [apply Z.leb_le|apply Z.leb_gt]; lia. }
      destruct (e + 1075 =? 0) eqn:E1; [lia|].
      destruct (e + 1075 =? 2047) eqn:E2; [lia|].
      f_equal; [|lia].
      replace (Z.pos m - 2 ^ 52 + 2 ^ 52) with (Z.pos m) by lia. reflexivity.
Qed.

(** ** The matrix codec *)

Lemma header_bytes (r c : Z) :
  codec.marshal_header
    (codec.mkStorage codec.version codec.form_general codec.packing_full
       codec.uplo_all false r c 0 0)
  = [x01; x00; x00; x00; x47; x46; x41; x00]
    ++ (binary.PutUint64 r ++ binary.PutUint64 c
        ++ binary.PutUint64 0 ++ binary.PutUint64 0).
Proof. reflexivity. Qed.

Lemma length_header (s : codec.storage) : length (codec.marshal_header s) = 40%nat.
Proof.
  unfold codec.marshal_header, binary.PutUint32.
  rewrite !length_app, !length_PutUint64, length_put_le. reflexivity.
Qed.

Lemma unmarshal_header_bytes (t : list byte) :
  codec.unmarshal_header ([x01; x00; x00; x00; x47; x46; x41; x00] ++ t)
  = inl (codec.mkStorage 1 x47 x46 x41 false
           (wrap64 (binary.Uint64 t))
           (wrap64 (binary.Uint64 (drop 8 t)))
           (wrap64 (binary.Uint64 (drop 16 t)))
           (wrap64 (binary.Uint64 (drop 24 t)))).
Proof. reflexivity. Qed.

Lemma header_roundtrip (r c : Z) :
  0 <= r < 2 ^ 63 -> 0 <= c < 2 ^ 63 ->
  codec.unmarshal_header
    (codec.marshal_header
       (codec.mkStorage codec.version codec.form_general codec.packing_full
          codec.uplo_all false r c 0 0))
  = inl (codec.mkStorage 1 x47 x46 x41 false r c 0 0).
Proof.
  intros Hr Hc. rewrite header_bytes, unmarshal_header_bytes.
  replace (drop 24 _) with (binary.PutUint64 0 ++ []).
  2:{ rewrite !app_assoc.
      rewrite drop_app_length'; [rewrite app_nil_r; reflexivity|].
      rewrite !length_app, !length_PutUint64. reflexivity. }
  replace (drop 16 _) with (binary.PutUint64 0 ++ binary.PutUint64 0).
  2:{ rewrite (app_assoc (binary.PutUint64 r)).
      rewrite drop_app_length'; [reflexivity|].
      rewrite !length_app, !length_PutUint64. reflexivity. }
  replace (drop 8 _) with (binary.PutUint64 c ++ binary.PutUint64 0 ++ binary.PutUint64 0).
  2:{ rewrite drop_app_length'; [reflexivity|]. symmetry. apply length_PutUint64. }
  rewrite !Uint64_PutUint64.
  rewrite !wrap64_mod by lia. reflexivity.
Qed.

Lemma list_bind_fmap {A B C : Type} (f : A -> B) (g : B -> list C) (l : list A) :
  (f <$> l) ≫= g = l ≫= (fun x => g (f x)).
Proof.
  induction l as [|x l IH]; [reflexivity|].
  rewrite fmap_cons, !list_bind_cons, IH. reflexivity.
Qed.

Lemma list_bind_bind {A B C : Type} (f : A -> list B) (g : B -> list C) (l : list A) :
  (l ≫= f) ≫= g = l ≫= (fun x => f x ≫= g).
Proof.
  induction l as [|x l IH]; [reflexivity|].
  rewrite !list_bind_cons, <- IH. apply bind_app.
Qed.

(** The cells are written in the order of the data slice. *)
Lemma marshal_cells_data (d : Dense) :
  well_formed d ->
  codec.marshal_cells d
  = Data d ≫= (fun x => binary.PutUint64 (F64.Float64bits x)).
Proof.
  intros Hwf.
  transitivity (mat.tabulate (Rows d) (Cols d) (mat.at_ d)
                  ≫= (fun x => binary.PutUint64 (F64.Float64bits x)));
    [|rewrite tabulate_at by assumption; reflexivity].
  unfold codec.marshal_cells, mat.tabulate.
  rewrite list_bind_bind. apply list_bind_ext; [|reflexivity]. intros i.
  rewrite list_bind_fmap. reflexivity.
Qed.

(** Decoding what was encoded overwrites every cell with the cell that
    was written. *)
Lemma read_cells_encoded (cells old : list float64) (rest : list byte) :
  length old = length cells ->
  Forall (fun x => F64.valid x = true) cells ->
  codec.read_cells old
    ((cells ≫= fun x => binary.PutUint64 (F64.Float64bits x)) ++ rest)
  = (cells, None).
Proof.
  revert old. induction cells as [|x cells IH]; intros old Hlen Hv.
  - destruct old; [reflexivity|discriminate].
  - destruct old as [|o old]; [discriminate|].
    inversion Hv as [|? ? Hx Hv']; subst.
    rewrite list_bind_cons, <- app_assoc.
    cbn [codec.read_cells].
    assert ((len (binary.PutUint64 (F64.Float64bits x) ++
                  (cells ≫= (fun x0 => binary.PutUint64 (F64.Float64bits x0))) ++ rest) <? 8)
            = false) as ->.
    { apply Z.ltb_ge. unfold len. rewrite length_app, length_PutUint64. lia. }
    rewrite drop_app_length' by (symmetry; apply length_PutUint64).
    rewrite IH by (simpl in Hlen; auto with lia).
    rewrite Uint64_PutUint64.
    pose proof (Float64bits_range x Hx).
    rewrite Z.mod_small by lia.
    rewrite Float64frombits_bits by assumption. reflexivity.
Qed.

Lemma length_use (d : Dense) (l : Z) :
  0 <= l ->
  exists data rest, mat.use d l = Ok (data, rest) /\ len data = l.
Proof.
  intros Hl. unfold mat.use.
  destruct (l <? 0) eqn:E; [lia|].
  destruct (l <=? len (Data d ++ slack d)) eqn:E2.
  - do 2 eexists. split; [reflexivity|].
    apply Z.leb_le in E2. unfold len in *. rewrite length_take. lia.
  - do 2 eexists. split; [reflexivity|]. apply len_replicate. lia.
Qed.

(** Decoding the stored form of a matrix into a matrix that was just
    reset gives back its dimensions and cells, whatever the receiver held
    and whatever its shape was. *)
Lemma Unmarshal_encoding (d m : Dense) :
  well_formed d -> valid_cells d ->
  exists m',
    codec.UnmarshalBinaryFrom (mat.Reset m) (encoding d) = Ok (m', None)
    /\ window m' = window d.
Proof.
  intros Hwf Hv. pose proof Hwf as (Hr & Hc & Hs & Hlen & Hmax).
  assert (Rows d <= Rows d * Cols d /\ Cols d <= Rows d * Cols d) as [B1 B2] by nia.
  unfold codec.UnmarshalBinaryFrom.
  change (mat.IsEmpty (mat.Reset m)) with true. cbn [negb].
  assert ((len (encoding d) <? codec.headerSize) = false) as ->.
  { apply Z.ltb_ge. unfold encoding, len. rewrite length_app, length_header.
    unfold codec.headerSize. lia. }
  unfold encoding at 1.
  rewrite take_app_length' by (symmetry; apply length_header).
  rewrite header_roundtrip by lia.
  cbn [codec.Form codec.Packing codec.Uplo codec.Unit codec.KU codec.KL
       codec.SRows codec.SCols].
  change (Byte.eqb x47 codec.form_general && Byte.eqb x46 codec.packing_full
          && Byte.eqb x41 codec.uplo_all && negb false && (0 =? 0) && (0 =? 0))
    with true. cbn [negb].
  destruct (Rows d <? 0) eqn:E1; [lia|]. destruct (Cols d <? 0) eqn:E2; [lia|].
  cbn [orb]. rewrite int_mul_small by lia.
  destruct (Rows d * Cols d =? 0) eqn:E3; [lia|].
  destruct (Rows d * Cols d <? 0) eqn:E4; [lia|].
  unfold mat.reuseAsNonZeroed.
  change (capRows (mat.Reset m) <? Rows (mat.Reset m)) with false.
  change (capCols (mat.Reset m) <? Cols (mat.Reset m)) with false.
  cbn [orb].
  destruct (Rows d =? 0) eqn:E5; [lia|]. destruct (Cols d =? 0) eqn:E6; [lia|].
  cbn [orb]. change (mat.IsEmpty (mat.Reset m)) with true. cbn match.
  rewrite int_mul_small by lia.
  destruct (length_use (mat.Reset m) (Rows d * Cols d)) as (data & rest & -> & Hdata); [lia|].
  cbn [mbind Res_bind Data].
  unfold encoding. rewrite drop_app_length' by (symmetry; apply length_header).
  rewrite marshal_cells_data by assumption.
  rewrite <- (app_nil_r (Data d ≫= _)).
  rewrite read_cells_encoded; [| unfold len in *; lia | exact Hv].
  eexists. split; [reflexivity|].
  unfold window, codec.set_Data. simpl. rewrite Hs. reflexivity.
Qed.

(** ** Saving and loading *)

Lemma Marshal_encoding (d : Dense) :
  well_formed d -> codec.MarshalBinaryTo d = Ok (encoding d).
Proof.
  intros Hwf. unfold codec.MarshalBinaryTo.
  rewrite (in_bounds_well_formed d Hwf), !orb_true_r. reflexivity.
Qed.

Lemma Create_append (path : string) (bs : list byte) (w : World) :
  path ∉ unwritable w ->
  (os.Create path ≫= fun err : option error =>
     match err with
     | Some e => mret (Some e)
     | None => os.append path bs ≫= fun _ => mret None
     end) w
  = Ok (None, set_files w (<[path := bs]> (files w))).
Proof.
  intros Hw. unfold mbind, M_bind, os.Create.
  destruct (decide (path ∈ unwritable w)) as [|_]; [contradiction|].
  unfold os.append. cbn [files set_files].
  rewrite lookup_insert_eq. cbn [default app].
  unfold mret, M_ret, set_files. cbn. rewrite insert_insert_eq. reflexivity.
Qed.

(** [save] on a network with well-formed matrices and two paths that can
    be created: no error, and each file holds the encoding of its
    matrix. *)
Lemma save_ok (net : Network) (w : World) (hw ow : Dense) :
  heap w !! hiddenWeights net = Some hw ->
  heap w !! outputWeights net = Some ow ->
  well_formed hw -> well_formed ow ->
  hidden_path ∉ unwritable w -> output_path ∉ unwritable w ->
  save net w
  = Ok (None, set_files w (<[output_path := encoding ow]>
                            (<[hidden_path := encoding hw]> (files w)))).
Proof.
  intros Hhw How Wh Wo Ph Po. unfold save.
  unfold mbind at 1, M_bind at 1, os.Create at 1.
  destruct (decide (hidden_path ∈ unwritable w)) as [|_]; [contradiction|].
  set (w1 := set_files w (<[hidden_path := []]> (files w))).
  rewrite (bind_eq _ _ w1 w1 hw) by (apply deref_eq; exact Hhw).
  rewrite (bind_eq _ _ w1 w1 _ (lift_eq _ _ w1 (Marshal_encoding hw Wh))).
  unfold mbind at 1, M_bind at 1, os.append at 1.
  cbn [files set_files w1]. rewrite lookup_insert_eq. cbn [default app].
  rewrite insert_insert_eq.
  set (w2 := set_files _ _).
  unfold mbind at 1, M_bind at 1, os.Create at 1.
  destruct (decide (output_path ∈ unwritable w2)) as [|_]; [contradiction|].
  set (w3 := set_files w2 _).
  rewrite (bind_eq _ _ w3 w3 ow) by (apply deref_eq; exact How).
  rewrite (bind_eq _ _ w3 w3 _ (lift_eq _ _ w3 (Marshal_encoding ow Wo))).
  unfold mbind at 1, M_bind at 1, os.append at 1.
  cbn [files set_files w3 w2]. rewrite lookup_insert_eq. cbn [default app].
  rewrite insert_insert_eq. reflexivity.
Qed.

(** One matrix read in place. *)
Lemma reset_and_read_eq (p : nat) (r : list byte) (w : World) (d m' : Dense)
    (e : option error) :
  heap w !! p = Some d ->
  codec.UnmarshalBinaryFrom (mat.Reset d) r = Ok (m', e) ->
  reset_and_read p r w = Ok (e, set_heap w (<[p := m']> (heap w))).
Proof.
  intros Hp Hu. unfold reset_and_read.
  rewrite (bind_eq _ _ w w d) by (apply deref_eq; exact Hp).
  pose proof (lookup_lt_Some _ _ _ Hp) as Hlt.
  unfold mbind at 1, M_bind at 1, assign at 1. rewrite Hp.
  set (w1 := set_heap w _).
  assert (heap w1 !! p = Some (mat.Reset d)) as Hp1.
  { unfold w1. cbn [heap set_heap]. apply list_lookup_insert_eq. exact Hlt. }
  rewrite (bind_eq _ _ w1 w1 _ (deref_eq _ _ _ Hp1)).
  rewrite (bind_eq _ _ w1 w1 _ (lift_eq _ _ w1 Hu)).
  unfold mbind at 1, M_bind at 1, assign at 1. rewrite Hp1.
  unfold mret, M_ret, w1, set_heap. cbn. rewrite list_insert_insert_eq. reflexivity.
Qed.

Lemma reset_and_read_panic (p : nat) (r : list byte) (w : World) :
  heap w !! p = None ->
  reset_and_read p r w = Panic "invalid memory address or nil pointer dereference".
Proof.
  intros Hp. unfold reset_and_read, mbind, M_bind, deref. rewrite Hp. reflexivity.
Qed.

(** [load] when the hidden file decodes: it goes on to the output file
    with the first matrix already replaced. *)
Lemma load_step (net : Network) (w : World) (r1 : list byte) (d1 m1 : Dense) :
  files w !! hidden_path = Some r1 ->
  heap w !! hiddenWeights net = Some d1 ->
  codec.UnmarshalBinaryFrom (mat.Reset d1) r1 = Ok (m1, None) ->
  load net w
  = match files w !! output_path with
    | None => Ok (Some ErrNotExist, set_heap w (<[hiddenWeights net := m1]> (heap w)))
    | Some r2 =>
        (reset_and_read (outputWeights net) r2 ≫= fun err : option error =>
           match err with
           | Some e => mret (Some e)
           | None => mret None
           end) (set_heap w (<[hiddenWeights net := m1]> (heap w)))
    end.
Proof.
  intros Hf Hd Hu. unfold load.
  unfold mbind at 1, M_bind at 1, os.Open at 1. rewrite Hf.
  rewrite (bind_eq _ _ _ _ _ (reset_and_read_eq _ _ w d1 m1 None Hd Hu)).
  unfold mbind at 1, M_bind at 1, os.Open at 1. cbn [files set_heap].
  destruct (files w !! output_path); reflexivity.
Qed.

Lemma load_both (net : Network) (w : World) (r1 r2 : list byte)
    (d1 m1 d2 m2 : Dense) (e : option error) :
  hiddenWeights net <> outputWeights net ->
  files w !! hidden_path = Some r1 ->
  heap w !! hiddenWeights net = Some d1 ->
  codec.UnmarshalBinaryFrom (mat.Reset d1) r1 = Ok (m1, None) ->
  files w !! output_path = Some r2 ->
  heap w !! outputWeights net = Some d2 ->
  codec.UnmarshalBinaryFrom (mat.Reset d2) r2 = Ok (m2, e) ->
  load net w
  = Ok (e, set_heap w (<[outputWeights net := m2]>
                         (<[hiddenWeights net := m1]> (heap w)))).
Proof.
  intros Hne Hf1 Hd1 Hu1 Hf2 Hd2 Hu2.
  rewrite (load_step net w r1 d1 m1 Hf1 Hd1 Hu1), Hf2.
  set (w1 := set_heap w _).
  assert (heap w1 !! outputWeights net = Some d2) as Hd2'.
  { unfold w1. cbn [heap set_heap].
    rewrite list_lookup_insert_ne by exact Hne. exact Hd2. }
  rewrite (bind_eq _ _ _ _ _ (reset_and_read_eq _ _ w1 d2 m2 e Hd2' Hu2)).
  destruct e; reflexivity.
Qed.

(** The heap after both matrices were replaced. *)
Lemma lookup_after_load (h : list Dense) (hp op : nat) (m1 m2 d1 d2 : Dense) :
  hp <> op -> h !! hp = Some d1 -> h !! op = Some d2 ->
  (<[op := m2]> (<[hp := m1]> h)) !! hp = Some m1
  /\ (<[op := m2]> (<[hp := m1]> h)) !! op = Some m2.
Proof.
  intros Hne H1 H2. split.
  - rewrite list_lookup_insert_ne by auto.
    apply list_lookup_insert_eq. eapply lookup_lt_Some; eassumption.
  - apply list_lookup_insert_eq. rewrite length_insert.
    eapply lookup_lt_Some; eassumption.
Qed.



Lemma well_formed_ex_hidden : well_formed ex_hidden.
Proof. repeat split; simpl; lia. Defined.

Lemma well_formed_ex_output : well_formed ex_output.
Proof. repeat split; simpl; lia. Defined.

Lemma valid_cells_ex_hidden : valid_cells ex_hidden.
Proof. repeat constructor. Defined.

Lemma valid_cells_ex_output : valid_cells ex_output.
Proof. repeat constructor. Defined.



(** ** What [load] checks and what it leaves behind *)

(** Decoding into a matrix that was just reset never panics. *)
Lemma Unmarshal_total (d : Dense) (r : list byte) :
  exists m e, codec.UnmarshalBinaryFrom (mat.Reset d) r = Ok (m, e).
Proof.
  unfold codec.UnmarshalBinaryFrom.
  change (mat.IsEmpty (mat.Reset d)) with true. cbn [negb].
  destruct (len r <? codec.headerSize); [eauto|].
  destruct (codec.unmarshal_header _) as [h|e]; [|eauto].
  cbn beta iota.
  destruct (negb (_ && _)); [eauto|].
  destruct ((codec.SRows h <? 0) || (codec.SCols h <? 0)) eqn:Eneg; [eauto|].
  destruct (int_mul _ _ =? 0) eqn:E0; [eauto|].
  destruct (int_mul _ _ <? 0) eqn:E1; [eauto|].
  unfold mat.reuseAsNonZeroed.
  change (capRows (mat.Reset d) <? Rows (mat.Reset d)) with false.
  change (capCols (mat.Reset d) <? Cols (mat.Reset d)) with false.
  cbn [orb].
  destruct ((codec.SRows h =? 0) || (codec.SCols h =? 0)) eqn:Ez.
  { exfalso. apply orb_true_iff in Ez.
    unfold int_mul in E0.
    destruct Ez as [Ez|Ez]; apply Z.eqb_eq in Ez; rewrite Ez in E0;
      [|rewrite Z.mul_0_r in E0]; discriminate. }
  change (mat.IsEmpty (mat.Reset d)) with true. cbn match.
  destruct (length_use (mat.Reset d) (int_mul (codec.SRows h) (codec.SCols h)))
    as (data & rest & -> & _); [lia|].
  cbn [mbind Res_bind Data].
  destruct (codec.read_cells _ _). eauto.
Qed.

(** A stream too short for a header is refused before the receiver is
    given a shape: it stays as [Reset] left it. *)
Lemma Unmarshal_short (d : Dense) (r : list byte) :
  len r < codec.headerSize ->
  codec.UnmarshalBinaryFrom (mat.Reset d) r = Ok (mat.Reset d, Some ErrUnexpectedEOF).
Proof.
  intros H. unfold codec.UnmarshalBinaryFrom.
  change (mat.IsEmpty (mat.Reset d)) with true. cbn [negb].
  destruct (len r <? codec.headerSize) eqn:E; [reflexivity|lia].
Qed.

(** Every error of the decoder says the bytes are not a matrix. *)
Lemma Unmarshal_error_kind (m m' : Dense) (r : list byte) (e : error) :
  codec.UnmarshalBinaryFrom m r = Ok (m', Some e) -> is_format_error e = true.
Proof.
  unfold codec.UnmarshalBinaryFrom.
  destruct (negb (mat.IsEmpty m)); [discriminate|].
  destruct (len r <? codec.headerSize); [intros H; inversion H; reflexivity|].
  destruct (codec.unmarshal_header _) as [h|e'] eqn:Eh.
  2:{ intros H; inversion H; subst.
      unfold codec.unmarshal_header in Eh.
      destruct (negb _) in Eh; inversion Eh. reflexivity. }
  cbn beta iota.
  destruct (negb (_ && _)); [intros H; inversion H; reflexivity|].
  destruct ((codec.SRows h <? 0) || (codec.SCols h <? 0)); [intros H; inversion H; reflexivity|].
  destruct (_ =? 0); [intros H; inversion H; reflexivity|].
  destruct (_ <? 0); [intros H; inversion H; reflexivity|].
  destruct (mat.reuseAsNonZeroed _ _ _) as [m0|]; [|discriminate].
  cbn [mbind Res_bind].
  assert (forall data bs cells e0,
            codec.read_cells data bs = (cells, Some e0) -> e0 = ErrUnexpectedEOF) as Hrc.
  { induction data as [|x data IH]; intros bs cells e0; cbn [codec.read_cells].
    - discriminate.
    - destruct (len bs <? 8); [intros H; inversion H; reflexivity|].
      destruct (codec.read_cells data (drop 8 bs)) as [rest' e1] eqn:E.
      intros H; inversion H; subst. eapply IH; eassumption. }
  destruct (codec.read_cells _ _) as [cells e0] eqn:E.
  intros H; inversion H; subst. apply Hrc in E. subst. reflexivity.
Qed.

(** C3, as the code has it.  [load] compares no stored dimension with the
    sizes of the network.  When the two files hold the encodings of
    well-formed matrices [A] and [B] of whatever shapes, [load] returns no
    error and the two matrices of the network become [A] and [B], shapes
    included.  An error stays possible only for a file that is missing
    ([ErrNotExist]) or for bytes that are not a matrix (the decoder's
    errors, all of them format errors). *)
Theorem load_takes_stored_shape :
  (forall (net : Network) (w : World) (A B : Dense),
     well_formed A -> valid_cells A -> well_formed B -> valid_cells B ->
     files w !! hidden_path = Some (encoding A) ->
     files w !! output_path = Some (encoding B) ->
     hiddenWeights net <> outputWeights net ->
     is_Some (heap w !! hiddenWeights net) ->
     is_Some (heap w !! outputWeights net) ->
     exists w',
       load net w = Ok (None, w')
       /\ window <$> heap w' !! hiddenWeights net = Some (window A)
       /\ window <$> heap w' !! outputWeights net = Some (window B)
       /\ files w' = files w)
  /\ (forall (net : Network) (w w' : World) (e : error),
        load net w = Ok (Some e, w') ->
        (e = ErrNotExist
         /\ (files w !! hidden_path = None \/ files w !! output_path = None))
        \/ is_format_error e = true).
Proof.
  split.
  - intros net w A B WA VA WB VB FA FB Hne [d1 Hd1] [d2 Hd2].
    destruct (Unmarshal_encoding A d1 WA VA) as (m1 & Hu1 & Hw1).
    destruct (Unmarshal_encoding B d2 WB VB) as (m2 & Hu2 & Hw2).
    eexists. split.
    { apply (load_both net w (encoding A) (encoding B) d1 m1 d2 m2 None); assumption. }
    destruct (lookup_after_load (heap w) _ _ m1 m2 d1 d2 Hne Hd1 Hd2) as [L1 L2].
    cbn [heap set_heap files]. rewrite L1, L2. simpl. rewrite Hw1, Hw2. auto.
  - intros net w w' e H. unfold load in H.
    unfold mbind at 1, M_bind at 1, os.Open at 1 in H.
    destruct (files w !! hidden_path) as [r1|] eqn:F1.
    2:{ inversion H; subst. left. auto. }
    destruct (heap w !! hiddenWeights net) as [d1|] eqn:Hd1.
    2:{ unfold mbind at 1, M_bind at 1 in H.
        rewrite reset_and_read_panic in H by assumption. discriminate. }
    destruct (Unmarshal_total d1 r1) as (m1 & e1 & Hu1).
    rewrite (bind_eq _ _ _ _ _ (reset_and_read_eq _ _ w d1 m1 e1 Hd1 Hu1)) in H.
    destruct e1 as [e1|].
    { inversion H; subst. right. eapply Unmarshal_error_kind; eassumption. }
    unfold mbind at 1, M_bind at 1, os.Open at 1 in H. cbn [files set_heap] in H.
    destruct (files w !! output_path) as [r2|] eqn:F2.
    2:{ inversion H; subst. left. auto. }
    set (w1 := set_heap w _) in H.
    destruct (heap w1 !! outputWeights net) as [d2|] eqn:Hd2.
    2:{ unfold mbind at 1, M_bind at 1 in H.
        rewrite reset_and_read_panic in H by assumption. discriminate. }
    destruct (Unmarshal_total d2 r2) as (m2 & e2 & Hu2).
    rewrite (bind_eq _ _ _ _ _ (reset_and_read_eq _ _ w1 d2 m2 e2 Hd2 Hu2)) in H.
    destruct e2 as [e2|]; inversion H; subst.
    right. eapply Unmarshal_error_kind; eassumption.
Qed.

Lemma load_takes_stored_shape_witness :
  exists w',
    load ex_net mismatch_world = Ok (None, w')
    /\ window <$> heap w' !! hiddenWeights ex_net = Some (window ex_wide)
    /\ window <$> heap w' !! outputWeights ex_net = Some (window ex_output)
    /\ files w' = files mismatch_world.
Proof.
  apply (proj1 load_takes_stored_shape ex_net mismatch_world ex_wide ex_output).
  - repeat split; simpl; lia.
  - repeat constructor.
  - exact well_formed_ex_output.
  - exact valid_cells_ex_output.
  - reflexivity.
  - reflexivity.
  - simpl. discriminate.
  - simpl. eauto.
  - simpl. eauto.
Defined.

(** [load] run on the world whose hidden-weights file holds a matrix of
    another shape. *)
Lemma load_mismatch_run :
  result_of (load ex_net mismatch_world) = Ok None
  /\ (window <$> result_of ((load ex_net ≫= fun _ => deref (hiddenWeights ex_net))
                              mismatch_world))
     = Ok (window ex_wide).
Proof. split; vm_compute; reflexivity. Qed.

(** The claim C3 fails: a stored matrix of one row and three columns is
    loaded into a network configured for two by two, [load] returns no
    error, and the matrix in memory is neither unchanged nor the empty
    matrix [Reset] leaves, but the stored one. *)
Lemma load_shape_mismatch_accepted :
  ~ (forall (net : Network) (w : World) (bs : list byte) (r c : Z) (hw : Dense),
       files w !! hidden_path = Some bs ->
       stored_dims bs = Some (r, c) ->
       (r, c) <> (hiddens net, inputs net) ->
       heap w !! hiddenWeights net = Some hw ->
       exists e w',
         load net w = Ok (Some e, w')
         /\ is_format_error e = true
         /\ (heap w' !! hiddenWeights net = Some hw
             \/ heap w' !! hiddenWeights net = Some (mat.Reset hw))).
Proof.
  intros H.
  destruct (H ex_net mismatch_world (encoding ex_wide) 1 3 ex_hidden)
    as (e & w' & Hload & _).
  - reflexivity.
  - vm_compute. reflexivity.
  - simpl. intros E. inversion E.
  - reflexivity.
  - pose proof (proj1 load_mismatch_run) as Hrun.
    rewrite Hload in Hrun. discriminate.
Qed.





(** ** Construction *)

Lemma advance_0 (w : World) : advance w 0 = w.
Proof. destruct w. unfold advance. simpl. rewrite Nat.add_0_r. reflexivity. Qed.

Lemma draw_eq (Min Max : float64) (n : nat) (w : World) :
  draw Min Max n w
  = Ok ((fun k => uniform Min Max (rand_src w (rand_pos w + k)%nat)) <$> seq 0 n,
        advance w n).
Proof.
  revert w. induction n as [|n IH]; intros w.
  - simpl. rewrite advance_0. reflexivity.
  - cbn [draw]. unfold Uniform_Rand.
    unfold mbind at 1, M_bind at 1. unfold mbind at 1, M_bind at 1.
    unfold rand.Float64 at 1. unfold mret at 1, M_ret at 1.
    unfold mbind at 1, M_bind at 1. rewrite IH.
    unfold mret, M_ret. cbn [seq fmap list_fmap rand_src rand_pos].
    f_equal. f_equal.
    + f_equal.
      * unfold uniform. rewrite Nat.add_0_r. reflexivity.
      * rewrite <- fmap_S_seq, <- list_fmap_compose.
        apply list_fmap_ext. intros _ k _. simpl.
        do 2 f_equal. lia.
    + unfold advance. simpl. f_equal. lia.
Qed.

Lemma randomArray_eq (size : Z) (fanIn : Z) (w : World) :
  0 <= size ->
  randomArray size (F64.of_int fanIn) w
  = Ok (init_cells fanIn w (Z.to_nat size), advance w (Z.to_nat size)).
Proof.
  intros H. unfold randomArray, mat.make.
  destruct (size <? 0) eqn:E; [lia|].
  unfold mbind, M_bind, lift. rewrite draw_eq. reflexivity.
Qed.

Lemma len_init_cells (fanIn : Z) (w : World) (n : Z) :
  0 <= n -> len (init_cells fanIn w (Z.to_nat n)) = n.
Proof.
  intros H. unfold init_cells, len. rewrite length_fmap, length_seq. lia.
Qed.




(** ** Which operations keep the shapes *)










(** ** The training step, as its caller sees it *)

(** C1: what the code does instead.  [Train] has a value receiver: when
    [net.Train(input, target)] returns, the two matrices the caller's
    network points to are the ones it pointed to before, cell for cell.
    The updated matrices exist only in the receiver, which the call
    drops. *)
Theorem Train_update_lost (Exp : float64 -> float64) (net : Network)
    (input target : list float64) (w w' : World) (u : unit) :
  Train Exp net input target w = Ok (u, w') ->
  heap w' !! hiddenWeights net = heap w !! hiddenWeights net
  /\ heap w' !! outputWeights net = heap w !! outputWeights net.
Proof.
  intros H. apply Train_frame in H. destruct H as (E1 & E2 & _). auto.
Qed.

Lemma Train_update_lost_witness :
  heap ex_trained_world !! hiddenWeights ex_net = heap ex_world !! hiddenWeights ex_net
  /\ heap ex_trained_world !! outputWeights ex_net = heap ex_world !! outputWeights ex_net.
Proof.
  apply (Train_update_lost exp_crude ex_net ex_input ex_target ex_world
           ex_trained_world tt).
  vm_compute. reflexivity.
Defined.

(** ** The driver's conversion of a record *)

(** C8: what the code does instead.  [(x / 0.99 * 255.0) + 0.01] sends the
    raw value 255 to 65681.83 and every raw value from 1 to 255 above 1.0;
    of the 256 raw values only 0 lands in [[0.01, 1.0]], on 0.01. *)
Theorem scale_pixel_out_of_range :
  scale_pixel (F64.of_int 255) = S754_finite false 4513620863718403 (-36)
  /\ F64.ltb (F64.of_int 65681) (scale_pixel (F64.of_int 255)) = true
  /\ forallb (fun raw => F64.ltb F64.one (scale_pixel (F64.of_int raw))) (seqZ 1 255) = true
  /\ filter (fun raw => in_pixel_range (scale_pixel (F64.of_int raw)) = true) (seqZ 0 256) = [0]
  /\ scale_pixel (F64.of_int 0) = F64.c0_01.
Proof. repeat split; vm_compute; reflexivity. Qed.

(** With the two constants exchanged the scaling has the range the
    specification names, on every raw value. *)
Lemma scale_pixel_exchanged_in_range :
  forallb (fun raw => in_pixel_range (scale_pixel_exchanged (F64.of_int raw)))
    (seqZ 0 256) = true.
Proof. vm_compute. reflexivity. Qed.

(** The target vector is as the claim says: [outputs] cells, 0.99 at the
    index the label names and 0.01 at every other. *)
Lemma record_targets_one_hot (net : Network) (label : Z) (fields : list Z) :
  0 <= label < outputs net ->
  exists targets,
    record_targets net (label :: fields) = Ok targets
    /\ len targets = outputs net
    /\ targets !! Z.to_nat label = Some F64.c0_99
    /\ (forall i, i <> Z.to_nat label -> (i < Z.to_nat (outputs net))%nat ->
          targets !! i = Some F64.c0_01).
Proof.
  intros H. unfold record_targets, mat.make.
  destruct (outputs net <? 0) eqn:E; [lia|]. cbn [mbind Res_bind lookup list_lookup].
  set (cells := (fun _ => F64.c0_01) <$> replicate (Z.to_nat (outputs net)) F64.zero).
  assert (len cells = outputs net) as Hlen.
  { unfold cells. rewrite len_fmap. apply len_replicate. lia. }
  rewrite Hlen.
  destruct (label <? 0) eqn:E1; [lia|]. destruct (outputs net <=? label) eqn:E2; [lia|].
  cbn [orb]. eexists. split; [reflexivity|]. split; [|split].
  - unfold len. rewrite length_insert. exact Hlen.
  - apply list_lookup_insert_eq. unfold len in Hlen. lia.
  - intros i Hi Hlt. rewrite list_lookup_insert_ne by auto.
    unfold cells. rewrite list_lookup_fmap.
    rewrite lookup_replicate_2 by exact Hlt. reflexivity.
Qed.

(** ** The training step *)

(** *** Tables, cell by cell *)

Lemma bind_ext_in {A B : Type} (f g : A -> list B) (l : list A) :
  (forall x, x ∈ l -> f x = g x) -> l ≫= f = l ≫= g.
Proof.
  induction l as [|x l IH]; intros H; [reflexivity|].
  rewrite !list_bind_cons. f_equal.
  - apply H. left.
  - apply IH. intros y Hy. apply H. right. exact Hy.
Qed.

Lemma fmap_seqZ_ext {B : Type} (f g : Z -> B) (n : Z) :
  (forall k, 0 <= k < n -> f k = g k) -> f <$> seqZ 0 n = g <$> seqZ 0 n.
Proof.
  intros H. apply list_fmap_ext. intros i k Hk.
  apply list_elem_of_lookup_2, elem_of_seqZ in Hk. apply H. lia.
Qed.

Lemma fmap_seqZ_inj {B : Type} (f g : Z -> B) (n k : Z) :
  f <$> seqZ 0 n = g <$> seqZ 0 n -> 0 <= k < n -> f k = g k.
Proof.
  intros E Hk. apply (f_equal (fun l => l !! Z.to_nat k)) in E.
  rewrite !list_lookup_fmap, lookup_seqZ_lt in E by lia. simpl in E.
  replace (0 + Z.of_nat (Z.to_nat k)) with k in E by lia. congruence.
Qed.

Lemma tabulate_ext (r c : Z) (f g : Z -> Z -> float64) :
  (forall i j, 0 <= i < r -> 0 <= j < c -> f i j = g i j) ->
  mat.tabulate r c f = mat.tabulate r c g.
Proof.
  intros H. unfold mat.tabulate. apply bind_ext_in. intros i Hi.
  apply elem_of_seqZ in Hi. apply fmap_seqZ_ext. intros j Hj. apply H; lia.
Qed.

Lemma well_formed_table (r c : Z) (f : Z -> Z -> float64) :
  0 < r -> 0 < c -> r * c < 2 ^ 63 ->
  well_formed (dense_of r c (mat.tabulate r c f)).
Proof.
  intros Hr Hc Hmax. apply well_formed_dense_of; try assumption.
  apply length_tabulate; lia.
Qed.

(** Cell [(i, j)] of a table is what was written there. *)
Lemma at_tabulate (r c : Z) (f : Z -> Z -> float64) (i j : Z) :
  0 < r -> 0 < c -> r * c < 2 ^ 63 -> 0 <= i < r -> 0 <= j < c ->
  mat.at_ (dense_of r c (mat.tabulate r c f)) i j = f i j.
Proof.
  intros Hr Hc Hmax Hi Hj.
  pose proof (tabulate_at _ (well_formed_table r c f Hr Hc Hmax)) as E.
  cbn [Rows Cols Data dense_of] in E.
  apply (f_equal (Spec.rows (Z.to_nat r) (Z.to_nat c))) in E.
  rewrite !rows_tabulate in E by lia.
  apply (fmap_seqZ_inj _ _ r i) in E; [|lia].
  apply (fmap_seqZ_inj _ _ c j) in E; [|lia]. exact E.
Qed.

Lemma in_bounds_table (r c : Z) (f : Z -> Z -> float64) :
  0 < r -> 0 < c -> r * c < 2 ^ 63 ->
  mat.in_bounds (dense_of r c (mat.tabulate r c f)) = true.
Proof. intros. apply in_bounds_well_formed, well_formed_table; assumption. Qed.

(** The cell [i] of a vector; zero past its end. *)
Lemma cell_column (xs : list float64) (i : Z) :
  mat.at_ (column xs) i 0 = cell xs i.
Proof.
  unfold mat.at_, column, dense_of, cell. cbn [Data Stride].
  replace (i * 1 + 0) with i by lia. reflexivity.
Qed.

Lemma cells_seqZ (xs : list float64) : cell xs <$> seqZ 0 (len xs) = xs.
Proof.
  etransitivity; [|apply (column_cells xs)]. apply fmap_seqZ_ext. intros k _.
  symmetry. apply cell_column.
Qed.

(** *** The kernels on vectors *)

Lemma zip_cells (op : float64 -> float64 -> float64) (xs ys : list float64) :
  len xs = len ys ->
  (fun i => op (cell xs i) (cell ys i)) <$> seqZ 0 (len xs) = zip_with op xs ys.
Proof.
  intros H. rewrite <- (zip_with_fmap_same op (cell xs) (cell ys)).
  rewrite cells_seqZ, H, cells_seqZ. reflexivity.
Qed.

Lemma subtract_column (xs ys : list float64) :
  len xs = len ys -> 0 < len xs < 2 ^ 63 ->
  subtract (MDense (column xs)) (MDense (column ys))
  = Ok (MDense (column (zip_with F64.sub xs ys))).
Proof.
  intros H Hn. rewrite (subtract_ok _ _ (len xs) 1);
    try reflexivity; try lia; try (apply in_bounds_column; lia).
  - rewrite column_tabulate by lia. do 3 f_equal. cbn [mat.At].
    rewrite <- (zip_cells F64.sub xs ys H). apply fmap_seqZ_ext. intros k _.
    rewrite !cell_column. reflexivity.
  - simpl. rewrite H. reflexivity.
Qed.

Lemma multiply_column (xs ys : list float64) :
  len xs = len ys -> 0 < len xs < 2 ^ 63 ->
  multiply (MDense (column xs)) (MDense (column ys))
  = Ok (MDense (column (zip_with F64.mul xs ys))).
Proof.
  intros H Hn. rewrite (multiply_ok _ _ (len xs) 1);
    try reflexivity; try lia; try (apply in_bounds_column; lia).
  - rewrite column_tabulate by lia. do 3 f_equal. cbn [mat.At].
    rewrite <- (zip_cells F64.mul xs ys H). apply fmap_seqZ_ext. intros k _.
    rewrite !cell_column. reflexivity.
  - simpl. rewrite H. reflexivity.
Qed.

Lemma len_zip_with (op : float64 -> float64 -> float64) (xs ys : list float64) :
  len xs = len ys -> len (zip_with op xs ys) = len xs.
Proof. unfold len. intros H. rewrite length_zip_with. lia. Qed.

Lemma zip_ones (xs : list float64) :
  zip_with F64.mul xs (zip_with F64.sub (replicate (length xs) F64.one) xs)
  = Spec.logistic_prime <$> xs.
Proof.
  induction xs as [|x xs IH]; [reflexivity|].
  cbn [length replicate zip_with fmap list_fmap]. f_equal. exact IH.
Qed.

Lemma sigmoidPrime_column (xs : list float64) :
  0 < len xs < 2 ^ 63 ->
  sigmoidPrime (MDense (column xs))
  = Ok (MDense (column (Spec.logistic_prime <$> xs))).
Proof.
  intros Hn. unfold sigmoidPrime. cbn [mat.Dims fst column dense_of Rows].
  unfold mat.make. destruct (len xs <? 0) eqn:E; [lia|]. cbn [mbind Res_bind].
  rewrite fmap_replicate.
  assert (len (replicate (Z.to_nat (len xs)) F64.one) = len xs) as L1
    by (apply len_replicate; lia).
  rewrite <- L1 at 1. rewrite NewDense_column by lia. cbn [mbind Res_bind].
  rewrite subtract_column by lia. cbn [mbind Res_bind].
  rewrite multiply_column by (rewrite ?len_zip_with; lia).
  unfold len at 1. rewrite Nat2Z.id, zip_ones. reflexivity.
Qed.

(** *** The products of the training step *)

Lemma seqZ_seq (n : Z) : seqZ 0 n = Z.of_nat <$> seq 0 (Z.to_nat n).
Proof.
  unfold seqZ. apply list_fmap_ext. intros _ k _. lia.
Qed.

(** The transposed matrix times a vector. *)
Lemma dot_transposed (A : Dense) (xs : list float64) :
  well_formed A -> len xs = Rows A ->
  dot (mat.T (MDense A)) (MDense (column xs))
  = Ok (MDense (column (Spec.tmatvec (Z.to_nat (Cols A)) (Spec.rows_of A) xs))).
Proof.
  intros Hwf Hlen. pose proof Hwf as (Hr & Hc & Hs & HD & Hmax).
  rewrite (dot_ok _ _ (Cols A) (Rows A) 1); try reflexivity; try lia; try nia.
  - rewrite column_tabulate by lia. do 3 f_equal.
    unfold Spec.tmatvec. rewrite seqZ_seq, <- list_fmap_compose.
    apply list_fmap_ext. intros k j Hj. cbn [compose mat.At].
    apply list_elem_of_lookup_2, elem_of_seq in Hj.
    rewrite inner_sum. unfold Spec.dotp. f_equal.
    rewrite rows_of_at by assumption. rewrite <- list_fmap_compose.
    etransitivity; [|apply (f_equal (zip_with F64.mul _)), (cells_seqZ xs)].
    rewrite Hlen, zip_with_fmap_same.
    apply fmap_seqZ_ext. intros l Hl. cbn [compose]. rewrite cell_column. f_equal.
    rewrite list_lookup_fmap, lookup_seqZ_lt by lia. reflexivity.
  - simpl. rewrite Hlen. reflexivity.
  - apply in_bounds_well_formed. exact Hwf.
  - apply in_bounds_column. lia.
Qed.

Lemma len_tmatvec (n : nat) (A : list (list float64)) (xs : list float64) :
  len (Spec.tmatvec n A xs) = Z.of_nat n.
Proof. unfold Spec.tmatvec. rewrite len_fmap. unfold len. rewrite length_seq. reflexivity. Qed.

(** A column times a row: the table of the one-term sums. *)
Lemma dot_outer (g a : list float64) :
  0 < len g -> 0 < len a -> len g * len a < 2 ^ 63 ->
  dot (MDense (column g)) (mat.T (MDense (column a)))
  = Ok (MDense (dense_of (len g) (len a)
          (mat.tabulate (len g) (len a)
             (fun i j => Spec.dotp [cell g i] [cell a j])))).
Proof.
  intros Hg Ha Hmax.
  rewrite (dot_ok _ _ (len g) 1 (len a)); try reflexivity; try lia;
    try (apply in_bounds_column; lia).
  do 3 f_equal. apply tabulate_ext. intros i j _ _.
  unfold mat.inner. change (seqZ 0 1) with [0]. cbn [foldl mat.At mat.T mat.raw].
  rewrite !cell_column. reflexivity.
Qed.

Lemma scale_table (s : float64) (r c : Z) (f : Z -> Z -> float64) :
  0 < r -> 0 < c -> r * c < 2 ^ 63 ->
  scale s (MDense (dense_of r c (mat.tabulate r c f)))
  = Ok (MDense (dense_of r c (mat.tabulate r c (fun i j => F64.mul s (f i j))))).
Proof.
  intros Hr Hc Hmax.
  rewrite (scale_ok _ _ r c); try reflexivity; try assumption;
    try (apply in_bounds_table; assumption).
  do 3 f_equal. apply tabulate_ext. intros i j Hi Hj. cbn [mat.At].
  rewrite at_tabulate by assumption. reflexivity.
Qed.

Lemma add_table (W : Dense) (f : Z -> Z -> float64) :
  well_formed W ->
  add (MDense W) (MDense (dense_of (Rows W) (Cols W) (mat.tabulate (Rows W) (Cols W) f)))
  = Ok (MDense (dense_of (Rows W) (Cols W)
          (mat.tabulate (Rows W) (Cols W) (fun i j => F64.add (mat.at_ W i j) (f i j))))).
Proof.
  intros Hwf. pose proof Hwf as (Hr & Hc & Hs & HD & Hmax).
  rewrite (add_ok _ _ (Rows W) (Cols W)); try reflexivity; try assumption.
  - do 3 f_equal. apply tabulate_ext. intros i j Hi Hj. cbn [mat.At].
    rewrite at_tabulate by assumption. reflexivity.
  - apply in_bounds_well_formed. exact Hwf.
  - apply in_bounds_table; assumption.
Qed.

(** The rows of an updated matrix are the specification's. *)
Lemma updated_rows (rate : float64) (W : Dense) (g a : list float64) :
  well_formed W -> len g = Rows W -> len a = Cols W ->
  Spec.rows_of (dense_of (Rows W) (Cols W)
    (mat.tabulate (Rows W) (Cols W)
       (fun i j => F64.add (mat.at_ W i j)
                     (F64.mul rate (Spec.dotp [cell g i] [cell a j])))))
  = Spec.updated rate (Spec.rows_of W) g a.
Proof.
  intros Hwf Hg Ha. pose proof Hwf as (Hr & Hc & Hs & HD & Hmax).
  unfold Spec.rows_of at 1. cbn [Rows Cols Data dense_of].
  rewrite rows_tabulate by lia.
  assert (Spec.outer g a
          = (fun i => (fun j => Spec.dotp [cell g i] [cell a j]) <$> seqZ 0 (Cols W))
              <$> seqZ 0 (Rows W)) as EO.
  { unfold Spec.outer. rewrite <- Hg, <- Ha.
    etransitivity; [apply (f_equal (fmap _)); symmetry; apply (cells_seqZ g)|].
    rewrite <- list_fmap_compose. apply fmap_seqZ_ext. intros i _. cbn [compose].
    etransitivity; [apply (f_equal (fmap _)); symmetry; apply (cells_seqZ a)|].
    rewrite <- list_fmap_compose. reflexivity. }
  unfold Spec.updated. rewrite EO, rows_of_at by assumption.
  rewrite zip_with_fmap_same.
  apply fmap_seqZ_ext. intros i _.
  rewrite zip_with_fmap_same. reflexivity.
Qed.

(** One of the two assignments of [Train]: the new matrix for the weights
    [W], the errors [e] at the layer's outputs [acts], and the layer's
    inputs [prev]. *)
Lemma update_ok (rate : float64) (W : Dense) (e acts prev : list float64) :
  well_formed W -> len e = Rows W -> len acts = Rows W -> len prev = Cols W ->
  exists W',
    (sp ← sigmoidPrime (MDense (column acts));
     g ← multiply (MDense (column e)) sp;
     p ← dot g (mat.T (MDense (column prev)));
     s ← scale rate p;
     r ← add (MDense W) s;
     as_Dense r) = Ok W'
    /\ well_formed W'
    /\ mat.Dims (MDense W') = mat.Dims (MDense W)
    /\ Spec.rows_of W'
       = Spec.updated rate (Spec.rows_of W)
           (zip_with F64.mul e (Spec.logistic_prime <$> acts)) prev.
Proof.
  intros Hwf He Hacts Hprev. pose proof Hwf as (Hr & Hc & Hs & HD & Hmax).
  assert (Rows W <= Rows W * Cols W) as B1 by nia.
  set (g := zip_with F64.mul e (Spec.logistic_prime <$> acts)).
  assert (len g = Rows W) as Lg.
  { unfold g. rewrite len_zip_with; [exact He|]. rewrite len_fmap. lia. }
  eexists. split; [|split; [|split]].
  - rewrite sigmoidPrime_column by lia. cbn [mbind Res_bind].
    rewrite multiply_column by (rewrite ?len_fmap; lia). cbn [mbind Res_bind]. fold g.
    rewrite dot_outer by (rewrite ?Lg, ?Hprev; lia). cbn [mbind Res_bind].
    rewrite Lg, Hprev.
    rewrite scale_table by assumption. cbn [mbind Res_bind].
    rewrite add_table by assumption. cbn [mbind Res_bind as_Dense]. reflexivity.
  - apply well_formed_table; assumption.
  - reflexivity.
  - apply updated_rows; assumption.
Qed.

Section TrainRuns.

Variable Exp : float64 -> float64.

Lemma len_forward (hw ow : Dense) (x : list float64) :
  0 <= Rows ow -> len (Spec.forward Exp hw ow x) = Rows ow.
Proof. intros H. unfold Spec.forward. rewrite len_fmap. apply len_matvec. exact H. Qed.

Lemma len_hidden_of (hw : Dense) (x : list float64) :
  0 <= Rows hw -> len (Spec.hidden_of Exp hw x) = Rows hw.
Proof. intros H. unfold Spec.hidden_of. rewrite len_fmap. apply len_matvec. exact H. Qed.

(** The body of [Train] on a network of the configured shapes: it runs to
    its end, and the two matrices it leaves in the receiver are the
    specification's update of the two it found. *)
Lemma Train_body_ok (net : Network) (input target : list float64) (w : World)
    (hw ow : Dense) :
  heap w !! hiddenWeights net = Some hw ->
  heap w !! outputWeights net = Some ow ->
  well_formed hw -> well_formed ow ->
  Cols ow = Rows hw -> len input = Cols hw -> len target = Rows ow ->
  exists new_ow new_hw,
    Train_body Exp net input target w
    = Ok (set_hiddenWeights (set_outputWeights net (length (heap w)))
            (S (length (heap w))),
          set_heap w (heap w ++ [new_ow; new_hw]))
    /\ mat.Dims (MDense new_hw) = mat.Dims (MDense hw)
    /\ mat.Dims (MDense new_ow) = mat.Dims (MDense ow)
    /\ (Spec.rows_of new_hw, Spec.rows_of new_ow)
       = Spec.trained Exp (learningRate net) hw ow input target.
Proof.
  intros Hhw How Wh Wo Hmid Hin Htg.
  pose proof Wh as (Hr & Hc & _ & _ & Hmax).
  pose proof Wo as (Hr' & Hc' & _ & _ & Hmax').
  assert (Cols hw <= Rows hw * Cols hw /\ Rows hw <= Rows hw * Cols hw) as [B1 B2] by nia.
  assert (Rows ow <= Rows ow * Cols ow) as B3 by nia.
  set (h := Spec.hidden_of Exp hw input).
  set (o := Spec.forward Exp hw ow input).
  assert (len h = Rows hw) as Lh by (apply len_hidden_of; lia).
  assert (len o = Rows ow) as Lo by (apply len_forward; lia).
  set (oe := zip_with F64.sub target o).
  assert (len oe = Rows ow) as Loe by (unfold oe; rewrite len_zip_with; lia).
  set (he := Spec.tmatvec (Z.to_nat (Cols ow)) (Spec.rows_of ow) oe).
  assert (len he = Rows hw) as Lhe by (unfold he; rewrite len_tmatvec; lia).
  destruct (update_ok (learningRate net) ow oe o h Wo Loe Lo ltac:(lia))
    as (W1 & E1 & Wf1 & D1 & R1).
  destruct (update_ok (learningRate net) hw he h input Wh Lhe Lh Hin)
    as (W2 & E2 & Wf2 & D2 & R2).
  exists W1, W2. split; [|split; [exact D2|split; [exact D1|]]].
  - unfold Train_body.
    assert (mat.NewDense (len input) 1 (Some input) = Ok (column input)) as E0.
    { apply NewDense_column. lia. }
    rewrite (bind_eq _ _ w w _ (lift_eq _ _ w E0)).
    rewrite (bind_eq _ _ w w hw) by (apply deref_eq; assumption).
    rewrite (bind_eq _ _ w w _ (lift_eq _ _ w (dot_column hw input Wh Hin))).
    assert (len (Spec.matvec (Spec.rows_of hw) input) = Rows hw) as L1
      by (apply len_matvec; lia).
    rewrite (bind_eq _ _ w w _
               (lift_eq _ _ w (apply_column Exp (Spec.matvec (Spec.rows_of hw) input)
                                 ltac:(lia)))).
    fold (Spec.hidden_of Exp hw input). fold h.
    rewrite (bind_eq _ _ w w ow) by (apply deref_eq; assumption).
    rewrite (bind_eq _ _ w w _ (lift_eq _ _ w (dot_column ow h Wo ltac:(lia)))).
    assert (len (Spec.matvec (Spec.rows_of ow) h) = Rows ow) as L3
      by (apply len_matvec; lia).
    rewrite (bind_eq _ _ w w _
               (lift_eq _ _ w (apply_column Exp (Spec.matvec (Spec.rows_of ow) h)
                                 ltac:(lia)))).
    fold (Spec.forward Exp hw ow input). fold o.
    assert (mat.NewDense (len target) 1 (Some target) = Ok (column target)) as E3.
    { apply NewDense_column. lia. }
    rewrite (bind_eq _ _ w w _ (lift_eq _ _ w E3)).
    rewrite (bind_eq _ _ w w _
               (lift_eq _ _ w (subtract_column target o ltac:(lia) ltac:(lia)))).
    fold oe.
    rewrite (bind_eq _ _ w w _ (lift_eq _ _ w (dot_transposed ow oe Wo Loe))).
    fold he.
    rewrite (bind_eq _ _ w w W1 (lift_eq _ _ w E1)).
    set (w1 := set_heap w (heap w ++ [W1])).
    rewrite (bind_eq _ _ w w1 (length (heap w)) eq_refl).
    rewrite (bind_eq _ _ w1 w1 hw);
      [|apply deref_eq; cbn [hiddenWeights set_outputWeights w1 heap set_heap];
        apply lookup_app_l_Some; exact Hhw].
    rewrite (bind_eq _ _ w1 w1 W2 (lift_eq _ _ w1 E2)).
    rewrite (bind_eq _ _ w1 _ (length (heap w1)) eq_refl).
    unfold mret, M_ret. f_equal. f_equal.
    + f_equal. unfold w1. cbn [heap set_heap]. rewrite length_app. simpl. lia.
    + unfold w1, set_heap. cbn [heap files unwritable rand_src rand_pos].
      rewrite <- app_assoc. reflexivity.
  - unfold Spec.trained. fold h o. fold oe. fold he. rewrite R1, R2. reflexivity.
Qed.

End TrainRuns.

(* ================================================================= *)
(** * Binary64 rounding *)

(** The bounds below follow the integer parts of the rounding that
    [SpecFloat] defines: a number is a mantissa and an exponent, the
    rounding shifts the mantissa right until it has at most 53 digits and
    its exponent is at least -1074, and then moves it by at most one. *)

Lemma fexp_eq (k : Z) : fexp F64.prec F64.emax k = Z.max (k - 53) (-1074).
Proof. reflexivity. Qed.

Lemma pow2_pos (k : Z) : 0 <= k -> 0 < 2 ^ k.
Proof. intros H. apply Z.pow_pos_nonneg; lia. Qed.

Lemma pow2_le (a b : Z) : 0 <= a <= b -> 2 ^ a <= 2 ^ b.
Proof. intros H. apply Z.pow_le_mono_r; lia. Qed.

Lemma pow2_lt (a b : Z) : 0 <= a < b -> 2 ^ a < 2 ^ b.
Proof. intros H. apply Z.pow_lt_mono_r; lia. Qed.

Lemma pow2_split (a b : Z) : 0 <= a -> 0 <= b -> 2 ^ (a + b) = 2 ^ a * 2 ^ b.
Proof. intros. apply Z.pow_add_r; lia. Qed.

(** *** Digits *)

Lemma digits_pos (m : Z) : 0 < m -> 0 < Zdigits2 m.
Proof. destruct m; simpl; lia. Qed.

Lemma digits_bounds (m : Z) :
  0 < m -> 2 ^ (Zdigits2 m - 1) <= m < 2 ^ Zdigits2 m.
Proof.
  destruct m as [|p|p]; try lia. intros _. apply digits2_pos_bounds.
Qed.

Lemma digits_unique (m k : Z) :
  2 ^ (k - 1) <= m < 2 ^ k -> 0 < k -> Zdigits2 m = k.
Proof.
  intros [Hlo Hhi] Hk.
  assert (0 < m) as Hm by (pose proof (pow2_pos (k - 1)); lia).
  pose proof (digits_bounds m Hm) as [Dlo Dhi].
  pose proof (digits_pos m Hm) as Dpos.
  destruct (Z.lt_trichotomy (Zdigits2 m) k) as [L|[E|G]]; [|exact E|].
  - pose proof (pow2_le (Zdigits2 m) (k - 1)). lia.
  - pose proof (pow2_le k (Zdigits2 m - 1)). lia.
Qed.

Lemma digits_mul_pow (m k : Z) :
  0 < m -> 0 <= k -> Zdigits2 (m * 2 ^ k) = Zdigits2 m + k.
Proof.
  intros Hm Hk. pose proof (digits_bounds m Hm) as [Dlo Dhi].
  pose proof (digits_pos m Hm) as Dpos. pose proof (pow2_pos k Hk).
  apply digits_unique; [|lia].
  replace (Zdigits2 m + k - 1) with ((Zdigits2 m - 1) + k) by lia.
  rewrite !pow2_split by lia. nia.
Qed.

Lemma digits_div_pow (m n : Z) :
  0 < m -> 0 <= n < Zdigits2 m -> Zdigits2 (m / 2 ^ n) = Zdigits2 m - n.
Proof.
  intros Hm Hn. pose proof (digits_bounds m Hm) as [Dlo Dhi].
  pose proof (pow2_pos n ltac:(lia)).
  apply digits_unique; [|lia]. split.
  - apply Z.div_le_lower_bound; [lia|].
    rewrite <- pow2_split by lia.
    replace (n + (Zdigits2 m - n - 1)) with (Zdigits2 m - 1) by lia. exact Dlo.
  - apply Z.div_lt_upper_bound; [lia|].
    rewrite <- pow2_split by lia.
    replace (n + (Zdigits2 m - n)) with (Zdigits2 m) by lia. exact Dhi.
Qed.

Lemma div_pow_small (m n : Z) :
  0 <= m -> Zdigits2 m <= n -> m / 2 ^ n = 0.
Proof.
  intros Hm Hn. destruct (Z.eq_dec m 0) as [->|Hne].
  - apply Z.div_0_l. pose proof (pow2_pos n). simpl in Hn. lia.
  - pose proof (digits_bounds m ltac:(lia)) as [_ Dhi].
    pose proof (digits_pos m ltac:(lia)).
    apply Z.div_small. pose proof (pow2_le (Zdigits2 m) n). lia.
Qed.

(** *** Shifting right *)

Lemma iter_pos_nat {A : Type} (f : A -> A) (p : positive) (x : A) :
  SpecFloat.iter_pos f p x = Nat.iter (Pos.to_nat p) f x.
Proof.
  revert x. induction p as [p IH|p IH|]; intros x; cbn [SpecFloat.iter_pos].
  - rewrite !IH. rewrite Pos2Nat.inj_xI.
    replace (S (2 * Pos.to_nat p)) with (Pos.to_nat p + (Pos.to_nat p + 1))%nat by lia.
    rewrite !Nat.iter_add. reflexivity.
  - rewrite !IH. rewrite Pos2Nat.inj_xO.
    replace (2 * Pos.to_nat p)%nat with (Pos.to_nat p + Pos.to_nat p)%nat by lia.
    rewrite Nat.iter_add. reflexivity.
  - reflexivity.
Qed.

Lemma shr_1_m (mrs : shr_record) :
  0 <= shr_m mrs -> shr_m (shr_1 mrs) = shr_m mrs / 2.
Proof.
  destruct mrs as [m r s]. cbn [shr_m]. intros Hm.
  destruct m as [|[p|p|]|p]; cbn [shr_1 shr_m]; try lia; try reflexivity.
  - rewrite Pos2Z.inj_xI. apply Z.div_unique with 1; lia.
  - rewrite Pos2Z.inj_xO. apply Z.div_unique with 0; lia.
Qed.

Lemma shr_1_exact (mrs : shr_record) :
  0 <= shr_m mrs -> exact_record mrs -> shr_m mrs mod 2 = 0 ->
  exact_record (shr_1 mrs).
Proof.
  destruct mrs as [m r s]. unfold exact_record. cbn [shr_m shr_r shr_s].
  intros Hm [-> ->] Hmod.
  destruct m as [|[p|p|]|p]; cbn [shr_1 shr_r shr_s orb]; auto; try lia.
  - rewrite Pos2Z.inj_xI in Hmod.
    rewrite Z.add_comm, Z.mul_comm, Z.mod_add in Hmod by lia. discriminate.
  - discriminate.
Qed.

Lemma shr_iter_m (n : nat) (mrs : shr_record) :
  0 <= shr_m mrs ->
  shr_m (Nat.iter n shr_1 mrs) = shr_m mrs / 2 ^ Z.of_nat n.
Proof.
  intros Hm. induction n as [|n IH].
  - simpl. rewrite Z.div_1_r. reflexivity.
  - rewrite Nat.iter_succ. rewrite shr_1_m; rewrite IH.
    + rewrite Z.div_div by (try apply pow2_pos; lia).
      rewrite Nat2Z.inj_succ, Z.pow_succ_r by lia. f_equal. lia.
    + apply Z.div_pos; [lia|apply pow2_pos; lia].
Qed.

Lemma shr_iter_exact (n : nat) (mrs : shr_record) :
  0 <= shr_m mrs -> exact_record mrs -> shr_m mrs mod 2 ^ Z.of_nat n = 0 ->
  exact_record (Nat.iter n shr_1 mrs).
Proof.
  intros Hm Hex. induction n as [|n IH]; intros Hmod.
  - exact Hex.
  - rewrite Nat.iter_succ.
    rewrite Nat2Z.inj_succ, Z.pow_succ_r in Hmod by lia.
    pose proof (pow2_pos (Z.of_nat n) ltac:(lia)) as Hp.
    assert (shr_m mrs mod 2 ^ Z.of_nat n = 0 /\ (shr_m mrs / 2 ^ Z.of_nat n) mod 2 = 0)
      as [H1 H2].
    { rewrite (Z.mul_comm 2) in Hmod.
      rewrite Z.rem_mul_r in Hmod by lia.
      pose proof (Z.mod_pos_bound (shr_m mrs) (2 ^ Z.of_nat n) Hp).
      pose proof (Z.mod_pos_bound (shr_m mrs / 2 ^ Z.of_nat n) 2 ltac:(lia)).
      nia. }
    apply shr_1_exact.
    + rewrite shr_iter_m by assumption. apply Z.div_pos; lia.
    + apply IH. exact H1.
    + rewrite shr_iter_m by assumption. exact H2.
Qed.

(** [shr] by [n] places: the mantissa is divided by [2^n], the exponent
    grows by [n]. *)
Lemma shr_spec (mrs : shr_record) (e n : Z) :
  0 <= shr_m mrs ->
  shr_m (fst (shr mrs e n)) = shr_m mrs / 2 ^ Z.max n 0
  /\ snd (shr mrs e n) = e + Z.max n 0
  /\ (exact_record mrs -> shr_m mrs mod 2 ^ Z.max n 0 = 0 ->
      exact_record (fst (shr mrs e n))).
Proof.
  intros Hm. unfold shr. destruct n as [|p|p]; cbn [fst snd].
  - rewrite Z.div_1_r, Z.add_0_r. auto.
  - rewrite Z.max_l by lia. rewrite iter_pos_nat.
    rewrite shr_iter_m by assumption. rewrite positive_nat_Z.
    split; [reflexivity|]. split; [reflexivity|].
    intros Hex Hmod. apply shr_iter_exact; try assumption.
    rewrite positive_nat_Z. exact Hmod.
  - rewrite Z.max_r by lia. rewrite Z.div_1_r, Z.add_0_r. auto.
Qed.

Lemma loc_exact_record (mrs : shr_record) :
  exact_record mrs -> loc_of_shr_record mrs = loc_Exact.
Proof. destruct mrs as [m r s]. intros [H1 H2]. simpl in *. subst. reflexivity. Qed.

Lemma round_nearest_even_cases (m : Z) (l : location) :
  (round_nearest_even m l = m \/ round_nearest_even m l = m + 1)
  /\ (l = loc_Exact -> round_nearest_even m l = m).
Proof.
  destruct l as [|[| |]]; simpl; try destruct (Z.even m); auto; split; auto; discriminate.
Qed.

(** *** The two stages of a rounding *)

Lemma round_aux_pack (s : bool) (mx ex : Z) (lx : location) :
  binary_round_aux F64.prec F64.emax s mx ex lx
  = pack s (round_nearest_even (shr_m (fst (shr_fexp F64.prec F64.emax mx ex lx)))
              (loc_of_shr_record (fst (shr_fexp F64.prec F64.emax mx ex lx))))
      (snd (shr_fexp F64.prec F64.emax mx ex lx)).
Proof.
  unfold binary_round_aux, pack.
  destruct (shr_fexp F64.prec F64.emax mx ex lx) as [mrs' e']. reflexivity.
Qed.

Lemma shr_m_of_loc (m : Z) (l : location) : shr_m (shr_record_of_loc m l) = m.
Proof. destruct l as [|[| |]]; reflexivity. Qed.

Lemma exact_of_loc (m : Z) : exact_record (shr_record_of_loc m loc_Exact).
Proof. split; reflexivity. Qed.

(** The first stage: the mantissa is cut to the exponent the format gives
    a number of its size. *)
Lemma first_shift (mx ex : Z) (lx : location) :
  0 <= mx -> ex <= fexp F64.prec F64.emax (Zdigits2 mx + ex) ->
  let e1 := fexp F64.prec F64.emax (Zdigits2 mx + ex) in
  let mrs := fst (shr_fexp F64.prec F64.emax mx ex lx) in
  snd (shr_fexp F64.prec F64.emax mx ex lx) = e1
  /\ shr_m mrs = mx / 2 ^ (e1 - ex)
  /\ (lx = loc_Exact -> mx mod 2 ^ (e1 - ex) = 0 -> loc_of_shr_record mrs = loc_Exact).
Proof.
  intros Hm P e1 mrs. unfold mrs, shr_fexp. fold e1.
  pose proof (shr_spec (shr_record_of_loc mx lx) ex (e1 - ex)) as S.
  rewrite shr_m_of_loc in S. specialize (S Hm).
  destruct S as (S1 & S2 & S3).
  rewrite Z.max_l in S1, S2, S3 by (unfold e1; lia).
  split; [rewrite S2; lia|]. split; [exact S1|].
  intros -> Hmod. apply loc_exact_record. apply S3; [apply exact_of_loc|exact Hmod].
Qed.

(** What the first stage leaves: fewer than 54 digits, and an exponent
    above the least one only for a mantissa of 53 digits. *)
Lemma first_shift_range (mx ex : Z) :
  0 <= mx -> ex <= fexp F64.prec F64.emax (Zdigits2 mx + ex) ->
  let e1 := fexp F64.prec F64.emax (Zdigits2 mx + ex) in
  let m1 := mx / 2 ^ (e1 - ex) in
  0 <= m1 < 2 ^ 53 /\ -1074 <= e1 /\ (m1 < 2 ^ 52 -> e1 = -1074).
Proof.
  intros Hm P e1 m1. subst m1 e1. rewrite fexp_eq in P. rewrite fexp_eq.
  set (d := Zdigits2 mx) in *.
  set (n := Z.max (d + ex - 53) (-1074) - ex).
  assert (0 <= n) as Hn by (unfold n; lia).
  pose proof (pow2_pos n Hn) as Hp.
  assert (0 <= d) as Hd.
  { unfold d. destruct mx; simpl; lia. }
  destruct (Z_lt_le_dec n d) as [Hlt|Hge].
  - assert (0 < mx) as Hpos.
    { destruct (Z.eq_dec mx 0) as [E|E]; [|lia]. unfold d in Hlt. rewrite E in Hlt.
      simpl in Hlt. lia. }
    pose proof (digits_div_pow mx n Hpos ltac:(fold d; lia)) as Dm1. fold d in Dm1.
    assert (0 < mx / 2 ^ n) as Hq.
    { apply Z.div_str_pos. split; [lia|].
      pose proof (digits_bounds mx Hpos) as [Dlo _]. fold d in Dlo.
      pose proof (pow2_le n (d - 1)). lia. }
    pose proof (digits_bounds (mx / 2 ^ n) Hq) as [Qlo Qhi]. rewrite Dm1 in Qlo, Qhi.
    split; [|split].
    + split; [lia|]. pose proof (pow2_le (d - n) 53 ltac:(unfold n; lia)). lia.
    + lia.
    + intros Hsmall.
      destruct (Z.max_spec (d + ex - 53) (-1074)) as [[_ E]|[Hc E]]; [exact E|].
      exfalso. assert (d - n = 53) as E53 by (unfold n; lia).
      rewrite E53 in Qlo. change (2 ^ (53 - 1)) with (2 ^ 52) in Qlo. lia.
  - rewrite (div_pow_small mx n Hm) by (fold d; lia).
    split; [lia|]. split; [lia|]. intros _. unfold n in Hge. lia.
Qed.

(** *** Storing *)

Lemma digits_53 (m : Z) : 2 ^ 52 <= m < 2 ^ 53 -> Zdigits2 m = 53.
Proof. intros H. apply digits_unique; [exact H|lia]. Qed.

Lemma digits_le_52 (m : Z) : 0 < m < 2 ^ 52 -> Zdigits2 m <= 52.
Proof.
  intros H. pose proof (digits_bounds m ltac:(lia)) as [Dlo _].
  destruct (Z_le_gt_dec (Zdigits2 m) 52) as [|G]; [assumption|].
  pose proof (pow2_le 52 (Zdigits2 m - 1) ltac:(lia)). lia.
Qed.

Lemma pack_cases (s : bool) (m e : Z) :
  storable m e ->
  pack s m e
  = if m =? 0 then S754_zero s
    else if m =? 2 ^ 53
         then (if e + 1 <=? 971 then S754_finite s (Z.to_pos (2 ^ 52)) (e + 1)
               else S754_infinity s)
         else (if e <=? 971 then S754_finite s (Z.to_pos m) e else S754_infinity s).
Proof.
  intros (Hm & He & Hsub). unfold pack, shr_fexp.
  destruct (m =? 0) eqn:E0.
  { apply Z.eqb_eq in E0. subst m. specialize (Hsub ltac:(lia)). subst e. reflexivity. }
  apply Z.eqb_neq in E0.
  destruct (m =? 2 ^ 53) eqn:E53.
  - apply Z.eqb_eq in E53. subst m.
    replace (fexp F64.prec F64.emax (Zdigits2 (2 ^ 53) + e) - e) with 1
      by (rewrite fexp_eq; change (Zdigits2 (2 ^ 53)) with 54; lia).
    reflexivity.
  - apply Z.eqb_neq in E53.
    assert (fexp F64.prec F64.emax (Zdigits2 m + e) - e = 0) as ->.
    { rewrite fexp_eq. destruct (Z_lt_le_dec m (2 ^ 52)) as [L|G].
      - specialize (Hsub L). pose proof (digits_le_52 m ltac:(lia)).
        pose proof (digits_pos m ltac:(lia)). lia.
      - rewrite (digits_53 m) by lia. lia. }
    cbn [shr fst snd]. cbn [shr_record_of_loc shr_m].
    destruct m as [|p|p]; try lia. reflexivity.
Qed.

Lemma pack_valid (s : bool) (m e : Z) :
  storable m e -> F64.valid (pack s m e) = true.
Proof.
  intros St. rewrite (pack_cases s m e St). destruct St as (Hm & He & Hsub).
  destruct (m =? 0) eqn:E0; [reflexivity|]. apply Z.eqb_neq in E0.
  destruct (m =? 2 ^ 53) eqn:E53.
  - destruct (e + 1 <=? 971) eqn:Ee; [|reflexivity].
    apply Z.leb_le in Ee. unfold F64.valid, valid_binary, bounded, canonical_mantissa.
    change (Z.pos (digits2_pos (Z.to_pos (2 ^ 52)))) with 53.
    rewrite fexp_eq. apply andb_true_intro. split; [apply Z.eqb_eq|apply Z.leb_le]; 
      unfold F64.emax, F64.prec; lia.
  - apply Z.eqb_neq in E53.
    destruct (e <=? 971) eqn:Ee; [|reflexivity]. apply Z.leb_le in Ee.
    unfold F64.valid, valid_binary, bounded, canonical_mantissa.
    assert (Z.pos (digits2_pos (Z.to_pos m)) = Zdigits2 m) as ->.
    { destruct m; try lia. reflexivity. }
    rewrite fexp_eq. apply andb_true_intro. split; [apply Z.eqb_eq|apply Z.leb_le];
      unfold F64.emax, F64.prec; [|lia].
    destruct (Z_lt_le_dec m (2 ^ 52)) as [L|G].
    + specialize (Hsub L). pose proof (digits_le_52 m ltac:(lia)).
      pose proof (digits_pos m ltac:(lia)). lia.
    + rewrite (digits_53 m) by lia. lia.
Qed.

(** The rounding of a mantissa [mx >= 0] at an exponent no greater than
    the one its size calls for: the mantissa is divided, moved up by at
    most one (not at all when nothing was cut off), and stored. *)
Lemma round_aux_stored (s : bool) (mx ex : Z) (lx : location) :
  0 <= mx -> ex <= fexp F64.prec F64.emax (Zdigits2 mx + ex) ->
  let e1 := fexp F64.prec F64.emax (Zdigits2 mx + ex) in
  let m1 := mx / 2 ^ (e1 - ex) in
  exists m2,
    binary_round_aux F64.prec F64.emax s mx ex lx = pack s m2 e1
    /\ storable m2 e1
    /\ m1 <= m2 <= m1 + 1
    /\ (lx = loc_Exact -> mx mod 2 ^ (e1 - ex) = 0 -> m2 = m1).
Proof.
  intros Hm P e1 m1.
  destruct (first_shift mx ex lx Hm P) as (S1 & S2 & S3). fold e1 in S1, S2, S3.
  destruct (first_shift_range mx ex Hm P) as (R1 & R2 & R3). fold e1 m1 in R1, R2, R3.
  rewrite round_aux_pack, S1, S2. fold m1.
  set (l1 := loc_of_shr_record _) in *.
  destruct (round_nearest_even_cases m1 l1) as [C1 C2].
  exists (round_nearest_even m1 l1). split; [reflexivity|]. split; [|split].
  - unfold storable. split; [lia|]. split; [lia|]. intros Hs. apply R3. lia.
  - lia.
  - intros Hl Hmod. apply C2. apply S3; assumption.
Qed.

Lemma round_aux_valid (s : bool) (mx ex : Z) (lx : location) :
  0 <= mx -> ex <= fexp F64.prec F64.emax (Zdigits2 mx + ex) ->
  F64.valid (binary_round_aux F64.prec F64.emax s mx ex lx) = true.
Proof.
  intros Hm P. destruct (round_aux_stored s mx ex lx Hm P) as (m2 & -> & St & _).
  apply pack_valid. exact St.
Qed.

(** *** Order *)

Lemma bounded_storable (m : positive) (e : Z) :
  bounded F64.prec F64.emax m e = true ->
  storable (Z.pos m) e /\ Z.pos m < 2 ^ 53 /\ e <= 971.
Proof.
  intros H. destruct (bounded_range m e H) as (H1 & H2 & H3).
  unfold storable. repeat split; lia.
Qed.

Lemma bounded_canonical (m : positive) (e : Z) :
  bounded F64.prec F64.emax m e = true ->
  fexp F64.prec F64.emax (Zdigits2 (Z.pos m) + e) = e.
Proof.
  unfold bounded, canonical_mantissa. intros H. apply andb_true_iff in H.
  destruct H as [H _]. apply Z.eqb_eq in H. exact H.
Qed.

(** Among stored magnitudes the exponent decides. *)
Lemma mag_lt (m1 e1 m2 e2 : Z) :
  storable m1 e1 -> m1 < 2 ^ 53 -> storable m2 e2 -> e1 < e2 ->
  m1 * 2 ^ (e1 + 1074) < m2 * 2 ^ (e2 + 1074).
Proof.
  intros (H1 & E1 & S1) L1 (H2 & E2 & S2) Hlt.
  assert (2 ^ 52 <= m2) as G2.
  { destruct (Z_lt_le_dec m2 (2 ^ 52)) as [L|G]; [|exact G]. specialize (S2 L). lia. }
  pose proof (pow2_pos (e1 + 1074) ltac:(lia)) as P1.
  replace (e2 + 1074) with ((e2 - e1 - 1) + 1 + (e1 + 1074)) by lia.
  rewrite (pow2_split (e2 - e1 - 1 + 1) (e1 + 1074)), (pow2_split (e2 - e1 - 1) 1) by lia.
  pose proof (pow2_pos (e2 - e1 - 1) ltac:(lia)) as P2.
  change (2 ^ 1) with 2. change (2 ^ 53) with (2 * 2 ^ 52) in L1.
  assert (m1 < m2 * (2 ^ (e2 - e1 - 1) * 2)) as Hk by nia.
  nia.
Qed.

Lemma mag_compare (m1 m2 : positive) (e1 e2 : Z) :
  bounded F64.prec F64.emax m1 e1 = true ->
  bounded F64.prec F64.emax m2 e2 = true ->
  match e1 ?= e2 with
  | Lt => Lt
  | Gt => Gt
  | Eq => Pos.compare_cont Eq m1 m2
  end = (Z.pos m1 * 2 ^ (e1 + 1074) ?= Z.pos m2 * 2 ^ (e2 + 1074)).
Proof.
  intros B1 B2.
  destruct (bounded_storable m1 e1 B1) as (S1 & L1 & _).
  destruct (bounded_storable m2 e2 B2) as (S2 & L2 & _).
  destruct (Z.compare_spec e1 e2) as [E|L|G].
  - subst e2. pose proof (pow2_pos (e1 + 1074) ltac:(destruct S1; lia)) as P.
    change (Pos.compare_cont Eq m1 m2) with (Z.pos m1 ?= Z.pos m2).
    destruct (Z.compare_spec (Z.pos m1) (Z.pos m2)) as [E|L|G]; symmetry.
    + apply Z.compare_eq_iff. rewrite E. reflexivity.
    + apply Z.compare_lt_iff. nia.
    + apply Z.compare_gt_iff. nia.
  - symmetry. apply Z.compare_lt_iff. apply mag_lt; assumption.
  - symmetry. apply Z.compare_gt_iff. apply mag_lt; assumption.
Qed.

Lemma ulps_finite_pos (m : positive) (e : Z) :
  bounded F64.prec F64.emax m e = true -> 0 < Z.pos m * 2 ^ (e + 1074) < top.
Proof.
  intros B. destruct (bounded_storable m e B) as ((_ & E & _) & L & U).
  pose proof (pow2_pos (e + 1074) ltac:(lia)) as P.
  split; [nia|]. unfold top. change 2098 with (53 + 2045). rewrite (pow2_split 53 2045) by lia.
  pose proof (pow2_le (e + 1074) 2045 ltac:(lia)). nia.
Qed.

(** Zeros and finite numbers compare as their counts do. *)
Lemma ulps_compare (a b : float64) :
  finite_valid a -> finite_valid b ->
  SFcompare a b = Some (ulps a ?= ulps b).
Proof.
  intros [Va Fa] [Vb Fb].
  destruct a as [sa|sa| |sa ma ea]; try discriminate;
    destruct b as [sb|sb| |sb mb eb]; try discriminate; cbn [SFcompare ulps].
  - reflexivity.
  - pose proof (ulps_finite_pos mb eb Vb). f_equal. symmetry.
    destruct sb; cbn [cond_Zopp]; [apply Z.compare_gt_iff|apply Z.compare_lt_iff]; lia.
  - pose proof (ulps_finite_pos ma ea Va). f_equal. symmetry.
    destruct sa; cbn [cond_Zopp]; [apply Z.compare_lt_iff|apply Z.compare_gt_iff]; lia.
  - pose proof (ulps_finite_pos ma ea Va). pose proof (ulps_finite_pos mb eb Vb).
    f_equal. destruct sa, sb; cbn [cond_Zopp].
    + rewrite Z.compare_opp. rewrite <- (mag_compare mb ma eb ea Vb Va).
      rewrite (Z.compare_antisym eb ea).
      destruct (eb ?= ea); cbn [CompOpp]; try reflexivity.
      rewrite Pos.compare_cont_antisym. reflexivity.
    + symmetry. apply Z.compare_lt_iff. lia.
    + symmetry. apply Z.compare_gt_iff. lia.
    + apply mag_compare; assumption.
Qed.

Lemma leb_ulps (a b : float64) :
  finite_valid a -> finite_valid b ->
  F64.leb a b = true <-> ulps a <= ulps b.
Proof.
  intros Ha Hb. unfold F64.leb, SFleb. rewrite (ulps_compare a b Ha Hb).
  destruct (Z.compare_spec (ulps a) (ulps b)); split; intros; try lia; try reflexivity;
    discriminate.
Qed.

Lemma ltb_ulps (a b : float64) :
  finite_valid a -> finite_valid b ->
  F64.ltb a b = true <-> ulps a < ulps b.
Proof.
  intros Ha Hb. unfold F64.ltb, SFltb. rewrite (ulps_compare a b Ha Hb).
  destruct (Z.compare_spec (ulps a) (ulps b)); split; intros; try lia; try reflexivity;
    discriminate.
Qed.

Lemma ulps_lt_top (a : float64) : finite_valid a -> - top < ulps a < top.
Proof.
  intros [Va Fa]. destruct a as [sa|sa| |sa ma ea]; try discriminate; cbn [ulps].
  - unfold top. pose proof (pow2_pos 2098). lia.
  - pose proof (ulps_finite_pos ma ea Va). destruct sa; cbn [cond_Zopp]; lia.
Qed.

(** *** The count of a stored number *)

Lemma pack_ulps (s : bool) (m e : Z) :
  storable m e ->
  (pack s m e = S754_infinity s /\ top <= m * 2 ^ (e + 1074))
  \/ (finite_valid (pack s m e)
      /\ ulps (pack s m e) = cond_Zopp s (m * 2 ^ (e + 1074))).
Proof.
  intros St. pose proof (pack_valid s m e St) as V.
  rewrite (pack_cases s m e St) in *. destruct St as (Hm & He & Hsub).
  pose proof (pow2_pos (e + 1074) ltac:(lia)) as P.
  assert (2 ^ (e + 1 + 1074) = 2 * 2 ^ (e + 1074)) as Ptwo.
  { replace (e + 1 + 1074) with (1 + (e + 1074)) by lia.
    rewrite (pow2_split 1 (e + 1074)) by lia.
    reflexivity. }
  destruct (m =? 0) eqn:E0.
  { right. apply Z.eqb_eq in E0. subst m. split; [split; reflexivity|].
    cbn [ulps]. destruct s; reflexivity. }
  apply Z.eqb_neq in E0.
  destruct (m =? 2 ^ 53) eqn:E53.
  - apply Z.eqb_eq in E53. subst m. destruct (e + 1 <=? 971) eqn:Ee.
    + right. split; [split; [exact V|reflexivity]|]. cbn [ulps]. f_equal.
      rewrite Ptwo. change (Z.pos (Z.to_pos (2 ^ 52))) with (2 ^ 52).
      change (2 ^ 53) with (2 ^ 52 * 2). ring.
    + left. split; [reflexivity|]. apply Z.leb_gt in Ee.
      unfold top. change 2098 with (53 + 2045). rewrite (pow2_split 53 2045) by lia.
      pose proof (pow2_le 2045 (e + 1074) ltac:(lia)).
      pose proof (pow2_pos 53 ltac:(lia)). nia.
  - apply Z.eqb_neq in E53. destruct (e <=? 971) eqn:Ee.
    + right. split; [split; [exact V|reflexivity]|]. cbn [ulps].
      rewrite Z2Pos.id by lia. reflexivity.
    + left. split; [reflexivity|]. apply Z.leb_gt in Ee.
      assert (2 ^ 52 <= m) as G.
      { destruct (Z_lt_le_dec m (2 ^ 52)) as [L|G]; [|exact G]. specialize (Hsub L). lia. }
      unfold top. change 2098 with (52 + 2046). rewrite (pow2_split 52 2046) by lia.
      pose proof (pow2_le 2046 (e + 1074) ltac:(lia)).
      pose proof (pow2_pos 2046 ltac:(lia)). nia.
Qed.

(** *** Rounding keeps the order *)

Lemma regrid (my ey e1 ex B : Z) :
  ex <= e1 <= ey -> -1074 <= e1 -> 1074 <= B -> 0 <= ex + B ->
  my * 2 ^ (ey + 1074) * 2 ^ (B - 1074)
  = my * 2 ^ (ey - e1) * 2 ^ (e1 - ex) * 2 ^ (ex + B)
  /\ my * 2 ^ (ey - e1) * 2 ^ (e1 + 1074) = my * 2 ^ (ey + 1074).
Proof.
  intros H1 H2 H3 H4. split.
  - rewrite <- !Z.mul_assoc. f_equal.
    rewrite <- (pow2_split (ey + 1074) (B - 1074)) by lia.
    rewrite <- (pow2_split (e1 - ex) (ex + B)) by lia.
    rewrite <- (pow2_split (ey - e1) (e1 - ex + (ex + B))) by lia.
    f_equal. lia.
  - rewrite <- !Z.mul_assoc. f_equal.
    rewrite <- (pow2_split (ey - e1) (e1 + 1074)) by lia. f_equal. lia.
Qed.

Lemma nonneg_finite (Y : float64) :
  finite_valid Y -> 0 <= ulps Y ->
  ulps Y = 0
  \/ exists my ey, Y = S754_finite false my ey
       /\ bounded F64.prec F64.emax my ey = true
       /\ ulps Y = Z.pos my * 2 ^ (ey + 1074).
Proof.
  intros [V F] H. destruct Y as [sy|sy| |sy my ey]; try discriminate.
  - left. reflexivity.
  - pose proof (ulps_finite_pos my ey V) as U. destruct sy.
    + cbn [ulps cond_Zopp] in H. lia.
    + right. exists my, ey. split; [reflexivity|]. split; [exact V|reflexivity].
Qed.

(** The exponent a rounding settles on is no greater than that of any
    number the rounded one does not exceed. *)
Lemma round_exponent_le (mx ex B : Z) (my : positive) (ey : Z) :
  0 <= mx -> ex <= fexp F64.prec F64.emax (Zdigits2 mx + ex) ->
  bounded F64.prec F64.emax my ey = true ->
  1074 <= B -> 0 <= ex + B ->
  mx * 2 ^ (ex + B) <= Z.pos my * 2 ^ (ey + 1074) * 2 ^ (B - 1074) ->
  fexp F64.prec F64.emax (Zdigits2 mx + ex) <= ey.
Proof.
  intros Hm P Bd HB HexB Hle.
  pose proof (bounded_canonical my ey Bd) as Cy.
  destruct (bounded_storable my ey Bd) as ((_ & Ey & _) & _ & _).
  rewrite fexp_eq in *.
  destruct (Z.eq_dec mx 0) as [->|Hne].
  - change (Zdigits2 0) with 0 in *. lia.
  - pose proof (digits_bounds mx ltac:(lia)) as [Dlo _].
    pose proof (digits_pos mx ltac:(lia)) as Dp.
    pose proof (digits_bounds (Z.pos my) ltac:(lia)) as [_ Dhi].
    pose proof (digits_pos (Z.pos my) ltac:(lia)) as Dyp.
    set (d := Zdigits2 mx) in *. set (dy := Zdigits2 (Z.pos my)) in *.
    rewrite <- Z.mul_assoc, <- (pow2_split (ey + 1074) (B - 1074)) in Hle by lia.
    replace (ey + 1074 + (B - 1074)) with (ey + B) in Hle by lia.
    assert (2 ^ (d - 1 + (ex + B)) < 2 ^ (dy + (ey + B))) as Hpow.
    { rewrite (pow2_split (d - 1) (ex + B)), (pow2_split dy (ey + B)) by lia.
      pose proof (pow2_pos (ex + B) ltac:(lia)). pose proof (pow2_pos (ey + B) ltac:(lia)).
      nia. }
    apply Z.pow_lt_mono_r_iff in Hpow; lia.
Qed.

Lemma round_aux_upper (s : bool) (mx ex : Z) (lx : location) (Y : float64) (B : Z) :
  0 <= mx -> ex <= fexp F64.prec F64.emax (Zdigits2 mx + ex) ->
  finite_valid Y -> 0 <= ulps Y ->
  1074 <= B -> 0 <= ex + B ->
  (mx * 2 ^ (ex + B) < ulps Y * 2 ^ (B - 1074)
   \/ (mx * 2 ^ (ex + B) = ulps Y * 2 ^ (B - 1074) /\ lx = loc_Exact)) ->
  exists V, 0 <= V <= ulps Y
    /\ finite_valid (binary_round_aux F64.prec F64.emax s mx ex lx)
    /\ ulps (binary_round_aux F64.prec F64.emax s mx ex lx) = cond_Zopp s V.
Proof.
  intros Hm P FY HY HB HexB Hle.
  destruct (round_aux_stored s mx ex lx Hm P) as (m2 & -> & St & Hm2 & Hex).
  set (e1 := fexp F64.prec F64.emax (Zdigits2 mx + ex)) in *.
  pose proof (pow2_pos (ex + B) HexB) as PexB.
  pose proof (pow2_pos (B - 1074) ltac:(lia)) as PB.
  assert (-1074 <= e1) as He1 by (destruct St as (_ & ? & _); assumption).
  pose proof (pow2_pos (e1 + 1074) ltac:(lia)) as Pe1.
  pose proof (pow2_pos (e1 - ex) ltac:(lia)) as Pn.
  assert (m2 * 2 ^ (e1 + 1074) <= ulps Y) as Core.
  { destruct (nonneg_finite Y FY HY) as [Z0|(my & ey & -> & Bd & Uy)].
    - rewrite Z0 in *. destruct Hle as [Hlt|[Heq Hl]]; [nia|].
      assert (mx = 0) as -> by nia.
      rewrite Hex; [|exact Hl|apply Z.mod_0_l; lia].
      rewrite Z.div_0_l by lia. lia.
    - rewrite Uy in *.
      assert (e1 <= ey) as Hee.
      { apply (round_exponent_le mx ex B my ey); try assumption. lia. }
      destruct (regrid (Z.pos my) ey e1 ex B ltac:(lia) He1 HB HexB) as [R1 R2].
      rewrite R1 in Hle. rewrite <- R2.
      set (K := Z.pos my * 2 ^ (ey - e1)) in *.
      apply Z.mul_le_mono_nonneg_r; [lia|].
      destruct Hle as [Hlt|[Heq Hl]].
      + apply Z.mul_lt_mono_pos_r in Hlt; [|exact PexB].
        assert (mx / 2 ^ (e1 - ex) < K) as Hq.
        { apply Z.div_lt_upper_bound; [exact Pn|]. lia. }
        lia.
      + apply Z.mul_cancel_r in Heq; [|lia]. rewrite Hex.
        * rewrite Heq, Z.div_mul by lia. lia.
        * exact Hl.
        * rewrite Heq. apply Z.mod_mul. lia. }
  destruct (pack_ulps s m2 e1 St) as [[_ Ht]|[Fr Ur]].
  - pose proof (ulps_lt_top Y FY). lia.
  - exists (m2 * 2 ^ (e1 + 1074)). split; [|split; assumption].
    split; [|exact Core]. destruct St as ((? & _) & _). nia.
Qed.

Lemma round_aux_lower (s : bool) (mx ex : Z) (lx : location) (Y : float64) (B : Z) :
  0 <= mx -> ex <= fexp F64.prec F64.emax (Zdigits2 mx + ex) ->
  finite_valid Y -> 0 <= ulps Y ->
  1074 <= B -> 0 <= ex + B ->
  ulps Y * 2 ^ (B - 1074) <= mx * 2 ^ (ex + B) ->
  binary_round_aux F64.prec F64.emax s mx ex lx = S754_infinity s
  \/ exists V, ulps Y <= V
       /\ finite_valid (binary_round_aux F64.prec F64.emax s mx ex lx)
       /\ ulps (binary_round_aux F64.prec F64.emax s mx ex lx) = cond_Zopp s V.
Proof.
  intros Hm P FY HY HB HexB Hle.
  destruct (round_aux_stored s mx ex lx Hm P) as (m2 & -> & St & Hm2 & Hex).
  set (e1 := fexp F64.prec F64.emax (Zdigits2 mx + ex)) in *.
  pose proof (pow2_pos (ex + B) HexB) as PexB.
  assert (-1074 <= e1) as He1 by (destruct St as (_ & ? & _); assumption).
  assert (0 <= m2) as Hm2' by (destruct St as ((? & _) & _); assumption).
  pose proof (pow2_pos (e1 + 1074) ltac:(lia)) as Pe1.
  pose proof (pow2_pos (e1 - ex) ltac:(lia)) as Pn.
  assert (ulps Y <= m2 * 2 ^ (e1 + 1074)) as Core.
  { destruct (nonneg_finite Y FY HY) as [Z0|(my & ey & -> & Bd & Uy)].
    - rewrite Z0. nia.
    - rewrite Uy in *. destruct (bounded_storable my ey Bd) as (Sy & Ly & _).
      destruct (Z_lt_le_dec ey e1) as [Hlt|Hee].
      + pose proof (mag_lt (Z.pos my) ey m2 e1 Sy Ly St Hlt). lia.
      + assert (ex <= e1) as Hxe by lia.
        destruct (regrid (Z.pos my) ey e1 ex B ltac:(lia) He1 HB HexB) as [R1 R2].
        rewrite R1 in Hle. rewrite <- R2.
        set (K := Z.pos my * 2 ^ (ey - e1)) in *.
        apply Z.mul_le_mono_nonneg_r; [lia|].
        apply Z.mul_le_mono_pos_r in Hle; [|exact PexB].
        assert (K <= mx / 2 ^ (e1 - ex)) as Hq.
        { apply Z.div_le_lower_bound; [exact Pn|]. lia. }
        lia. }
  destruct (pack_ulps s m2 e1 St) as [[Hi _]|[Fr Ur]].
  - left. exact Hi.
  - right. exists (m2 * 2 ^ (e1 + 1074)). split; [exact Core|]. split; assumption.
Qed.

(** *** Aligning, and rounding an integer *)

Lemma iter_xO (d m : positive) : Z.pos (Pos.iter xO m d) = Z.pos m * 2 ^ Z.pos d.
Proof.
  induction d as [|d IH] using Pos.peano_ind.
  - cbn [Pos.iter]. change (2 ^ 1) with 2. lia.
  - rewrite Pos.iter_succ, Pos2Z.inj_xO, IH, Pos2Z.inj_succ.
    rewrite Z.pow_succ_r by lia. ring.
Qed.

Lemma shl_align_spec (mx : positive) (ex ex' : Z) :
  snd (shl_align mx ex ex') = Z.min ex ex'
  /\ Z.pos (fst (shl_align mx ex ex')) = Z.pos mx * 2 ^ (ex - Z.min ex ex').
Proof.
  unfold shl_align. destruct (ex' - ex) as [|d|d] eqn:E; cbn [fst snd].
  - rewrite Z.min_l by lia. rewrite Z.sub_diag. split; lia.
  - rewrite Z.min_l by lia. rewrite Z.sub_diag. split; lia.
  - rewrite Z.min_r by lia. split; [reflexivity|].
    rewrite iter_xO. do 2 f_equal. lia.
Qed.

(** [binary_round] hands [binary_round_aux] the same number, at an
    exponent no greater than the one its size calls for. *)
Lemma binary_round_eq (s : bool) (mx : positive) (ex : Z) :
  exists (mz : positive) (ez : Z),
    binary_round F64.prec F64.emax s mx ex
    = binary_round_aux F64.prec F64.emax s (Z.pos mz) ez loc_Exact
    /\ ez <= ex
    /\ Z.pos mz = Z.pos mx * 2 ^ (ex - ez)
    /\ ez <= fexp F64.prec F64.emax (Zdigits2 (Z.pos mz) + ez)
    /\ (ez = ex \/ -1074 <= ez).
Proof.
  unfold binary_round.
  set (f := fexp F64.prec F64.emax (Z.pos (digits2_pos mx) + ex)).
  destruct (shl_align_spec mx ex f) as [E1 E2].
  destruct (shl_align mx ex f) as [mz ez]. cbn [fst snd] in E1, E2.
  exists mz, ez. split; [reflexivity|]. split; [lia|]. split; [rewrite E1; exact E2|].
  assert (Zdigits2 (Z.pos mz) + ez = Zdigits2 (Z.pos mx) + ex) as D.
  { rewrite E2, digits_mul_pow by lia. lia. }
  rewrite D. change (Zdigits2 (Z.pos mx)) with (Z.pos (digits2_pos mx)). fold f.
  split; [lia|]. unfold f in *. rewrite fexp_eq in *. lia.
Qed.

Lemma binary_round_value (mz mx : positive) (ez ex : Z) :
  ez <= ex -> 0 <= ez + 1074 -> Z.pos mz = Z.pos mx * 2 ^ (ex - ez) ->
  Z.pos mz * 2 ^ (ez + 1074) = Z.pos mx * 2 ^ (ex + 1074).
Proof.
  intros H1 H2 ->. rewrite <- Z.mul_assoc, <- pow2_split by lia. do 2 f_equal. lia.
Qed.

Lemma normalize_valid (M e : Z) (sz : bool) :
  F64.valid (binary_normalize F64.prec F64.emax M e sz) = true.
Proof.
  destruct M as [|p|p]; cbn [binary_normalize]; [reflexivity| |];
    destruct (binary_round_eq false p e) as (mz & ez & E & _ & _ & P & _);
    destruct (binary_round_eq true p e) as (mz' & ez' & E' & _ & _ & P' & _).
  - rewrite E. apply round_aux_valid; [lia|exact P].
  - rewrite E'. apply round_aux_valid; [lia|exact P'].
Qed.

(** *** Signs *)

Lemma finite_valid_zero (s : bool) : finite_valid (S754_zero s).
Proof. split; reflexivity. Qed.

Lemma finite_valid_opp (x : float64) : finite_valid x -> finite_valid (SFopp x).
Proof. intros [V F]. destruct x; try discriminate; split; assumption. Qed.

Lemma ulps_opp (x : float64) : ulps (SFopp x) = - ulps x.
Proof.
  destruct x as [s|s| |s m e]; try reflexivity. cbn [SFopp ulps].
  destruct s; cbn [negb cond_Zopp]; lia.
Qed.


Lemma leb_pos_inf (Y : float64) :
  F64.is_nan Y = false -> F64.leb Y (S754_infinity false) = true.
Proof. destruct Y as [s|[]| |[] m e]; try discriminate; reflexivity. Qed.

Lemma finite_not_nan (Y : float64) : finite_valid Y -> F64.is_nan Y = false.
Proof. intros [_ F]. destruct Y; try discriminate; reflexivity. Qed.

(** The rounding of the integer [|M|] at exponent [e], from either side. *)
Lemma round_mag_upper (s : bool) (p : positive) (e : Z) (Y : float64) :
  -1074 <= e -> finite_valid Y -> Z.pos p * 2 ^ (e + 1074) <= ulps Y ->
  exists V, 0 <= V <= ulps Y
    /\ finite_valid (binary_round F64.prec F64.emax s p e)
    /\ ulps (binary_round F64.prec F64.emax s p e) = cond_Zopp s V.
Proof.
  intros He FY Hle.
  destruct (binary_round_eq s p e) as (mz & ez & -> & L & Em & P & G).
  pose proof (binary_round_value mz p ez e L ltac:(lia) Em) as Ev.
  pose proof (pow2_pos (e + 1074) ltac:(lia)).
  apply (round_aux_upper s (Z.pos mz) ez loc_Exact Y 1074); try assumption; try lia.
  rewrite Z.sub_diag, Z.mul_1_r, Ev. change (2 ^ 0) with 1.
  destruct (Z.eq_dec (Z.pos p * 2 ^ (e + 1074)) (ulps Y)); [right; split; [lia|reflexivity]|left; lia].
Qed.

Lemma round_mag_lower (s : bool) (p : positive) (e : Z) (Y : float64) :
  -1074 <= e -> finite_valid Y -> 0 <= ulps Y -> ulps Y <= Z.pos p * 2 ^ (e + 1074) ->
  binary_round F64.prec F64.emax s p e = S754_infinity s
  \/ exists V, ulps Y <= V
       /\ finite_valid (binary_round F64.prec F64.emax s p e)
       /\ ulps (binary_round F64.prec F64.emax s p e) = cond_Zopp s V.
Proof.
  intros He FY HY Hle.
  destruct (binary_round_eq s p e) as (mz & ez & -> & L & Em & P & G).
  pose proof (binary_round_value mz p ez e L ltac:(lia) Em) as Ev.
  assert (ulps Y * 2 ^ (1074 - 1074) <= Z.pos mz * 2 ^ (ez + 1074)) as Hs
    by (rewrite Z.sub_diag, Z.mul_1_r, Ev; exact Hle).
  apply (round_aux_lower s (Z.pos mz) ez loc_Exact Y 1074); try assumption; lia.
Qed.


Lemma normalize_ge (M e : Z) (sz : bool) (Y : float64) :
  -1074 <= e -> finite_valid Y -> ulps Y <= M * 2 ^ (e + 1074) ->
  F64.leb Y (binary_normalize F64.prec F64.emax M e sz) = true.
Proof.
  intros He FY Hle. pose proof (pow2_pos (e + 1074) ltac:(lia)) as Pe.
  destruct M as [|p|p]; cbn [binary_normalize].
  - apply leb_ulps; [exact FY|apply finite_valid_zero|]. cbn [ulps]. lia.
  - destruct (Z_lt_le_dec (ulps Y) 0) as [Neg|Pos].
    + destruct (round_mag_lower false p e (S754_zero false) He (finite_valid_zero false))
        as [->|(V & HV & Fr & Ur)]; try (cbn [ulps]; lia).
      * apply leb_pos_inf, finite_not_nan, FY.
      * apply leb_ulps; [exact FY|exact Fr|]. rewrite Ur. cbn [ulps] in HV.
        cbn [cond_Zopp]. lia.
    + destruct (round_mag_lower false p e Y He FY Pos Hle) as [->|(V & HV & Fr & Ur)].
      * apply leb_pos_inf, finite_not_nan, FY.
      * apply leb_ulps; [exact FY|exact Fr|]. rewrite Ur. cbn [cond_Zopp]. lia.
  - destruct (round_mag_upper true p e (SFopp Y) He (finite_valid_opp Y FY))
      as (V & HV & Fr & Ur); [rewrite ulps_opp; lia|].
    apply leb_ulps; [exact FY|exact Fr|]. rewrite Ur. rewrite ulps_opp in HV.
    cbn [cond_Zopp]. lia.
Qed.


(** *** Sums and differences *)

Lemma aligned_ulps (s : bool) (m : positive) (e ez : Z) :
  -1074 <= ez <= e ->
  cond_Zopp s (Z.pos (fst (shl_align m e ez))) * 2 ^ (ez + 1074)
  = cond_Zopp s (Z.pos m * 2 ^ (e + 1074)).
Proof.
  intros H. destruct (shl_align_spec m e ez) as [_ E]. rewrite E.
  rewrite Z.min_r by lia.
  assert (Z.pos m * 2 ^ (e - ez) * 2 ^ (ez + 1074) = Z.pos m * 2 ^ (e + 1074)) as Hv.
  { rewrite <- Z.mul_assoc, <- pow2_split by lia. do 2 f_equal. lia. }
  destruct s; cbn [cond_Zopp]; lia.
Qed.

Lemma finite_exponent (s : bool) (m : positive) (e : Z) :
  F64.valid (S754_finite s m e) = true -> -1074 <= e <= 971.
Proof. intros V. destruct (bounded_range m e V) as (_ & H & _). exact H. Qed.

Lemma add_valid (a b : float64) :
  F64.valid a = true -> F64.valid b = true -> F64.valid (F64.add a b) = true.
Proof.
  intros Va Vb.
  destruct a as [sa|sa| |sa ma ea]; destruct b as [sb|sb| |sb mb eb];
    try reflexivity; try assumption;
    try (destruct sa, sb; reflexivity).
  apply normalize_valid.
Qed.



Lemma add_ge (a b Y : float64) :
  finite_valid a -> finite_valid b -> finite_valid Y ->
  ulps Y <= ulps a + ulps b -> F64.leb Y (F64.add a b) = true.
Proof.
  intros Fa Fb FY H. pose proof Fa as [Va Ia]. pose proof Fb as [Vb Ib].
  destruct a as [sa|sa| |sa ma ea]; try discriminate;
    destruct b as [sb|sb| |sb mb eb]; try discriminate.
  - apply leb_ulps; [exact FY| |].
    + destruct sa, sb; apply finite_valid_zero.
    + destruct sa, sb; exact H.
  - apply leb_ulps; [exact FY|exact Fb|]. unfold F64.add, F64.sub in *; cbn [SFadd SFsub SFopp ulps] in *; lia.
  - apply leb_ulps; [exact FY|exact Fa|]. unfold F64.add, F64.sub in *; cbn [SFadd SFsub SFopp ulps] in *; lia.
  - pose proof (finite_exponent sa ma ea Va). pose proof (finite_exponent sb mb eb Vb).
    unfold F64.add, SFadd. apply normalize_ge; [lia|exact FY|].
    rewrite Z.mul_add_distr_r, !aligned_ulps by lia. exact H.
Qed.



(** *** Products of numbers that are not negative *)



Lemma ulps_zero (a : float64) :
  finite_valid a -> ulps a = 0 -> exists s, a = S754_zero s.
Proof.
  intros [V F] H. destruct a as [s|s| |s m e]; try discriminate.
  - exists s. reflexivity.
  - exfalso. pose proof (ulps_finite_pos m e V).
    cbn [ulps] in H. destruct s; cbn [cond_Zopp] in H; lia.
Qed.


(** *** Quotients *)

Lemma digits_ge_53 (q : Z) : 2 ^ 52 <= q -> 53 <= Zdigits2 q.
Proof.
  intros H. pose proof (digits_bounds q ltac:(lia)) as [_ Hhi].
  destruct (Z_le_gt_dec 53 (Zdigits2 q)) as [|G]; [assumption|].
  pose proof (digits_pos q ltac:(lia)).
  pose proof (pow2_le (Zdigits2 q) 52 ltac:(lia)). lia.
Qed.

Lemma new_location_exact (n : Z) : new_location n 0 = loc_Exact.
Proof. unfold new_location. destruct (Z.even n); reflexivity. Qed.

(** The integer quotient [SFdiv] hands to the rounding. *)
Lemma div_core (m1 m2 : positive) (e1 e2 : Z) :
  bounded F64.prec F64.emax m1 e1 = true ->
  bounded F64.prec F64.emax m2 e2 = true ->
  exists q e' l,
    SFdiv_core_binary F64.prec F64.emax (Z.pos m1) e1 (Z.pos m2) e2 = (q, e', l)
    /\ 0 <= q
    /\ e' <= fexp F64.prec F64.emax (Zdigits2 q + e')
    /\ -2045 <= e' <= e1 - e2
    /\ q * Z.pos m2 <= Z.pos m1 * 2 ^ (e1 - e2 - e')
    /\ (q * Z.pos m2 = Z.pos m1 * 2 ^ (e1 - e2 - e') -> l = loc_Exact).
Proof.
  intros B1 B2.
  destruct (bounded_range m1 e1 B1) as (_ & E1 & _).
  destruct (bounded_range m2 e2 B2) as (_ & E2 & _).
  unfold SFdiv_core_binary.
  set (d1 := Zdigits2 (Z.pos m1)). set (d2 := Zdigits2 (Z.pos m2)).
  set (e' := Z.min (fexp F64.prec F64.emax (d1 + e1 - (d2 + e2))) (e1 - e2)).
  set (s := e1 - e2 - e').
  assert (0 <= s) as Hs by (unfold s, e'; lia).
  assert (-2045 <= e' <= e1 - e2) as He'.
  { unfold e'. rewrite fexp_eq. lia. }
  set (m' := match s with Z0 => Z.pos m1 | Zpos _ => Z.shiftl (Z.pos m1) s | Zneg _ => 0 end).
  assert (m' = Z.pos m1 * 2 ^ s) as Hm'.
  { unfold m'. destruct s as [|p|p] eqn:Es; [change (2 ^ 0) with 1; lia| |lia].
    apply Z.shiftl_mul_pow2. lia. }
  pose proof (Z_div_mod m' (Z.pos m2) ltac:(lia)) as DM.
  destruct (Z.div_eucl m' (Z.pos m2)) as [q r]. destruct DM as [Eq Hr].
  pose proof (pow2_pos s Hs) as Ps.
  assert (0 <= q) as Hq by nia.
  exists q, e', (new_location (Z.pos m2) r). split; [reflexivity|].
  split; [exact Hq|]. split; [|split; [exact He'|split]].
  - rewrite fexp_eq. destruct (Z_le_gt_dec e' (-1074)) as [|G]; [lia|].
    assert (53 + d2 - d1 <= s) as Hs53.
    { unfold s, e' in *. rewrite fexp_eq in *. lia. }
    pose proof (digits_bounds (Z.pos m1) ltac:(lia)) as [D1lo _].
    pose proof (digits_bounds (Z.pos m2) ltac:(lia)) as [_ D2hi].
    pose proof (digits_pos (Z.pos m1) ltac:(lia)) as D1p.
    pose proof (digits_pos (Z.pos m2) ltac:(lia)) as D2p.
    fold d1 in D1lo, D1p. fold d2 in D2hi, D2p.
    assert (2 ^ 52 <= q) as Hq52.
    { assert (2 ^ 52 * Z.pos m2 <= m') as Hm.
      { rewrite Hm'.
        pose proof (pow2_le (52 + d2) (d1 - 1 + s) ltac:(lia)) as Hp.
        rewrite (pow2_split 52 d2), (pow2_split (d1 - 1) s) in Hp by lia.
        pose proof (pow2_pos 52 ltac:(lia)). nia. }
      nia. }
    pose proof (digits_ge_53 q Hq52). lia.
  - fold s. rewrite <- Hm'. nia.
  - fold s. rewrite <- Hm'. intros Heq. assert (r = 0) as -> by lia.
    apply new_location_exact.
Qed.

Lemma ulps_one : ulps F64.one = 2 ^ 1074.
Proof. reflexivity. Qed.

Lemma finite_valid_one : finite_valid F64.one.
Proof. split; reflexivity. Qed.

(** A number divided by one no smaller gives at most one. *)
Lemma div_le_one (a b : float64) :
  finite_valid a -> finite_valid b ->
  0 <= ulps a <= ulps b -> 0 < ulps b ->
  finite_valid (F64.div a b) /\ 0 <= ulps (F64.div a b) <= ulps F64.one.
Proof.
  intros Fa Fb Hab Hb.
  destruct (nonneg_finite b Fb ltac:(lia)) as [Zb|(mb & eb & -> & Bb & Ub)]; [lia|].
  destruct (nonneg_finite a Fa ltac:(lia)) as [Za|(ma & ea & -> & Ba & Ua)].
  { destruct (ulps_zero a Fa Za) as [sa ->]. unfold F64.div; cbn [SFdiv].
    split; [apply finite_valid_zero|]. rewrite ulps_one. cbn [ulps].
    pose proof (pow2_pos 1074). lia. }
  rewrite Ua, Ub in Hab.
  destruct (div_core ma mb ea eb Ba Bb) as (q & e' & l & Ec & Hq & P & He' & Hle & Hex).
  unfold F64.div, SFdiv. rewrite Ec. cbn [xorb].
  destruct (bounded_range ma ea Ba) as (_ & Ea & _).
  destruct (bounded_range mb eb Bb) as (_ & Eb & _).
  pose proof (pow2_pos (e' + 4000) ltac:(lia)) as Pq.
  pose proof (pow2_pos 4000 ltac:(lia)) as PB.
  assert (Z.pos ma * 2 ^ (ea - eb - e') * 2 ^ (e' + 4000) <= Z.pos mb * 2 ^ 4000) as Hscaled.
  { set (k := 4000 - eb - 1074).
    assert (2 ^ (ea - eb - e') * 2 ^ (e' + 4000) = 2 ^ (ea + 1074) * 2 ^ k) as E1.
    { rewrite <- !pow2_split by (unfold k; lia). f_equal. unfold k. lia. }
    assert (2 ^ 4000 = 2 ^ (eb + 1074) * 2 ^ k) as E2.
    { rewrite <- pow2_split by (unfold k; lia). f_equal. unfold k. lia. }
    rewrite <- Z.mul_assoc, E1, E2.
    pose proof (pow2_pos k ltac:(unfold k; lia)). nia. }
  destruct (round_aux_upper false q e' l F64.one 4000) as (V & HV & Fr & Ur);
    try assumption; try lia.
  - apply finite_valid_one.
  - rewrite ulps_one. pose proof (pow2_pos 1074). lia.
  - rewrite ulps_one, <- pow2_split by lia. replace (1074 + (4000 - 1074)) with 4000 by lia.
    assert (q * 2 ^ (e' + 4000) <= 2 ^ 4000) as Hle1 by nia.
    destruct (Z.eq_dec (q * 2 ^ (e' + 4000)) (2 ^ 4000)) as [Heq|Hne]; [right|left; lia].
    split; [exact Heq|]. apply Hex. nia.
  - split; [exact Fr|]. rewrite Ur. cbn [cond_Zopp]. exact HV.
Qed.




(** ** The range of the activations *)

Lemma exp_crude_contract : ExpContract exp_crude.
Proof.
  split.
  - intros s. reflexivity.
  - intros x H. destruct x as [s|s| |s m e]; try discriminate.
    + destruct s; [discriminate|reflexivity].
    + unfold exp_crude. rewrite H. reflexivity.
  - intros x. destruct x as [s|s| |s m e]; try reflexivity.
    + destruct s; reflexivity.
    + unfold exp_crude.
      destruct (F64.ltb exp_overflow (S754_finite s m e)); [reflexivity|].
      destruct s; reflexivity.
  - intros x. destruct x as [s|s| |s m e]; try reflexivity.
    + destruct s; reflexivity.
    + unfold exp_crude.
      destruct (F64.ltb exp_overflow (S754_finite s m e)); [reflexivity|].
      destruct s; reflexivity.
Qed.

Lemma in_unit_ulps (x : float64) :
  finite_valid x -> 0 <= ulps x <= ulps F64.one -> in_unit_interval x.
Proof.
  intros F H. split; apply leb_ulps; try assumption.
  - apply finite_valid_zero.
  - cbn [ulps F64.zero]. lia.
  - apply finite_valid_one.
  - lia.
Qed.

Section Range.

Variable Exp : float64 -> float64.
Hypothesis contract : ExpContract Exp.

(** [1 / (1 + e)] for an [e] that is not negative. *)
Lemma inverse_range (e : float64) :
  F64.valid e = true -> F64.signbit e = false ->
  F64.is_nan (F64.div F64.one (F64.add F64.one e)) = true
  \/ in_unit_interval (F64.div F64.one (F64.add F64.one e)).
Proof.
  intros V S. destruct e as [s|s| |s m x]; cbn [F64.signbit] in S; subst.
  - right. split; reflexivity.
  - right. split; reflexivity.
  - left. reflexivity.
  - assert (finite_valid (S754_finite false m x)) as Fe by (split; [exact V|reflexivity]).
    pose proof (ulps_finite_pos m x V) as Ue.
    set (e := S754_finite false m x) in *.
    assert (ulps e = Z.pos m * 2 ^ (x + 1074)) as Uv by reflexivity.
    pose proof (add_valid F64.one e ltac:(reflexivity) V) as Vq.
    pose proof (add_ge F64.one e F64.one finite_valid_one Fe finite_valid_one ltac:(lia))
      as Lq.
    destruct (F64.add F64.one e) as [sq|sq| |sq mq xq] eqn:Eq.
    + discriminate.
    + destruct sq; [discriminate|]. right. split; reflexivity.
    + discriminate.
    + right. rewrite <- Eq in *.
      assert (finite_valid (F64.add F64.one e)) as Fq.
      { split; [exact Vq|rewrite Eq; reflexivity]. }
      apply (leb_ulps _ _ finite_valid_one Fq) in Lq.
      destruct (div_le_one F64.one (F64.add F64.one e) finite_valid_one Fq) as [Fr Ur].
      * rewrite ulps_one in *. pose proof (pow2_pos 1074). lia.
      * rewrite ulps_one in *. pose proof (pow2_pos 1074). lia.
      * apply in_unit_ulps; assumption.
Qed.

Lemma logistic_range (z : float64) :
  F64.is_nan (Spec.logistic Exp z) = true \/ in_unit_interval (Spec.logistic Exp z).
Proof.
  unfold Spec.logistic. apply inverse_range.
  - apply (Exp_valid Exp contract).
  - apply (Exp_sign Exp contract).
Qed.

(** The saturating network: whatever [Exp] is, within its contract, the
    output for the input [0] is exactly [+0]. *)
Lemma sat_forward :
  Spec.forward Exp sat_hidden sat_output sat_input = [F64.zero].
Proof.
  unfold Spec.forward, Spec.hidden_of.
  change (Spec.matvec (Spec.rows_of sat_hidden) sat_input) with [F64.zero].
  cbn [fmap list_fmap]. unfold Spec.logistic at 2.
  change (F64.mul F64.neg_one F64.zero) with (S754_zero true).
  rewrite (Exp_zero Exp contract).
  change (F64.div F64.one (F64.add F64.one F64.one))
    with (S754_finite false 4503599627370496 (-53)).
  change (Spec.matvec (Spec.rows_of sat_output) [S754_finite false 4503599627370496 (-53)])
    with [S754_finite true 8796093022208000 (-42)].
  cbn [fmap list_fmap]. unfold Spec.logistic.
  change (F64.mul F64.neg_one (S754_finite true 8796093022208000 (-42)))
    with (S754_finite false 8796093022208000 (-42)).
  rewrite (Exp_overflow Exp contract) by reflexivity.
  reflexivity.
Qed.

End Range.

Lemma network_ok_sat : network_ok sat_net sat_world.
Proof.
  split; [discriminate|]. exists sat_hidden, sat_output.
  repeat split; try reflexivity; simpl; lia.
Qed.

(** The output of the saturating network is [+0], whatever [Exp] is
    within its contract. *)
Lemma Predict_saturates (Exp : float64 -> float64) :
  ExpContract Exp ->
  Predict Exp sat_net sat_input sat_world
  = Ok (MDense (column [F64.zero]), sat_world).
Proof.
  intros C. rewrite <- (sat_forward Exp C).
  destruct network_ok_sat as (_ & hw & ow & Hh & Ho & Wh & Wo & _).
  injection Hh as <-. injection Ho as <-.
  apply (Predict_forward Exp sat_net sat_input sat_world sat_hidden sat_output);
    try assumption; reflexivity.
Qed.

(** C9, amended. For every network whose matrices have the configured
    shapes and every input of [inputs] cells, finite or not, [Predict]
    returns [outputs] cells, each of which is NaN or lies in the closed
    interval from 0 to 1: both ends included, since a binary64 quotient
    [1 / (1 + e)] is rounded and reaches them. *)
Theorem Predict_range (Exp : float64 -> float64) (net : Network)
    (input : list float64) (w : World) :
  ExpContract Exp -> network_ok net w -> len input = inputs net ->
  exists out,
    Predict Exp net input w = Ok (MDense (column out), w)
    /\ len out = outputs net
    /\ Forall (fun x => F64.is_nan x = true \/ in_unit_interval x) out.
Proof.
  intros C (_ & hw & ow & Hhw & How & Wh & Wo & Dh & Do) Hin.
  simpl in Dh, Do. inversion Dh as [[Eh1 Eh2]]. inversion Do as [[Eo1 Eo2]].
  exists (Spec.forward Exp hw ow input). split; [|split].
  - apply (Predict_forward Exp net input w hw ow); try assumption; congruence.
  - unfold Spec.forward. rewrite len_fmap.
    destruct Wo as (Hr & _). rewrite len_matvec by lia. reflexivity.
  - unfold Spec.forward. apply Forall_fmap, Forall_forall. intros z _.
    apply (logistic_range Exp C).
Qed.

Lemma Predict_range_witness :
  exists out,
    Predict exp_crude ex_net ex_input ex_world = Ok (MDense (column out), ex_world)
    /\ len out = outputs ex_net
    /\ Forall (fun x => F64.is_nan x = true \/ in_unit_interval x) out.
Proof.
  apply (Predict_range exp_crude ex_net ex_input ex_world).
  - exact exp_crude_contract.
  - exact network_ok_ex.
  - reflexivity.
Defined.

(** C9 as stated does not hold: the output of the saturating network for
    the finite input [0] is [+0], which is not above 0. *)
Lemma Predict_reaches_zero :
  ~ (forall (Exp : float64 -> float64) (net : Network) (input : list float64)
       (w w' : World) (m : Matrix),
        ExpContract Exp -> network_ok net w -> len input = inputs net ->
        Forall (fun x => F64.is_finite x = true) input ->
        Predict Exp net input w = Ok (m, w') ->
        forall i, 0 <= i < outputs net -> strictly_inside (mat.At m i 0)).
Proof.
  intros H.
  assert (Forall (fun x => F64.is_finite x = true) sat_input) as Fin
    by (repeat constructor).
  destruct (H exp_crude sat_net sat_input sat_world sat_world _
              exp_crude_contract network_ok_sat eq_refl Fin
              (Predict_saturates exp_crude exp_crude_contract) 0) as [Hlo _].
  - simpl. lia.
  - discriminate Hlo.
Qed.

(** *** Square roots *)




(** *** The bounds of the initial weights *)










(** ** The rest of the program *)

(** *** Shapes the helpers refuse *)

Lemma elementwise_mismatch (op : float64 -> float64 -> float64) (o : Dense)
    (a b : Matrix) :
  mat.Dims a <> mat.Dims b ->
  mat.elementwise op o a b = Panic "mat: dimension mismatch".
Proof.
  intros H. unfold mat.elementwise, mat.same_dims.
  destruct (mat.Dims a) as [r c], (mat.Dims b) as [r' c']. cbn [fst snd].
  destruct (r =? r') eqn:E1; destruct (c =? c') eqn:E2; try reflexivity.
  apply Z.eqb_eq in E1, E2. congruence.
Qed.

Lemma subtract_mismatch (a b : Matrix) (r c : Z) :
  mat.Dims a = (r, c) -> 0 < r -> 0 < c -> r * c < 2 ^ 63 ->
  mat.Dims b <> (r, c) ->
  subtract a b = Panic "mat: dimension mismatch".
Proof.
  intros Ha Hr Hc Hmax Hb. unfold subtract. rewrite Ha.
  rewrite NewDense_None by assumption. cbn [mbind Res_bind].
  unfold mat.Sub. rewrite elementwise_mismatch by congruence. reflexivity.
Qed.

Lemma add_mismatch (a b : Matrix) (r c : Z) :
  mat.Dims a = (r, c) -> 0 < r -> 0 < c -> r * c < 2 ^ 63 ->
  mat.Dims b <> (r, c) ->
  add a b = Panic "mat: dimension mismatch".
Proof.
  intros Ha Hr Hc Hmax Hb. unfold add. rewrite Ha.
  rewrite NewDense_None by assumption. cbn [mbind Res_bind].
  unfold mat.Add. rewrite elementwise_mismatch by congruence. reflexivity.
Qed.

Lemma multiply_mismatch (a b : Matrix) (r c : Z) :
  mat.Dims a = (r, c) -> 0 < r -> 0 < c -> r * c < 2 ^ 63 ->
  mat.Dims b <> (r, c) ->
  multiply a b = Panic "mat: dimension mismatch".
Proof.
  intros Ha Hr Hc Hmax Hb. unfold multiply. rewrite Ha.
  rewrite NewDense_None by assumption. cbn [mbind Res_bind].
  unfold mat.MulElem. rewrite elementwise_mismatch by congruence. reflexivity.
Qed.

Lemma dot_mismatch (a b : Matrix) (r k k' c : Z) :
  mat.Dims a = (r, k) -> mat.Dims b = (k', c) ->
  0 < r -> 0 < c -> r * c < 2 ^ 63 -> k <> k' ->
  dot a b = Panic "mat: dimension mismatch".
Proof.
  intros Ha Hb Hr Hc Hmax Hk. unfold dot. rewrite Ha, Hb. cbn [fst snd].
  rewrite NewDense_None by assumption. cbn [mbind Res_bind].
  unfold mat.Product. rewrite Ha, Hb.
  destruct (k =? k') eqn:E; [apply Z.eqb_eq in E; contradiction|]. reflexivity.
Qed.

(** X1. The helpers check shapes through gonum and panic on a mismatch:
    [add], [subtract] and [multiply] when the two operands differ in
    shape, [dot] when the left operand's columns are not the right
    operand's rows. *)
Theorem helpers_reject_shapes (a b : Matrix) (r c r' c' : Z) :
  mat.Dims a = (r, c) -> mat.Dims b = (r', c') ->
  0 < r -> 0 < c -> 0 < c' -> r * c < 2 ^ 63 -> r * c' < 2 ^ 63 ->
  ((r, c) <> (r', c') ->
     add a b = Panic "mat: dimension mismatch"
     /\ subtract a b = Panic "mat: dimension mismatch"
     /\ multiply a b = Panic "mat: dimension mismatch")
  /\ (c <> r' -> dot a b = Panic "mat: dimension mismatch").
Proof.
  intros Ha Hb Hr Hc Hc' M1 M2. split.
  - intros Hne. assert (mat.Dims b <> (r, c)) as Hd by congruence.
    split; [|split].
    + apply (add_mismatch a b r c); assumption.
    + apply (subtract_mismatch a b r c); assumption.
    + apply (multiply_mismatch a b r c); assumption.
  - intros Hne. apply (dot_mismatch a b r c r' c'); assumption.
Qed.

Lemma helpers_reject_shapes_witness :
  ((2, 2) <> (1, 2) ->
     add (MDense ex_hidden) (MDense ex_output) = Panic "mat: dimension mismatch"
     /\ subtract (MDense ex_hidden) (MDense ex_output) = Panic "mat: dimension mismatch"
     /\ multiply (MDense ex_hidden) (MDense ex_output) = Panic "mat: dimension mismatch")
  /\ (2 <> 1 ->
      dot (MDense ex_hidden) (MDense ex_output) = Panic "mat: dimension mismatch").
Proof.
  apply (helpers_reject_shapes (MDense ex_hidden) (MDense ex_output) 2 2 1 2);
    first [reflexivity | lia].
Defined.

(** X2. [sigmoidPrime] is written for column vectors: on a column it
    returns the column of [a * (1 - a)], cell by cell; on a matrix with
    more than one column the subtraction from its one-column matrix of
    ones panics. *)
Theorem sigmoidPrime_columns_only (xs : list float64) (r c : Z) (data : list float64) :
  0 < len xs < 2 ^ 63 -> 0 < r < 2 ^ 63 -> 1 < c ->
  sigmoidPrime (MDense (column xs))
  = Ok (MDense (column ((fun a => F64.mul a (F64.sub F64.one a)) <$> xs)))
  /\ sigmoidPrime (MDense (dense_of r c data)) = Panic "mat: dimension mismatch".
Proof.
  intros Hx Hr Hc. split; [apply sigmoidPrime_column; exact Hx|].
  unfold sigmoidPrime. cbn [mat.Dims fst dense_of Rows].
  unfold mat.make. destruct (r <? 0) eqn:E; [lia|]. cbn [mbind Res_bind].
  rewrite fmap_replicate.
  rewrite NewDense_Some by (rewrite ?len_replicate; lia). cbn [mbind Res_bind].
  rewrite (subtract_mismatch _ _ r 1); try reflexivity; try lia.
  simpl. intros H. inversion H. lia.
Qed.

Lemma sigmoidPrime_columns_only_witness :
  sigmoidPrime (MDense (column ex_input))
  = Ok (MDense (column ((fun a => F64.mul a (F64.sub F64.one a)) <$> ex_input)))
  /\ sigmoidPrime (MDense (dense_of 2 2 (Data ex_hidden)))
     = Panic "mat: dimension mismatch".
Proof.
  apply (sigmoidPrime_columns_only ex_input 2 2 (Data ex_hidden)).
  - split; reflexivity.
  - lia.
  - lia.
Defined.

(** X3. [addScalar(i, m)] on a well-formed matrix returns a new matrix of
    the same shape whose cell [(a, b)] is [m_ab + i]. *)
Theorem addScalar_cells (i : float64) (W : Dense) :
  well_formed W ->
  addScalar i (MDense W)
  = Ok (MDense (dense_of (Rows W) (Cols W)
          (mat.tabulate (Rows W) (Cols W) (fun a b => F64.add (mat.at_ W a b) i)))).
Proof.
  intros Hwf. pose proof Hwf as (Hr & Hc & Hs & HD & Hmax).
  unfold addScalar. cbn [mat.Dims]. rewrite int_mul_small by nia.
  unfold mat.make. destruct (Rows W * Cols W <? 0) eqn:E; [nia|]. cbn [mbind Res_bind].
  rewrite fmap_replicate.
  rewrite NewDense_Some by (rewrite ?len_replicate; nia). cbn [mbind Res_bind].
  rewrite (add_ok _ _ (Rows W) (Cols W)); try reflexivity; try assumption.
  - do 3 f_equal. apply tabulate_ext. intros a b Ha Hb. cbn [mat.At]. f_equal.
    unfold mat.at_, dense_of. cbn [Data Stride].
    rewrite lookup_replicate_2 by nia. reflexivity.
  - apply in_bounds_well_formed. exact Hwf.
  - apply in_bounds_dense_of; try assumption. apply len_replicate. nia.
Qed.

Lemma addScalar_cells_witness :
  addScalar F64.one (MDense ex_hidden)
  = Ok (MDense (dense_of (Rows ex_hidden) (Cols ex_hidden)
          (mat.tabulate (Rows ex_hidden) (Cols ex_hidden)
             (fun a b => F64.add (mat.at_ ex_hidden a b) F64.one)))).
Proof. apply (addScalar_cells F64.one ex_hidden). exact well_formed_ex_hidden. Defined.

(** *** Lengths [Predict] and [Train] refuse *)

Lemma bind_Panic {A B : Type} (m : M A) (f : A -> M B) (w : World) (msg : string) :
  m w = Panic msg -> (m ≫= f) w = Panic msg.
Proof. unfold mbind, M_bind. intros ->. reflexivity. Qed.

Lemma lift_Panic {A : Type} (r : Res A) (w : World) (msg : string) :
  r = Panic msg -> lift r w = Panic msg.
Proof. intros ->. reflexivity. Qed.

Lemma NewDense_empty (xs : list float64) :
  len xs = 0 ->
  mat.NewDense (len xs) 1 (Some xs) = Panic "mat: zero length in matrix dimension".
Proof. intros ->. reflexivity. Qed.

(** X4. [Predict] checks the length of its input through gonum only: on
    a network of the configured shapes, an input whose length is not
    [inputs] makes it panic, an empty one when the input matrix is built,
    any other in the first matrix product. *)
Theorem Predict_rejects_length (Exp : float64 -> float64) (net : Network)
    (input : list float64) (w : World) :
  network_ok net w -> len input <> inputs net -> len input < 2 ^ 63 ->
  Predict Exp net input w
  = Panic (if len input =? 0 then "mat: zero length in matrix dimension"
           else "mat: dimension mismatch").
Proof.
  intros (_ & hw & ow & Hhw & How & Wh & Wo & Dh & Do) Hne Hmax.
  simpl in Dh. inversion Dh as [[Eh1 Eh2]].
  pose proof Wh as (Hr & Hc & _ & _ & Hm).
  pose proof (len_nonneg input) as Hn.
  unfold Predict. destruct (len input =? 0) eqn:E0.
  - apply Z.eqb_eq in E0. apply bind_Panic, lift_Panic, NewDense_empty. exact E0.
  - apply Z.eqb_neq in E0.
    rewrite (bind_eq _ _ w w _ (lift_eq _ _ w (NewDense_column input ltac:(lia)))).
    rewrite (bind_eq _ _ w w hw) by (apply deref_eq; assumption).
    apply bind_Panic, lift_Panic.
    apply (dot_mismatch _ _ (Rows hw) (Cols hw) (len input) 1);
      try reflexivity; try lia; nia.
Qed.

Lemma Predict_rejects_length_witness :
  Predict exp_crude ex_net [F64.one] ex_world
  = Panic (if len [F64.one] =? 0 then "mat: zero length in matrix dimension"
           else "mat: dimension mismatch").
Proof.
  apply (Predict_rejects_length exp_crude ex_net [F64.one] ex_world).
  - exact network_ok_ex.
  - vm_compute. lia.
  - reflexivity.
Defined.

(** X5. [Train] checks the length of the target through gonum only: with
    an input of the right length and a target whose length is not
    [outputs], it runs the forward pass and then panics, on an empty
    target when the target matrix is built, on any other in the
    subtraction of the outputs. *)
Theorem Train_rejects_target_length (Exp : float64 -> float64) (net : Network)
    (input target : list float64) (w : World) :
  network_ok net w -> len input = inputs net ->
  len target <> outputs net -> len target < 2 ^ 63 ->
  Train Exp net input target w
  = Panic (if len target =? 0 then "mat: zero length in matrix dimension"
           else "mat: dimension mismatch").
Proof.
  intros (_ & hw & ow & Hhw & How & Wh & Wo & Dh & Do) Hin Hne Hmax.
  simpl in Dh, Do. inversion Dh as [[Eh1 Eh2]]. inversion Do as [[Eo1 Eo2]].
  pose proof Wh as (Hr & Hc & _ & _ & Hmax0).
  pose proof Wo as (Hr' & Hc' & _ & _ & Hmax').
  assert (Cols hw <= Rows hw * Cols hw /\ Rows hw <= Rows hw * Cols hw) as [B1 B2] by nia.
  assert (Rows ow <= Rows ow * Cols ow) as B3 by nia.
  pose proof (len_nonneg target) as Hn.
  unfold Train. apply bind_Panic. unfold Train_body.
  rewrite (bind_eq _ _ w w _ (lift_eq _ _ w (NewDense_column input ltac:(lia)))).
  rewrite (bind_eq _ _ w w hw) by (apply deref_eq; assumption).
  rewrite (bind_eq _ _ w w _ (lift_eq _ _ w (dot_column hw input Wh ltac:(lia)))).
  assert (len (Spec.matvec (Spec.rows_of hw) input) = Rows hw) as L1
    by (apply len_matvec; lia).
  rewrite (bind_eq _ _ w w _
             (lift_eq _ _ w (apply_column Exp (Spec.matvec (Spec.rows_of hw) input)
                               ltac:(lia)))).
  rewrite (bind_eq _ _ w w ow) by (apply deref_eq; assumption).
  assert (len (Spec.logistic Exp <$> Spec.matvec (Spec.rows_of hw) input) = Cols ow) as L2
    by (rewrite len_fmap; lia).
  rewrite (bind_eq _ _ w w _ (lift_eq _ _ w (dot_column ow _ Wo L2))).
  assert (len (Spec.matvec (Spec.rows_of ow)
                 (Spec.logistic Exp <$> Spec.matvec (Spec.rows_of hw) input)) = Rows ow) as L3
    by (apply len_matvec; lia).
  rewrite (bind_eq _ _ w w _
             (lift_eq _ _ w (apply_column Exp _ ltac:(rewrite L3; lia)))).
  destruct (len target =? 0) eqn:E0.
  - apply Z.eqb_eq in E0. apply bind_Panic, lift_Panic, NewDense_empty. exact E0.
  - apply Z.eqb_neq in E0.
    rewrite (bind_eq _ _ w w _ (lift_eq _ _ w (NewDense_column target ltac:(lia)))).
    apply bind_Panic, lift_Panic.
    apply (subtract_mismatch _ _ (len target) 1); try reflexivity; try lia.
    simpl. rewrite len_fmap, L3. intros H. inversion H. lia.
Qed.

Lemma Train_rejects_target_length_witness :
  Train exp_crude ex_net ex_input [F64.one; F64.one] ex_world
  = Panic (if len [F64.one; F64.one] =? 0 then "mat: zero length in matrix dimension"
           else "mat: dimension mismatch").
Proof.
  apply (Train_rejects_target_length exp_crude ex_net ex_input [F64.one; F64.one] ex_world).
  - exact network_ok_ex.
  - reflexivity.
  - vm_compute. lia.
  - reflexivity.
Defined.

(** *** What a training step leaves behind *)



(** X7. A training step changes no prediction: after [Train] on a network
    of the configured shapes, [Predict] returns for every input what it
    returned before the step. *)
Theorem Train_changes_no_prediction (Exp : float64 -> float64) (net : Network)
    (input target x : list float64) (w : World) :
  network_ok net w -> len input = inputs net -> len target = outputs net ->
  exists w',
    Train Exp net input target w = Ok (tt, w')
    /\ result_of (Predict Exp net x w') = result_of (Predict Exp net x w).
Proof.
  intros K Hin Htg. pose proof K as (_ & hw & ow & Hhw & How & Wh & Wo & Dh & Do).
  pose proof Dh as Dh'. pose proof Do as Do'.
  simpl in Dh', Do'. inversion Dh' as [[Eh1 Eh2]]. inversion Do' as [[Eo1 Eo2]].
  destruct (Train_body_ok Exp net input target w hw ow Hhw How Wh Wo
              ltac:(congruence) ltac:(congruence) ltac:(congruence))
    as (new_ow & new_hw & E & _).
  eexists. split.
  { unfold Train. rewrite (bind_eq _ _ _ _ _ E). reflexivity. }
  apply Predict_window; cbn [heap set_heap];
    (rewrite lookup_app_l; [reflexivity|eapply lookup_lt_Some; eassumption]).
Qed.

Lemma Train_changes_no_prediction_witness :
  exists w',
    Train exp_crude ex_net ex_input ex_target ex_world = Ok (tt, w')
    /\ result_of (Predict exp_crude ex_net ex_input w')
       = result_of (Predict exp_crude ex_net ex_input ex_world).
Proof.
  apply (Train_changes_no_prediction exp_crude ex_net ex_input ex_target ex_input ex_world).
  - exact network_ok_ex.
  - reflexivity.
  - reflexivity.
Defined.

(** *** Construction *)

Lemma NewDense_nonpositive (r c : Z) (data : option (list float64)) :
  r <= 0 \/ c <= 0 -> exists msg, mat.NewDense r c data = Panic msg.
Proof.
  intros H. unfold mat.NewDense.
  destruct ((r <=? 0) || (c <=? 0)) eqn:E.
  - destruct ((r =? 0) || (c =? 0)); eauto.
  - apply orb_false_iff in E. destruct E as [E1 E2]. lia.
Qed.

Lemma randomArray_negative (size : Z) (v : float64) (w : World) :
  size < 0 -> randomArray size v w = Panic "makeslice: len out of range".
Proof.
  intros H. unfold randomArray, mat.make.
  destruct (size <? 0) eqn:E; [reflexivity|lia].
Qed.

(** X8. [NewNetwork] has no check of its own on the three sizes: when one
    of them is zero or negative it panics, in [make] or in
    [mat.NewDense], and no network is returned. *)
Theorem NewNetwork_rejects_sizes (i h o : Z) (rate : float64) (w : World) :
  i <= 0 \/ h <= 0 \/ o <= 0 ->
  - 2 ^ 63 <= i * h < 2 ^ 63 -> - 2 ^ 63 <= o * h < 2 ^ 63 ->
  exists msg, NewNetwork i h o rate w = Panic msg.
Proof.
  intros Hs M1 M2. unfold NewNetwork. rewrite !int_mul_small by assumption.
  destruct (Z_lt_le_dec (i * h) 0) as [N1|P1].
  { eexists. apply bind_Panic, randomArray_negative. exact N1. }
  rewrite (bind_eq _ _ _ _ _ (randomArray_eq (i * h) i w P1)).
  set (w1 := advance w _).
  destruct (Z_le_gt_dec i 0) as [Hi|Hi].
  { destruct (NewDense_nonpositive h i (Some (init_cells i w (Z.to_nat (i * h))))
                ltac:(lia)) as [msg E].
    exists msg. apply bind_Panic, lift_Panic, E. }
  destruct (Z_le_gt_dec h 0) as [Hh|Hh].
  { destruct (NewDense_nonpositive h i (Some (init_cells i w (Z.to_nat (i * h))))
                ltac:(lia)) as [msg E].
    exists msg. apply bind_Panic, lift_Panic, E. }
  assert (o <= 0) as Ho by lia.
  erewrite (bind_eq _ _ w1 w1); cycle 1.
  { apply lift_eq, NewDense_Some; try lia. rewrite len_init_cells; nia. }
  rewrite (bind_eq _ _ w1 _ (length (heap w1)) eq_refl).
  set (w2 := set_heap w1 _).
  destruct (Z_lt_le_dec (o * h) 0) as [N2|P2].
  { eexists. apply bind_Panic, randomArray_negative. exact N2. }
  rewrite (bind_eq _ _ _ _ _ (randomArray_eq (o * h) h w2 P2)).
  destruct (NewDense_nonpositive o h
              (Some (init_cells h w2 (Z.to_nat (o * h)))) ltac:(lia)) as [msg E].
  exists msg. apply bind_Panic, lift_Panic, E.
Qed.

Lemma NewNetwork_rejects_sizes_witness :
  exists msg, NewNetwork 784 0 10 F64.c0_01 ex_world = Panic msg.
Proof.
  apply (NewNetwork_rejects_sizes 784 0 10 F64.c0_01 ex_world); lia.
Defined.


(** *** The two files *)

Lemma length_bind_8 (xs : list float64) :
  length (xs ≫= (fun x => binary.PutUint64 (F64.Float64bits x))) = (8 * length xs)%nat.
Proof.
  induction xs as [|x xs IH]; [reflexivity|].
  rewrite list_bind_cons, length_app, length_PutUint64, IH. simpl. lia.
Qed.

Lemma len_encoding (d : Dense) :
  well_formed d -> len (encoding d) = 40 + 8 * (Rows d * Cols d).
Proof.
  intros Hwf. pose proof Hwf as (_ & _ & _ & HD & _).
  unfold encoding, len in *. rewrite length_app, length_header.
  rewrite marshal_cells_data, length_bind_8 by assumption. lia.
Qed.

(** X10. [save] writes the hidden weights before it creates the output
    file, so it is not atomic: when the output file cannot be created,
    [save] returns the error after the hidden-weights file has been
    replaced by the new encoding, and the output-weights file is left as
    it was.  When the hidden-weights file cannot be created, [save]
    returns the error and nothing has changed. *)
Theorem save_not_atomic (net : Network) (w : World) (hw : Dense) :
  heap w !! hiddenWeights net = Some hw -> well_formed hw ->
  output_path ∈ unwritable w ->
  (hidden_path ∈ unwritable w -> save net w = Ok (Some ErrPermission, w))
  /\ (hidden_path ∉ unwritable w ->
      save net w
      = Ok (Some ErrPermission,
            set_files w (<[hidden_path := encoding hw]> (files w)))).
Proof.
  intros Hhw Wh Po. split; intros Ph; unfold save.
  - unfold mbind at 1, M_bind at 1, os.Create at 1.
    destruct (decide (hidden_path ∈ unwritable w)) as [_|]; [reflexivity|contradiction].
  - unfold mbind at 1, M_bind at 1, os.Create at 1.
    destruct (decide (hidden_path ∈ unwritable w)) as [|_]; [contradiction|].
    set (w1 := set_files w (<[hidden_path := []]> (files w))).
    rewrite (bind_eq _ _ w1 w1 hw) by (apply deref_eq; exact Hhw).
    rewrite (bind_eq _ _ w1 w1 _ (lift_eq _ _ w1 (Marshal_encoding hw Wh))).
    unfold mbind at 1, M_bind at 1, os.append at 1.
    cbn [files set_files w1]. rewrite lookup_insert_eq. cbn [default app].
    rewrite insert_insert_eq.
    set (w2 := set_files _ _).
    unfold mbind at 1, M_bind at 1, os.Create at 1.
    destruct (decide (output_path ∈ unwritable w2)) as [_|N]; [reflexivity|].
    exfalso. apply N. exact Po.
Qed.

Lemma save_not_atomic_witness :
  (hidden_path ∈ unwritable locked_world ->
   save ex_net locked_world = Ok (Some ErrPermission, locked_world))
  /\ (hidden_path ∉ unwritable locked_world ->
      save ex_net locked_world
      = Ok (Some ErrPermission,
            set_files locked_world
              (<[hidden_path := encoding ex_hidden]> (files locked_world)))).
Proof.
  apply (save_not_atomic ex_net locked_world ex_hidden).
  - reflexivity.
  - exact well_formed_ex_hidden.
  - simpl. apply elem_of_singleton. reflexivity.
Defined.

(** X11. [save] and then [load] restore the two matrices cell for cell:
    after [save] on a network with well-formed matrices of binary64
    numbers and [load] into any network with two distinct matrices, the
    loaded network's hidden and output weights have the rows, columns and
    cells of the saved ones, and each file is [40 + 8 * rows * cols]
    bytes long. *)
Theorem save_load_restores (net1 net2 : Network) (w : World) (hw ow : Dense) :
  heap w !! hiddenWeights net1 = Some hw ->
  heap w !! outputWeights net1 = Some ow ->
  well_formed hw -> well_formed ow -> valid_cells hw -> valid_cells ow ->
  hidden_path ∉ unwritable w -> output_path ∉ unwritable w ->
  hiddenWeights net2 <> outputWeights net2 ->
  is_Some (heap w !! hiddenWeights net2) ->
  is_Some (heap w !! outputWeights net2) ->
  exists w1 w2,
    save net1 w = Ok (None, w1)
    /\ len <$> files w1 !! hidden_path = Some (40 + 8 * (Rows hw * Cols hw))
    /\ len <$> files w1 !! output_path = Some (40 + 8 * (Rows ow * Cols ow))
    /\ load net2 w1 = Ok (None, w2)
    /\ window <$> heap w2 !! hiddenWeights net2 = Some (window hw)
    /\ window <$> heap w2 !! outputWeights net2 = Some (window ow).
Proof.
  intros Hhw How Wh Wo Vh Vo Ph Po Hne [d1 Hd1] [d2 Hd2].
  destruct (Unmarshal_encoding hw d1 Wh Vh) as (m1 & Hu1 & Hw1).
  destruct (Unmarshal_encoding ow d2 Wo Vo) as (m2 & Hu2 & Hw2).
  eexists. eexists.
  split; [apply (save_ok net1 w hw ow); assumption|].
  cbn [files set_files heap].
  split; [|split; [|split; [|split]]].
  - rewrite lookup_insert_ne by discriminate. rewrite lookup_insert_eq. simpl.
    rewrite len_encoding by assumption. reflexivity.
  - rewrite lookup_insert_eq. simpl. rewrite len_encoding by assumption. reflexivity.
  - apply (load_both net2 _ (encoding hw) (encoding ow) d1 m1 d2 m2 None);
      try assumption.
    + cbn [files set_files]. rewrite lookup_insert_ne by discriminate.
      apply lookup_insert_eq.
    + cbn [files set_files]. apply lookup_insert_eq.
  - cbn [heap set_heap set_files].
    destruct (lookup_after_load (heap w) _ _ m1 m2 d1 d2 Hne Hd1 Hd2) as [L1 _].
    rewrite L1. simpl. rewrite Hw1. reflexivity.
  - cbn [heap set_heap set_files].
    destruct (lookup_after_load (heap w) _ _ m1 m2 d1 d2 Hne Hd1 Hd2) as [_ L2].
    rewrite L2. simpl. rewrite Hw2. reflexivity.
Qed.

Lemma save_load_restores_witness :
  exists w1 w2,
    save ex_net ex_world = Ok (None, w1)
    /\ len <$> files w1 !! hidden_path = Some (40 + 8 * (Rows ex_hidden * Cols ex_hidden))
    /\ len <$> files w1 !! output_path = Some (40 + 8 * (Rows ex_output * Cols ex_output))
    /\ load ex_net w1 = Ok (None, w2)
    /\ window <$> heap w2 !! hiddenWeights ex_net = Some (window ex_hidden)
    /\ window <$> heap w2 !! outputWeights ex_net = Some (window ex_output).
Proof.
  apply (save_load_restores ex_net ex_net ex_world ex_hidden ex_output).
  - reflexivity.
  - reflexivity.
  - exact well_formed_ex_hidden.
  - exact well_formed_ex_output.
  - exact valid_cells_ex_hidden.
  - exact valid_cells_ex_output.
  - simpl. apply not_elem_of_empty.
  - simpl. apply not_elem_of_empty.
  - simpl. discriminate.
  - simpl. eauto.
  - simpl. eauto.
Defined.

(** X12. A [load] that fails on the hidden-weights file leaves the
    network unusable: when the file is shorter than a header, [load]
    returns the unexpected-EOF error, the hidden weights are by then the
    empty matrix, and every later [Predict] panics. *)
Theorem failed_load_breaks_Predict (net : Network) (w : World) (r : list byte)
    (d : Dense) :
  files w !! hidden_path = Some r -> len r < codec.headerSize ->
  heap w !! hiddenWeights net = Some d ->
  exists w',
    load net w = Ok (Some ErrUnexpectedEOF, w')
    /\ heap w' !! hiddenWeights net = Some (mat.Reset d)
    /\ forall Exp x, exists msg, Predict Exp net x w' = Panic msg.
Proof.
  intros Hf Hr Hd. pose proof (lookup_lt_Some _ _ _ Hd) as Hlt.
  exists (set_heap w (<[hiddenWeights net := mat.Reset d]> (heap w))).
  assert (heap (set_heap w (<[hiddenWeights net := mat.Reset d]> (heap w)))
            !! hiddenWeights net = Some (mat.Reset d)) as Hnew.
  { cbn [heap set_heap]. apply list_lookup_insert_eq. exact Hlt. }
  split; [|split; [exact Hnew|]].
  - unfold load. unfold mbind at 1, M_bind at 1, os.Open at 1. rewrite Hf.
    rewrite (bind_eq _ _ _ _ _
               (reset_and_read_eq _ _ w d _ _ Hd (Unmarshal_short d r Hr))).
    reflexivity.
  - intros Exp x. set (w' := set_heap w _) in *. unfold Predict.
    destruct (mat.NewDense (len x) 1 (Some x)) as [xm|msg] eqn:Ex.
    2:{ exists msg. apply bind_Panic, lift_Panic. reflexivity. }
    rewrite (bind_eq _ _ w' w' xm) by reflexivity.
    rewrite (bind_eq _ _ w' w' _ (deref_eq _ _ _ Hnew)).
    eexists. apply bind_Panic, lift_Panic. reflexivity.
Qed.

Lemma failed_load_breaks_Predict_witness :
  exists w',
    load ex_net short_world = Ok (Some ErrUnexpectedEOF, w')
    /\ heap w' !! hiddenWeights ex_net = Some (mat.Reset ex_hidden)
    /\ forall Exp x, exists msg, Predict Exp ex_net x w' = Panic msg.
Proof.
  apply (failed_load_breaks_Predict ex_net short_world [x01; x00; x00] ex_hidden).
  - reflexivity.
  - reflexivity.
  - reflexivity.
Defined.

(** *** The driver's reading of a record *)

Lemma foldl_Panic {A B : Type} (f : Res A -> B -> Res A) (l : list B) (msg : string) :
  (forall b, f (Panic msg) b = Panic msg) -> foldl f (Panic msg) l = Panic msg.
Proof.
  intros H. induction l as [|b l IH]; [reflexivity|]. cbn [foldl]. rewrite H. exact IH.
Qed.

(** The loop over the input cells after [k] rounds. *)
Lemma record_inputs_prefix (record : list Z) (n k : nat) :
  (k <= n)%nat -> (k <= length record)%nat ->
  foldl (fun acc i =>
           data ← acc;
           match record !! i with
           | Some x => Ok (<[i := scale_pixel (F64.of_int x)]> data)
           | None => Panic "index out of range"
           end)
        (Ok (replicate n F64.zero)) (seq 0 k)
  = Ok (((fun x => scale_pixel (F64.of_int x)) <$> take k record)
          ++ replicate (n - k) F64.zero).
Proof.
  intros Hn Hr. induction k as [|k IH].
  - cbn [seq foldl take fmap list_fmap app]. rewrite Nat.sub_0_r. reflexivity.
  - rewrite seq_S, foldl_app, IH by lia. cbn [foldl mbind Res_bind Nat.add].
    destruct (record !! k) as [x|] eqn:E; [|apply lookup_ge_None in E; lia].
    rewrite (take_S_r _ _ _ E), fmap_app. cbn [fmap list_fmap].
    rewrite <- app_assoc. cbn [app]. f_equal.
    replace (n - k)%nat with (S (n - S k)) by lia. cbn [replicate].
    assert (length ((fun x => scale_pixel (F64.of_int x)) <$> take k record) = k) as L.
    { rewrite length_fmap, length_take. lia. }
    rewrite <- L at 1. rewrite <- (Nat.add_0_r (length _)) at 1.
    rewrite insert_app_r. reflexivity.
Qed.

(** The loop over the input cells, run to its end. *)
Lemma record_inputs_take (net : Network) (record : list Z) :
  0 <= inputs net ->
  record_inputs net record
  = if len record <? inputs net then Panic "index out of range"
    else Ok ((fun x => scale_pixel (F64.of_int x))
               <$> take (Z.to_nat (inputs net)) record).
Proof.
  intros Hn. unfold record_inputs, mat.make.
  destruct (inputs net <? 0) eqn:E; [lia|]. cbn [mbind Res_bind].
  rewrite length_replicate. set (n := Z.to_nat (inputs net)).
  destruct (len record <? inputs net) eqn:Es.
  - apply Z.ltb_lt in Es. unfold len in Es.
    replace n with (length record + (n - length record))%nat by lia.
    rewrite seq_app, foldl_app.
    rewrite (record_inputs_prefix record _ (length record)) by lia.
    destruct (n - length record)%nat as [|m] eqn:Em; [lia|].
    cbn [seq foldl mbind Res_bind Nat.add].
    rewrite (proj2 (lookup_ge_None record (length record)) ltac:(lia)).
    apply foldl_Panic. reflexivity.
  - apply Z.ltb_ge in Es. unfold len in Es.
    rewrite (record_inputs_prefix record n n) by lia.
    rewrite Nat.sub_diag, app_nil_r. reflexivity.
Qed.


(** X13. The input vector of a record is read from its first [inputs]
    fields: cell [i] is the scaled field [i], so the first cell comes
    from the label field and the field at index [inputs] is not read.  A
    record with fewer than [inputs] fields makes the loop panic, and a
    negative [inputs] the allocation before it. *)
Theorem record_inputs_fields (net : Network) (record : list Z) :
  record_inputs net record
  = if inputs net <? 0 then Panic "makeslice: len out of range"
    else if len record <? inputs net then Panic "index out of range"
    else Ok ((fun x => scale_pixel (F64.of_int x))
               <$> take (Z.to_nat (inputs net)) record).
Proof.
  destruct (inputs net <? 0) eqn:E.
  - unfold record_inputs, mat.make. rewrite E. reflexivity.
  - apply record_inputs_take. lia.
Qed.

(** X14. The target vector of a record has [outputs] cells, [0.99] at the
    index the label names and [0.01] at every other, when the label is an
    index of the vector; any other label makes the assignment panic. *)
Theorem record_targets_label (net : Network) (label : Z) (fields : list Z) :
  0 <= outputs net ->
  (0 <= label < outputs net ->
   exists targets,
     record_targets net (label :: fields) = Ok targets
     /\ len targets = outputs net
     /\ targets !! Z.to_nat label = Some F64.c0_99
     /\ (forall i, i <> Z.to_nat label -> (i < Z.to_nat (outputs net))%nat ->
           targets !! i = Some F64.c0_01))
  /\ (~ 0 <= label < outputs net ->
      record_targets net (label :: fields) = Panic "index out of range").
Proof.
  intros Hn. split.
  - apply record_targets_one_hot.
  - intros Hout. unfold record_targets, mat.make.
    destruct (outputs net <? 0) eqn:E; [lia|]. cbn [mbind Res_bind lookup list_lookup].
    rewrite len_fmap, len_replicate by lia.
    destruct ((label <? 0) || (outputs net <=? label)) eqn:El; [reflexivity|].
    apply orb_false_iff in El. destruct El as [E1 E2]. lia.
Qed.

Lemma record_targets_label_witness :
  (0 <= 0 < outputs ex_net ->
   exists targets,
     record_targets ex_net (0 :: [255; 0]) = Ok targets
     /\ len targets = outputs ex_net
     /\ targets !! Z.to_nat 0 = Some F64.c0_99
     /\ (forall i, i <> Z.to_nat 0 -> (i < Z.to_nat (outputs ex_net))%nat ->
           targets !! i = Some F64.c0_01))
  /\ (~ 0 <= 0 < outputs ex_net ->
      record_targets ex_net (0 :: [255; 0]) = Panic "index out of range").
Proof. apply (record_targets_label ex_net 0 [255; 0]). simpl. lia. Defined.

(** *** The choice of the best output *)

Lemma At_checked_column (out : list float64) (i : Z) :
  0 <= i < len out ->
  mat.At_checked (MDense (column out)) i 0 = Ok (cell out i).
Proof.
  intros H. unfold mat.At_checked. cbn [column dense_of Rows Cols].
  destruct (i <? 0) eqn:E1; [lia|]. destruct (len out <=? i) eqn:E2; [lia|].
  cbn [orb]. change ((0 <? 0) || (1 <=? 0)) with false. cbn iota.
  f_equal. apply cell_column.
Qed.

Lemma best_step_pick (out : list float64) (st : Z * float64) (i : Z) :
  0 <= i < len out ->
  best_step (MDense (column out)) (Ok st) i = Ok (pick out st i).
Proof.
  intros H. unfold best_step, pick. cbn [mbind Res_bind].
  rewrite At_checked_column by exact H. cbn [mbind Res_bind].
  destruct (F64.ltb (snd st) (cell out i)); reflexivity.
Qed.

Lemma best_fold_pick (out : list float64) (l : list Z) (st : Z * float64) :
  Forall (fun i => 0 <= i < len out) l ->
  foldl (best_step (MDense (column out))) (Ok st) l = Ok (foldl (pick out) st l).
Proof.
  intros H. revert st. induction H as [|i l Hi Hl IH]; intros st; [reflexivity|].
  cbn [foldl]. rewrite best_step_pick by exact Hi. apply IH.
Qed.

Lemma placed_cell (out : list float64) (j : Z) :
  Forall placed out -> placed (cell out j).
Proof.
  intros H. unfold cell. destruct (out !! Z.to_nat j) as [x|] eqn:E.
  - exact (proj1 (Forall_lookup _ _) H _ _ E).
  - right. apply finite_valid_zero.
Qed.

Lemma ltb_nan_l (a b : float64) : F64.is_nan a = true -> F64.ltb a b = false.
Proof. destruct a; try discriminate. reflexivity. Qed.

Lemma ltb_nan_r (a b : float64) : F64.is_nan b = true -> F64.ltb a b = false.
Proof. destruct b; try discriminate. destruct a; reflexivity. Qed.

Lemma ltb_placed (a b : float64) :
  placed a -> placed b -> F64.ltb a b = true ->
  finite_valid a /\ finite_valid b /\ ulps a < ulps b.
Proof.
  intros [Na|Fa] [Nb|Fb] H.
  - rewrite ltb_nan_l in H by exact Na. discriminate.
  - rewrite ltb_nan_l in H by exact Na. discriminate.
  - rewrite ltb_nan_r in H by exact Nb. discriminate.
  - split; [exact Fa|]. split; [exact Fb|]. apply ltb_ulps; assumption.
Qed.

Lemma ltb_false_ulps (a b : float64) :
  finite_valid a -> finite_valid b -> F64.ltb a b = false -> ulps b <= ulps a.
Proof.
  intros Fa Fb H. destruct (Z_lt_le_dec (ulps a) (ulps b)) as [L|G]; [|exact G].
  apply (ltb_ulps a b Fa Fb) in L. congruence.
Qed.

Lemma ltb_false_of_ulps (a b : float64) :
  finite_valid a -> placed b -> (finite_valid b -> ulps b <= ulps a) ->
  F64.ltb a b = false.
Proof.
  intros Fa [Nb|Fb] H; [apply ltb_nan_r; exact Nb|].
  destruct (F64.ltb a b) eqn:E; [|reflexivity].
  apply (ltb_ulps a b Fa Fb) in E. specialize (H Fb). lia.
Qed.

(** One round keeps what the loop holds. *)
Lemma pick_keeps (out : list float64) (k : Z) (st : Z * float64) :
  Forall placed out -> 0 <= k ->
  best_so_far out k st -> best_so_far out (k + 1) (pick out st k).
Proof.
  intros Hp Hk Inv. pose proof (placed_cell out k Hp) as Pv.
  assert (finite_valid (snd st) /\ 0 <= ulps (snd st)
          /\ forall j, 0 <= j < k -> finite_valid (cell out j) ->
               ulps (cell out j) <= ulps (snd st)) as (Fh & Hh & Hbelow).
  { destruct Inv as [(Eb & Eh & Hz)|(Hb & Eh & Hpos & Hmax & Hfirst)].
    - rewrite Eh. split; [apply finite_valid_zero|]. split; [cbn [ulps F64.zero]; lia|].
      intros j Hj Fj. apply ltb_false_ulps; [apply finite_valid_zero|exact Fj|].
      apply Hz. exact Hj.
    - destruct (ltb_placed F64.zero (snd st) (or_intror (finite_valid_zero false))
                  ltac:(rewrite Eh; apply placed_cell; exact Hp) Hpos) as (_ & Fh & Lh).
      cbn [ulps F64.zero] in Lh. split; [exact Fh|]. split; [lia|].
      intros j Hj Fj. apply ltb_false_ulps; [exact Fh|exact Fj|]. apply Hmax. exact Hj. }
  unfold pick. destruct (F64.ltb (snd st) (cell out k)) eqn:E.
  - destruct (ltb_placed _ _ (or_intror Fh) Pv E) as (_ & Fv & Lv).
    right. cbn [fst snd]. split; [lia|]. split; [reflexivity|]. split; [|split].
    + apply ltb_ulps; [apply finite_valid_zero|exact Fv|]. cbn [ulps F64.zero]. lia.
    + intros j Hj. apply ltb_false_of_ulps; [exact Fv|apply placed_cell; exact Hp|].
      intros Fj. destruct (Z.eq_dec j k) as [->|Hne]; [lia|].
      specialize (Hbelow j ltac:(lia) Fj). lia.
    + intros j Hj. destruct (placed_cell out j Hp) as [Nj|Fj]; [right; exact Nj|].
      left. apply ltb_ulps; [exact Fj|exact Fv|].
      specialize (Hbelow j ltac:(lia) Fj). lia.
  - destruct Inv as [(Eb & Eh & Hz)|(Hb & Eh & Hpos & Hmax & Hfirst)].
    + left. split; [exact Eb|]. split; [exact Eh|]. intros j Hj.
      destruct (Z.eq_dec j k) as [->|Hne]; [rewrite <- Eh; exact E|].
      apply Hz. lia.
    + right. split; [lia|]. split; [exact Eh|]. split; [exact Hpos|]. split; [|exact Hfirst].
      intros j Hj. destruct (Z.eq_dec j k) as [->|Hne]; [exact E|]. apply Hmax. lia.
Qed.

Lemma seqZ_snoc (k : nat) : seqZ 0 (Z.of_nat (S k)) = seqZ 0 (Z.of_nat k) ++ [Z.of_nat k].
Proof.
  replace (Z.of_nat (S k)) with (Z.of_nat k + 1) by lia.
  rewrite seqZ_app by lia. f_equal.
Qed.

Lemma pick_fold (out : list float64) (k : nat) :
  Forall placed out ->
  best_so_far out (Z.of_nat k) (foldl (pick out) (0, F64.zero) (seqZ 0 (Z.of_nat k))).
Proof.
  intros Hp. induction k as [|k IH].
  - left. cbn [fst snd foldl]. split; [reflexivity|]. split; [reflexivity|].
    intros j Hj. lia.
  - rewrite seqZ_snoc, foldl_app. cbn [foldl].
    replace (Z.of_nat (S k)) with (Z.of_nat k + 1) by lia.
    apply pick_keeps; [exact Hp|lia|exact IH].
Qed.

(** X15. The loop of [mnistPredict] over an output column whose cells are
    NaN or finite: if no cell is above 0 it answers 0; otherwise it
    answers the first index whose cell no cell exceeds, and every
    number before that index is smaller. *)
Theorem best_output_first_maximum (out : list float64) :
  Forall placed out ->
  exists b,
    best_output (MDense (column out)) (len out) = Ok b
    /\ ((b = 0 /\ forall j, 0 <= j < len out -> F64.ltb F64.zero (cell out j) = false)
        \/ (0 <= b < len out
            /\ F64.ltb F64.zero (cell out b) = true
            /\ (forall j, 0 <= j < len out -> F64.ltb (cell out b) (cell out j) = false)
            /\ (forall j, 0 <= j < b ->
                  F64.ltb (cell out j) (cell out b) = true
                  \/ F64.is_nan (cell out j) = true))).
Proof.
  intros Hp. unfold best_output.
  rewrite best_fold_pick.
  2:{ apply Forall_forall. intros i Hi. apply elem_of_seqZ in Hi. lia. }
  eexists. split; [reflexivity|].
  pose proof (pick_fold out (length out) Hp) as Inv. fold (len out) in Inv.
  destruct (foldl (pick out) (0, F64.zero) (seqZ 0 (len out))) as [b hi].
  cbn [fmap Res_fmap fst] in *.
  destruct Inv as [(Eb & Eh & Hz)|(Hb & Eh & Hpos & Hmax & Hfirst)]; cbn [fst snd] in *.
  - left. split; assumption.
  - right. subst hi. repeat split; try assumption; lia.
Qed.

Lemma best_output_first_maximum_witness :
  exists b,
    best_output (MDense (column [F64.zero; F64.one; F64.one]))
      (len [F64.zero; F64.one; F64.one]) = Ok b
    /\ ((b = 0 /\ forall j, 0 <= j < len [F64.zero; F64.one; F64.one] ->
                    F64.ltb F64.zero (cell [F64.zero; F64.one; F64.one] j) = false)
        \/ (0 <= b < len [F64.zero; F64.one; F64.one]
            /\ F64.ltb F64.zero (cell [F64.zero; F64.one; F64.one] b) = true
            /\ (forall j, 0 <= j < len [F64.zero; F64.one; F64.one] ->
                  F64.ltb (cell [F64.zero; F64.one; F64.one] b)
                    (cell [F64.zero; F64.one; F64.one] j) = false)
            /\ (forall j, 0 <= j < b ->
                  F64.ltb (cell [F64.zero; F64.one; F64.one] j)
                    (cell [F64.zero; F64.one; F64.one] b) = true
                  \/ F64.is_nan (cell [F64.zero; F64.one; F64.one] j) = true))).
Proof.
  apply (best_output_first_maximum [F64.zero; F64.one; F64.one]).
  repeat (constructor; [right; split; reflexivity|]). constructor.
Defined.

(** *** A record, from its fields to the score *)

Lemma inverse_placed (e : float64) :
  F64.valid e = true -> F64.signbit e = false ->
  placed (F64.div F64.one (F64.add F64.one e)).
Proof.
  intros V S. destruct e as [s|s| |s m x]; cbn [F64.signbit] in S; subst.
  - right. split; reflexivity.
  - right. split; reflexivity.
  - left. reflexivity.
  - assert (finite_valid (S754_finite false m x)) as Fe by (split; [exact V|reflexivity]).
    pose proof (ulps_finite_pos m x V) as Ue.
    set (e := S754_finite false m x) in *.
    assert (ulps e = Z.pos m * 2 ^ (x + 1074)) as Uv by reflexivity.
    pose proof (add_valid F64.one e ltac:(reflexivity) V) as Vq.
    pose proof (add_ge F64.one e F64.one finite_valid_one Fe finite_valid_one ltac:(lia))
      as Lq.
    destruct (F64.add F64.one e) as [sq|sq| |sq mq xq] eqn:Eq.
    + discriminate.
    + destruct sq; [discriminate|]. right. split; reflexivity.
    + discriminate.
    + right. rewrite <- Eq in *.
      assert (finite_valid (F64.add F64.one e)) as Fq.
      { split; [exact Vq|rewrite Eq; reflexivity]. }
      apply (leb_ulps _ _ finite_valid_one Fq) in Lq.
      destruct (div_le_one F64.one (F64.add F64.one e) finite_valid_one Fq) as [Fr Ur].
      * rewrite ulps_one in *. pose proof (pow2_pos 1074). lia.
      * rewrite ulps_one in *. pose proof (pow2_pos 1074). lia.
      * exact Fr.
Qed.

Lemma forward_placed (Exp : float64 -> float64) (hw ow : Dense) (x : list float64) :
  ExpContract Exp -> Forall placed (Spec.forward Exp hw ow x).
Proof.
  intros C. unfold Spec.forward. apply Forall_fmap, Forall_forall. intros z _.
  cbn [compose]. unfold Spec.logistic. apply inverse_placed.
  - apply (Exp_valid Exp C).
  - apply (Exp_sign Exp C).
Qed.

Lemma len_record_inputs (net : Network) (record : list Z) :
  0 <= inputs net <= len record ->
  len ((fun x => scale_pixel (F64.of_int x)) <$> take (Z.to_nat (inputs net)) record)
  = inputs net.
Proof.
  intros H. rewrite len_fmap. unfold len in *. rewrite length_take. lia.
Qed.

(** X16. The body of [mnistPredict] for one record, on a network of the
    configured shapes: a record with at least [inputs] fields is scored
    without a panic and without a change to the world; the score goes up
    exactly when the label equals the index the loop over the outputs
    picks, which is 0 when no output is above 0 and otherwise the first
    index of a greatest output. *)
Theorem predict_record_scores (Exp : float64 -> float64) (net : Network)
    (record : list Z) (w : World) :
  ExpContract Exp -> network_ok net w -> inputs net <= len record ->
  exists label b out,
    record !! 0%nat = Some label
    /\ Predict Exp net ((fun x => scale_pixel (F64.of_int x))
                          <$> take (Z.to_nat (inputs net)) record) w
       = Ok (MDense (column out), w)
    /\ len out = outputs net
    /\ predict_record Exp net record w = Ok (b =? label, w)
    /\ ((b = 0 /\ forall j, 0 <= j < len out -> F64.ltb F64.zero (cell out j) = false)
        \/ (0 <= b < len out
            /\ F64.ltb F64.zero (cell out b) = true
            /\ (forall j, 0 <= j < len out -> F64.ltb (cell out b) (cell out j) = false)
            /\ (forall j, 0 <= j < b ->
                  F64.ltb (cell out j) (cell out b) = true
                  \/ F64.is_nan (cell out j) = true))).
Proof.
  intros C (_ & hw & ow & Hhw & How & Wh & Wo & Dh & Do) Hrec.
  assert (Rows hw = hiddens net /\ Cols hw = inputs net) as [Eh1 Eh2]
    by (simpl in Dh; inversion Dh; auto).
  assert (Rows ow = outputs net /\ Cols ow = hiddens net) as [Eo1 Eo2]
    by (simpl in Do; inversion Do; auto).
  pose proof Wh as (Hr & Hc & _).
  pose proof Wo as (Hr' & Hc' & _).
  destruct record as [|label fields]; [unfold len in Hrec; simpl in Hrec; lia|].
  set (record := label :: fields) in *.
  set (ins := (fun x => scale_pixel (F64.of_int x)) <$> take (Z.to_nat (inputs net)) record).
  assert (len ins = inputs net) as Lins by (apply len_record_inputs; lia).
  set (out := Spec.forward Exp hw ow ins).
  assert (len out = outputs net) as Lout by (unfold out; rewrite len_forward; lia).
  pose proof (Predict_forward Exp net ins w hw ow Hhw How Wh Wo
                ltac:(congruence) ltac:(congruence)) as EP. fold out in EP.
  assert (exists b,
    best_output (MDense (column out)) (len out) = Ok b
    /\ ((b = 0 /\ forall j, 0 <= j < len out -> F64.ltb F64.zero (cell out j) = false)
        \/ (0 <= b < len out
            /\ F64.ltb F64.zero (cell out b) = true
            /\ (forall j, 0 <= j < len out -> F64.ltb (cell out b) (cell out j) = false)
            /\ (forall j, 0 <= j < b ->
                  F64.ltb (cell out j) (cell out b) = true
                  \/ F64.is_nan (cell out j) = true)))) as (b & Eb & Hb).
  { unfold best_output. rewrite best_fold_pick.
    2:{ apply Forall_forall. intros i Hi. apply elem_of_seqZ in Hi. lia. }
    eexists. split; [reflexivity|].
    pose proof (pick_fold out (length out) (forward_placed Exp hw ow ins C)) as Inv.
    fold (len out) in Inv.
    destruct (foldl (pick out) (0, F64.zero) (seqZ 0 (len out))) as [b hi].
    cbn [fmap Res_fmap fst] in *.
    destruct Inv as [(Eb & Eh & Hz)|(Hb & Eh & Hpos & Hmax & Hfirst)]; cbn [fst snd] in *.
    - left. split; assumption.
    - right. subst hi. repeat split; try assumption; lia. }
  exists label, b, out.
  split; [reflexivity|]. split; [exact EP|]. split; [exact Lout|].
  split; [|exact Hb].
  unfold predict_record.
  assert (record_inputs net record = Ok ins) as Ei.
  { rewrite record_inputs_take by lia.
    destruct (len record <? inputs net) eqn:E; [lia|reflexivity]. }
  rewrite (bind_eq _ _ w w _ (lift_eq _ _ w Ei)).
  rewrite (bind_eq _ _ w w _ EP).
  rewrite <- Lout. rewrite (bind_eq _ _ w w _ (lift_eq _ _ w Eb)).
  reflexivity.
Qed.

Lemma predict_record_scores_witness :
  exists label b out,
    [1; 0; 255] !! 0%nat = Some label
    /\ Predict exp_crude ex_net ((fun x => scale_pixel (F64.of_int x))
                          <$> take (Z.to_nat (inputs ex_net)) [1; 0; 255]) ex_world
       = Ok (MDense (column out), ex_world)
    /\ len out = outputs ex_net
    /\ predict_record exp_crude ex_net [1; 0; 255] ex_world = Ok (b =? label, ex_world)
    /\ ((b = 0 /\ forall j, 0 <= j < len out -> F64.ltb F64.zero (cell out j) = false)
        \/ (0 <= b < len out
            /\ F64.ltb F64.zero (cell out b) = true
            /\ (forall j, 0 <= j < len out -> F64.ltb (cell out b) (cell out j) = false)
            /\ (forall j, 0 <= j < b ->
                  F64.ltb (cell out j) (cell out b) = true
                  \/ F64.is_nan (cell out j) = true))).
Proof.
  apply (predict_record_scores exp_crude ex_net [1; 0; 255] ex_world).
  - exact exp_crude_contract.
  - exact network_ok_ex.
  - vm_compute. discriminate.
Defined.

(** X17. The body of [mnistTrain] for one record, on a network of the
    configured shapes: a record with at least [inputs] fields whose
    first field is a label below [outputs] is trained on without a panic,
    and afterwards the network points to the matrices it pointed to
    before, with the cells they had. *)
Theorem train_record_runs (Exp : float64 -> float64) (net : Network)
    (label : Z) (fields : list Z) (w : World) :
  network_ok net w -> inputs net <= len (label :: fields) ->
  0 <= label < outputs net ->
  exists w',
    train_record Exp net (label :: fields) w = Ok (tt, w')
    /\ heap w' !! hiddenWeights net = heap w !! hiddenWeights net
    /\ heap w' !! outputWeights net = heap w !! outputWeights net.
Proof.
  intros K Hrec Hlab. pose proof K as (_ & hw & ow & Hhw & How & Wh & Wo & Dh & Do).
  assert (Rows hw = hiddens net /\ Cols hw = inputs net) as [Eh1 Eh2]
    by (simpl in Dh; inversion Dh; auto).
  assert (Rows ow = outputs net /\ Cols ow = hiddens net) as [Eo1 Eo2]
    by (simpl in Do; inversion Do; auto).
  pose proof Wh as (Hr & Hc & _).
  set (record := label :: fields) in *.
  set (ins := (fun x => scale_pixel (F64.of_int x)) <$> take (Z.to_nat (inputs net)) record).
  assert (len ins = inputs net) as Lins by (apply len_record_inputs; lia).
  assert (record_inputs net record = Ok ins) as Ei.
  { rewrite record_inputs_take by lia.
    destruct (len record <? inputs net) eqn:E; [lia|reflexivity]. }
  destruct (record_targets_one_hot net label fields Hlab) as (tg & Et & Lt & _).
  destruct (Train_body_ok Exp net ins tg w hw ow Hhw How Wh Wo
              ltac:(congruence) ltac:(congruence) ltac:(congruence))
    as (new_ow & new_hw & E & _).
  eexists. split.
  { unfold train_record.
    rewrite (bind_eq _ _ w w _ (lift_eq _ _ w Ei)).
    fold record in Et. rewrite (bind_eq _ _ w w _ (lift_eq _ _ w Et)).
    unfold Train. rewrite (bind_eq _ _ _ _ _ E). reflexivity. }
  cbn [heap set_heap]. split; apply lookup_app_l; eapply lookup_lt_Some; eassumption.
Qed.

Lemma train_record_runs_witness :
  exists w',
    train_record exp_crude ex_net (0 :: [255; 7]) ex_world = Ok (tt, w')
    /\ heap w' !! hiddenWeights ex_net = heap ex_world !! hiddenWeights ex_net
    /\ heap w' !! outputWeights ex_net = heap ex_world !! outputWeights ex_net.
Proof.
  apply (train_record_runs exp_crude ex_net 0 [255; 7] ex_world).
  - exact network_ok_ex.
  - vm_compute. discriminate.
  - vm_compute. split; [discriminate|reflexivity].
Defined.

(** *** Training over a file, and saving *)

Lemma network_ok_grown (net : Network) (w : World) (extra : list Dense) :
  network_ok net w -> network_ok net (set_heap w (heap w ++ extra)).
Proof.
  intros (Hne & hw & ow & Hhw & How & Rest). split; [exact Hne|].
  exists hw, ow. cbn [heap set_heap].
  split; [apply lookup_app_l_Some; exact Hhw|].
  split; [apply lookup_app_l_Some; exact How|exact Rest].
Qed.

(** A record [mnistTrain] can train on: enough fields, and a label that
    is an index of the target vector. *)
Lemma train_record_world (Exp : float64 -> float64) (net : Network)
    (record : list Z) (w : World) :
  network_ok net w -> usable_record net record ->
  exists extra,
    train_record Exp net record w = Ok (tt, set_heap w (heap w ++ extra)).
Proof.
  intros K (label & fields & -> & Hrec & Hlab).
  pose proof K as (_ & hw & ow & Hhw & How & Wh & Wo & Dh & Do).
  assert (Rows hw = hiddens net /\ Cols hw = inputs net) as [Eh1 Eh2]
    by (simpl in Dh; inversion Dh; auto).
  assert (Rows ow = outputs net /\ Cols ow = hiddens net) as [Eo1 Eo2]
    by (simpl in Do; inversion Do; auto).
  pose proof Wh as (Hr & Hc & _).
  set (record := label :: fields) in *.
  set (ins := (fun x => scale_pixel (F64.of_int x)) <$> take (Z.to_nat (inputs net)) record).
  assert (len ins = inputs net) as Lins by (apply len_record_inputs; lia).
  assert (record_inputs net record = Ok ins) as Ei.
  { rewrite record_inputs_take by lia.
    destruct (len record <? inputs net) eqn:E; [lia|reflexivity]. }
  destruct (record_targets_one_hot net label fields Hlab) as (tg & Et & Lt & _).
  destruct (Train_body_ok Exp net ins tg w hw ow Hhw How Wh Wo
              ltac:(congruence) ltac:(congruence) ltac:(congruence))
    as (new_ow & new_hw & E & _).
  exists [new_ow; new_hw]. unfold train_record.
  rewrite (bind_eq _ _ w w _ (lift_eq _ _ w Ei)).
  fold record in Et. rewrite (bind_eq _ _ w w _ (lift_eq _ _ w Et)).
  unfold Train. rewrite (bind_eq _ _ _ _ _ E). reflexivity.
Qed.

Lemma train_records_world (Exp : float64 -> float64) (net : Network)
    (records : list (list Z)) (w : World) :
  network_ok net w -> Forall (usable_record net) records ->
  exists extra,
    train_records Exp net records w = Ok (tt, set_heap w (heap w ++ extra)).
Proof.
  intros K H. revert w K. induction H as [|record rest Hrec Hrest IH]; intros w K.
  - exists []. cbn [train_records]. unfold mret, M_ret. rewrite app_nil_r.
    destruct w; reflexivity.
  - destruct (train_record_world Exp net record w K Hrec) as (e1 & E1).
    destruct (IH _ (network_ok_grown net w e1 K)) as (e2 & E2).
    exists (e1 ++ e2). cbn [train_records].
    rewrite (bind_eq _ _ _ _ _ E1), E2. cbn [heap set_heap].
    rewrite app_assoc. reflexivity.
Qed.

(** X18. The [train] branch of [main] on usable records, [records] being
    all the records the loop trains on, in order, over its readings of
    the file: the loop runs without a panic, and the [save] that follows
    writes the encodings of the two matrices the network had before any
    training: what reaches the files is the untrained network. *)
Theorem train_then_save_writes_initial_weights (Exp : float64 -> float64)
    (net : Network) (records : list (list Z)) (w : World) (hw ow : Dense) :
  network_ok net w ->
  heap w !! hiddenWeights net = Some hw -> heap w !! outputWeights net = Some ow ->
  Forall (usable_record net) records ->
  hidden_path ∉ unwritable w -> output_path ∉ unwritable w ->
  exists w1 w2,
    train_records Exp net records w = Ok (tt, w1)
    /\ save net w1 = Ok (None, w2)
    /\ files w2 !! hidden_path = Some (encoding hw)
    /\ files w2 !! output_path = Some (encoding ow).
Proof.
  intros K Hhw How Hrec Ph Po.
  destruct (train_records_world Exp net records w K Hrec) as (extra & E).
  pose proof K as (_ & hw' & ow' & Hhw' & How' & Wh & Wo & _).
  assert (hw' = hw) by congruence. assert (ow' = ow) by congruence. subst hw' ow'.
  set (w1 := set_heap w (heap w ++ extra)) in *.
  eexists. eexists. split; [exact E|]. split.
  - apply (save_ok net w1 hw ow); try assumption.
    + cbn [w1 heap set_heap]. apply lookup_app_l_Some. exact Hhw.
    + cbn [w1 heap set_heap]. apply lookup_app_l_Some. exact How.
  - cbn [files set_files]. split.
    + rewrite lookup_insert_ne by discriminate. apply lookup_insert_eq.
    + apply lookup_insert_eq.
Qed.

Lemma usable_record_ex : Forall (usable_record ex_net) [[0; 255; 7]; [0; 1; 2; 3]].
Proof.
  repeat constructor.
  - exists 0, [255; 7]. split; [reflexivity|]. split; [vm_compute; discriminate|].
    vm_compute. split; [discriminate|reflexivity].
  - exists 0, [1; 2; 3]. split; [reflexivity|]. split; [vm_compute; discriminate|].
    vm_compute. split; [discriminate|reflexivity].
Qed.

Lemma train_then_save_writes_initial_weights_witness :
  exists w1 w2,
    train_records exp_crude ex_net [[0; 255; 7]; [0; 1; 2; 3]] ex_world = Ok (tt, w1)
    /\ save ex_net w1 = Ok (None, w2)
    /\ files w2 !! hidden_path = Some (encoding ex_hidden)
    /\ files w2 !! output_path = Some (encoding ex_output).
Proof.
  apply (train_then_save_writes_initial_weights exp_crude ex_net
           [[0; 255; 7]; [0; 1; 2; 3]] ex_world ex_hidden ex_output).
  - exact network_ok_ex.
  - reflexivity.
  - reflexivity.
  - exact usable_record_ex.
  - simpl. apply not_elem_of_empty.
  - simpl. apply not_elem_of_empty.
Defined.

(** *** Where the sigmoid gives out *)

Lemma mul_neg_one (z : float64) :
  F64.valid z = true -> F64.mul F64.neg_one z = SFopp z.
Proof.
  intros V. destruct z as [s|s| |s m e]; try (destruct s; reflexivity); [reflexivity|].
  unfold F64.mul, F64.neg_one, SFmul. cbn [SFopp].
  destruct (bounded_storable m e V) as (St & Lm & Le).
  pose proof (bounded_canonical m e V) as Cn.
  set (mx := Z.pos (4503599627370496 * m)).
  assert (mx = Z.pos m * 2 ^ 52) as Emx.
  { unfold mx. rewrite Pos2Z.inj_mul. change (Z.pos 4503599627370496) with (2 ^ 52). lia. }
  assert (Zdigits2 mx + (-52 + e) = Zdigits2 (Z.pos m) + e) as Ed.
  { rewrite Emx, digits_mul_pow by lia. lia. }
  assert (-52 + e <= fexp F64.prec F64.emax (Zdigits2 mx + (-52 + e))) as P
    by (rewrite Ed, Cn; lia).
  destruct (round_aux_stored (xorb true s) mx (-52 + e) loc_Exact ltac:(lia) P)
    as (m2 & -> & St2 & Hm2 & Hex).
  rewrite Ed, Cn in *. replace (e - (-52 + e)) with 52 in * by lia.
  assert (m2 = Z.pos m) as ->.
  { rewrite Hex; [|reflexivity|rewrite Emx; apply Z.mod_mul; lia].
    rewrite Emx. apply Z.div_mul. lia. }
  rewrite (pack_cases _ _ _ St2).
  destruct (Z.pos m =? 0) eqn:E0; [lia|].
  destruct (Z.pos m =? 2 ^ 53) eqn:E53; [apply Z.eqb_eq in E53; lia|].
  destruct (e <=? 971) eqn:Ee; [|apply Z.leb_gt in Ee; lia].
  destruct s; reflexivity.
Qed.

Lemma below_threshold (z : float64) :
  F64.valid z = true -> F64.ltb z (SFopp exp_overflow) = true ->
  F64.ltb exp_overflow (SFopp z) = true.
Proof.
  intros V H. destruct z as [s|s| |s m e].
  - destruct s; vm_compute in H; discriminate.
  - destruct s; [reflexivity|vm_compute in H; discriminate].
  - vm_compute in H. discriminate.
  - assert (finite_valid (S754_finite s m e)) as Fz by (split; [exact V|reflexivity]).
    assert (finite_valid exp_overflow) as Fx by (split; reflexivity).
    apply (ltb_ulps _ _ Fz (finite_valid_opp _ Fx)) in H.
    apply (ltb_ulps _ _ Fx (finite_valid_opp _ Fz)).
    rewrite ulps_opp in *. lia.
Qed.

(** X19. Below [-709.782712893384] the sigmoid is exactly zero: for every
    binary64 [z] under that threshold, minus infinity included, [-1 * z]
    is above the threshold at which [math.Exp] returns [+Inf], and
    [1 / (1 + Inf)] is [+0]. *)
Theorem sigmoid_underflows (Exp : float64 -> float64) (r c : Z) (z : float64) :
  ExpContract Exp -> F64.valid z = true ->
  F64.ltb z (SFopp exp_overflow) = true ->
  sigmoid Exp r c z = F64.zero.
Proof.
  intros C V H. unfold sigmoid. rewrite (mul_neg_one z V).
  rewrite (Exp_overflow Exp C) by (apply below_threshold; assumption).
  reflexivity.
Qed.

Lemma sigmoid_underflows_witness : sigmoid exp_crude 0 0 minus_4000 = F64.zero.
Proof.
  apply (sigmoid_underflows exp_crude 0 0 minus_4000).
  - exact exp_crude_contract.
  - reflexivity.
  - reflexivity.
Defined.

(** *** After a load of another shape *)

(** X20. A stored hidden-weights matrix of another shape is loaded
    without an error and the mismatch shows only later: when the stored
    matrix has a number of columns that is not the length of the input,
    the [Predict] after the [load] panics in its first matrix product. *)
Theorem load_of_other_shape_breaks_Predict (Exp : float64 -> float64)
    (net : Network) (w : World) (A B : Dense) (x : list float64) :
  well_formed A -> valid_cells A -> well_formed B -> valid_cells B ->
  files w !! hidden_path = Some (encoding A) ->
  files w !! output_path = Some (encoding B) ->
  hiddenWeights net <> outputWeights net ->
  is_Some (heap w !! hiddenWeights net) ->
  is_Some (heap w !! outputWeights net) ->
  0 < len x < 2 ^ 63 -> Cols A <> len x ->
  exists w',
    load net w = Ok (None, w')
    /\ Predict Exp net x w' = Panic "mat: dimension mismatch".
Proof.
  intros WA VA WB VB FA FB Hne [d1 Hd1] [d2 Hd2] Hx Hc.
  destruct (Unmarshal_encoding A d1 WA VA) as (m1 & Hu1 & Hw1).
  destruct (Unmarshal_encoding B d2 WB VB) as (m2 & Hu2 & Hw2).
  eexists. split.
  { apply (load_both net w (encoding A) (encoding B) d1 m1 d2 m2 None); assumption. }
  set (w' := set_heap w _).
  destruct (lookup_after_load (heap w) _ _ m1 m2 d1 d2 Hne Hd1 Hd2) as [L1 _].
  assert (Rows m1 = Rows A /\ Cols m1 = Cols A) as [ER EC].
  { unfold window in Hw1. inversion Hw1. auto. }
  pose proof WA as (Hr & Hcc & _ & _ & Hmax).
  unfold Predict.
  rewrite (bind_eq _ _ w' w' _ (lift_eq _ _ w' (NewDense_column x Hx))).
  rewrite (bind_eq _ _ w' w' m1) by (apply deref_eq; exact L1).
  apply bind_Panic, lift_Panic.
  apply (dot_mismatch _ _ (Rows A) (Cols A) (len x) 1);
    first [lia | nia | reflexivity | (simpl; congruence)].
Qed.

Lemma load_of_other_shape_breaks_Predict_witness :
  exists w',
    load ex_net mismatch_world = Ok (None, w')
    /\ Predict exp_crude ex_net ex_input w' = Panic "mat: dimension mismatch".
Proof.
  apply (load_of_other_shape_breaks_Predict exp_crude ex_net mismatch_world
           ex_wide ex_output ex_input).
  - repeat split; simpl; lia.
  - repeat constructor.
  - exact well_formed_ex_output.
  - exact valid_cells_ex_output.
  - reflexivity.
  - reflexivity.
  - simpl. discriminate.
  - simpl. eauto.
  - simpl. eauto.
  - split; reflexivity.
  - vm_compute. discriminate.
Defined.

(** *** What construction does to the world *)



(** *** The size of the initial weights *)




